(** * Harmonic thermodynamics and primitive-cell reduction

    A shallow embedding of [crystal_functions/thermodynamics.py] (classes
    [Mode] and [Harmonic]) and of [CRYSTALpytools/geometry.py]
    ([get_pcel], [get_scel], [rotate_lattice], [refine_geometry],
    [get_sg_symmops]); the calls into pymatgen are parameters.

    Numbers.  A double is read as a real number, plus one distinguished
    value [NaN]: rounding and overflow are outside this reading.  The two
    operations that leave the reals on a finite operand (a division by
    zero, the logarithm of a number that is not positive) give [NaN]; in
    the formulas below a zero divisor always comes with a zero numerator,
    where IEEE arithmetic gives NaN as well.  Grid values (temperatures,
    pressures), the electronic energy and the cell volume are finite and
    are plain reals.  What the first reading cannot show, a result that
    leaves the range of a double, is followed in a second reading of
    [Mode], module [Ieee], which has the two infinities.

    Objects.  A Python object with attributes that are created on first
    assignment is a record whose late attributes are options; a method is
    a function from the object to an outcome and the object after the
    call. *)

From Stdlib Require Import Reals Lra Lia List ZArith Bool String.
Import ListNotations.
Open Scope R_scope.

(** ** Outcomes of a Python call *)

Inductive exn : Type :=
| IndexError
| ValueError
| TypeError
| AttributeError
| LinAlgError.

(** [Ret a]: the call returns [a]; [RetNone]: it prints its error line and
    returns [None]; [Raise e]: it raises. *)
Inductive res (A : Type) : Type :=
| Ret (a : A)
| RetNone
| Raise (e : exn).
Arguments Ret {A} a.
Arguments RetNone {A}.
Arguments Raise {A} e.

(** A method of an object of type [S]. *)
Definition Py (S A : Type) : Type := S -> res A * S.

Definition ret {S A} (a : A) : Py S A := fun s => (Ret a, s).
Definition raise {S A} (e : exn) : Py S A := fun s => (Raise e, s).

(** An attribute assignment [self.x = v]. *)
Definition modify {S} (f : S -> S) : Py S unit := fun s => (Ret tt, f s).

(** An attribute read [self.x]: an [AttributeError] when it was never
    assigned. *)
Definition attr {S A} (f : S -> option A) : Py S A :=
  fun s =>
    match f s with
    | Some a => (Ret a, s)
    | None => (Raise AttributeError, s)
    end.

(** Sequencing.  A [None] that reaches an arithmetic operator is a
    [TypeError] there, which is how [bind] is used below: the value of the
    first call is consumed by the second. *)
Definition bind {S A B} (c : Py S A) (k : A -> Py S B) : Py S B :=
  fun s =>
    match c s with
    | (Ret a, s') => k a s'
    | (RetNone, s') => (Raise TypeError, s')
    | (Raise e, s') => (Raise e, s')
    end.

Declare Scope py_scope.
Delimit Scope py_scope with py.
Notation "x <- c ;; k" := (bind c (fun x => k))
  (at level 61, c at next level, right associativity) : py_scope.

(** [for x in l: acc = body(acc, x)], where [body] may mutate [x]: the
    list of objects is the state. *)
Fixpoint for_each {S A} (body : A -> Py S A) (acc : A) (l : list S)
  : res A * list S :=
  match l with
  | [] => (Ret acc, [])
  | x :: l' =>
      match body acc x with
      | (Ret acc', x') =>
          let (r, l'') := for_each body acc' l' in (r, x' :: l'')
      | (RetNone, x') => (Raise TypeError, x' :: l')
      | (Raise e, x') => (Raise e, x' :: l')
      end
  end.

(** ** Doubles

    The first reading: reals and NaN.  It has no infinity, so [fexp] is
    the real exponential at every argument and a sum keeps every term;
    [Ieee] below is the reading in which [np.exp] overflows. *)

Inductive float : Type :=
| NaN
| Fin (r : R).

Definition isnan (a : float) : bool :=
  match a with NaN => true | Fin _ => false end.

Definition fneg (a : float) : float :=
  match a with Fin x => Fin (- x) | NaN => NaN end.

Definition fadd (a b : float) : float :=
  match a, b with Fin x, Fin y => Fin (x + y) | _, _ => NaN end.

Definition fsub (a b : float) : float :=
  match a, b with Fin x, Fin y => Fin (x - y) | _, _ => NaN end.

Definition fmul (a b : float) : float :=
  match a, b with Fin x, Fin y => Fin (x * y) | _, _ => NaN end.

Definition fdiv (a b : float) : float :=
  match a, b with
  | Fin x, Fin y => if Req_dec_T y 0 then NaN else Fin (x / y)
  | _, _ => NaN
  end.

Definition fsqr (a : float) : float := fmul a a.

Definition fexp (a : float) : float :=
  match a with Fin x => Fin (exp x) | NaN => NaN end.

Definition flog (a : float) : float :=
  match a with
  | Fin x => if Rlt_dec 0 x then Fin (ln x) else NaN
  | NaN => NaN
  end.

(** [a > c]: false on NaN. *)
Definition fgtb (a : float) (c : R) : bool :=
  match a with
  | Fin x => if Rlt_dec c x then true else false
  | NaN => false
  end.

(** [np.sum] along one axis, and the accumulation [acc += x] of a loop. *)
Definition fsum (l : list float) : float := fold_left fadd l (Fin 0).

Infix "+f" := fadd (at level 50, left associativity).
Infix "-f" := fsub (at level 50, left associativity).
Infix "*f" := fmul (at level 40, left associativity).
Infix "/f" := fdiv (at level 40, left associativity).

(** ** Class [Mode] *)

Module Mode.

Record t : Type := mk {
  rank : Z;
  frequency : list float;      (* angular frequency, one entry per sample *)
  volume : list R;
  zp_energy : option float;    (* set by get_zp_energy *)
  U_vib : option float;        (* set by get_U_vib *)
  entropy : option float;      (* set by get_entropy *)
  C_v : option float           (* set by get_C_v *)
}.

(** [self.ncalc = len(frequency)], fixed at construction. *)
Definition ncalc (m : t) : nat := List.length (frequency m).

(** [Mode(rank, frequency, volume)]: the frequencies are multiplied by
    [2] and then by [np.pi].  The eigenvector, which no formula reads, is
    left out. *)
Definition init (rank : Z) (frequency : list float) (volume : list R) : t :=
  mk rank (map (fun f => f *f Fin 2 *f Fin PI) frequency) volume
     None None None None.

Definition set_zp_energy (v : float) (m : t) : t :=
  mk (rank m) (frequency m) (volume m) (Some v) (U_vib m) (entropy m) (C_v m).
Definition set_U_vib (v : float) (m : t) : t :=
  mk (rank m) (frequency m) (volume m) (zp_energy m) (Some v) (entropy m) (C_v m).
Definition set_entropy (v : float) (m : t) : t :=
  mk (rank m) (frequency m) (volume m) (zp_energy m) (U_vib m) (Some v) (C_v m).
Definition set_C_v (v : float) (m : t) : t :=
  mk (rank m) (frequency m) (volume m) (zp_energy m) (U_vib m) (entropy m) (Some v).

(** [self.frequency[0] * 6.022141 * 6.626070E-2 / 2 / np.pi] *)
Definition hbar_freq_of (w : float) : float :=
  w *f Fin 6.022141 *f Fin 6.626070E-2 /f Fin 2 /f Fin PI.

(** [1.380649E-3 * 6.022141 * temperature] *)
Definition kb_t_of (temperature : R) : R :=
  1.380649E-3 * 6.022141 * temperature.

(** [self.frequency[0]] *)
Definition frequency0 : Py t float :=
  fun m =>
    match frequency m with
    | w :: _ => (Ret w, m)
    | [] => (Raise IndexError, m)
    end.

Definition get_zp_energy : Py t float :=
  fun self =>
    if (1 <? ncalc self)%nat then (RetNone, self)
    else
      (w <- frequency0 ;;
       let hbar_freq := hbar_freq_of w in
       let zp := Fin 0.5 *f hbar_freq in
       _ <- modify (set_zp_energy zp) ;;
       ret zp)%py self.

(** The attribute [zp_energy], computed first when it is absent. *)
Definition cached_zp_energy : Py t float :=
  fun self =>
    match zp_energy self with
    | Some zp => (Ret zp, self)
    | None =>
        match get_zp_energy self with
        | (Ret zp, m) => (Ret zp, m)
        | (RetNone, m) => (Raise AttributeError, m)
        | (Raise e, m) => (Raise e, m)
        end
    end.

Definition get_U_vib (temperature : R) : Py t float :=
  fun self =>
    if (1 <? ncalc self)%nat then (RetNone, self)
    else
      (zp <- cached_zp_energy ;;
       if Req_dec_T temperature 0 then
         _ <- modify (set_U_vib zp) ;;
         ret zp
       else
         w <- frequency0 ;;
         let hbar_freq := hbar_freq_of w in
         let kb_t := Fin (kb_t_of temperature) in
         let expon := fexp (hbar_freq /f kb_t) in
         let u := zp +f hbar_freq /f (expon -f Fin 1) in
         _ <- modify (set_U_vib u) ;;
         ret u)%py self.

Definition get_entropy (temperature : R) : Py t float :=
  fun self =>
    if (1 <? ncalc self)%nat then (RetNone, self)
    else if Req_dec_T temperature 0 then
      (Ret (Fin 0), set_entropy (Fin 0) self)
    else
      (w <- frequency0 ;;
       let hbar_freq := hbar_freq_of w in
       let kb_t := Fin (kb_t_of temperature) in
       let expon := fexp (hbar_freq /f kb_t) in
       let entS :=
         kb_t *f (hbar_freq /f kb_t /f (expon -f Fin 1)
                  -f flog (Fin 1 -f Fin 1 /f expon)) in
       let s := entS /f Fin temperature *f Fin 1000 in
       _ <- modify (set_entropy s) ;;
       ret s)%py self.

Definition get_C_v (temperature : R) : Py t float :=
  fun self =>
    if (1 <? ncalc self)%nat then (RetNone, self)
    else if Req_dec_T temperature 0 then
      (Ret (Fin 0), set_C_v (Fin 0) self)
    else
      (w <- frequency0 ;;
       let hbar_freq := hbar_freq_of w in
       let kb_t := Fin (kb_t_of temperature) in
       let expon := fexp (hbar_freq /f kb_t) in
       let c :=
         fsqr hbar_freq /f kb_t /f Fin temperature *f expon
           /f fsqr (expon -f Fin 1) *f Fin 1000 in
       _ <- modify (set_C_v c) ;;
       ret c)%py self.

End Mode.

(** ** Loops over plain values and array helpers *)

(** [for x in l: acc = body(acc, x)] where [body] acts on the enclosing
    object. *)
Fixpoint for_in {S A X} (body : A -> X -> Py S A) (acc : A) (l : list X)
  : Py S A :=
  match l with
  | [] => ret acc
  | x :: l' => bind (body acc x) (fun acc' => for_in body acc' l')
  end.

(** Elementwise operation on two arrays of one length. *)
Fixpoint map2 {A B C} (f : A -> B -> C) (l : list A) (l' : list B) : list C :=
  match l, l' with
  | a :: l, b :: l' => f a b :: map2 f l l'
  | _, _ => []
  end.

(** The length of the second axis of a two-dimensional array. *)
Definition width {A} (rows : list (list A)) : nat :=
  List.length (hd [] rows).

(** [np.transpose] of an array of [n] columns: entry [q][t] of the result is
    entry [t][q] of the argument. *)
Definition transpose (n : nat) (rows : list (list float)) : list (list float) :=
  map (fun q => map (fun row => nth q row NaN) rows) (seq 0 n).

(** [np.transpose(a, (2, 0, 1))]: entry [q][t][p] of the result is entry
    [t][p][q] of the argument. *)
Definition transpose201 (n : nat) (a : list (list (list float)))
  : list (list (list float)) :=
  map (fun q => map (fun a_t => map (fun a_tp => nth q a_tp NaN) a_t) a)
      (seq 0 n).

(** [np.sum(a, axis=0)] of an array of [n] columns. *)
Definition sum_axis0 (n : nat) (a : list (list float)) : list float :=
  map (fun t => fsum (map (fun row => nth t row NaN) a)) (seq 0 n).

(** [np.sum(a, axis=0)] of a three-dimensional array whose slices have [n]
    rows of [k] entries. *)
Definition sum_axis0_3 (n k : nat) (a : list (list (list float)))
  : list (list float) :=
  map (fun t => sum_axis0 k (map (fun a_q => nth t a_q []) a)) (seq 0 n).

(** ** Class [Harmonic] *)

Module Harmonic.

Definition vec3 : Type := (R * R * R)%type.

(** The tensors returned by [thermodynamics]: Helmholtz and Gibbs free
    energy, zero-point energy, internal energy, entropy, heat capacity. *)
Definition tensors : Type :=
  (list (list float) * list (list (list float)) * list float
   * list (list float) * list (list float) * list (list float))%type.

Record t : Type := mk {
  edft : option R;                 (* the scalar [self.edft[0]] that from_file
                                      stores; the list it reads is in [output] *)
  volume : option R;
  temperature : option (list R);
  pressure : option (list R);
  nqpoint : option nat;
  qpoint : option (list vec3);
  mode : option (list (list Mode.t));
  zp_energy : option (list float);
  U_vib : option (list (list float));
  entropy : option (list (list float));
  C_v : option (list (list float));
  helmholtz : option (list (list float));
  gibbs : option (list (list (list float)))
}.

(** [Harmonic()]: no attribute yet. *)
Definition init : t :=
  mk None None None None None None None None None None None None None.

Definition set_edft v (h : t) : t :=
  mk (Some v) (volume h) (temperature h) (pressure h) (nqpoint h) (qpoint h)
     (mode h) (zp_energy h) (U_vib h) (entropy h) (C_v h) (helmholtz h) (gibbs h).
Definition set_volume v (h : t) : t :=
  mk (edft h) (Some v) (temperature h) (pressure h) (nqpoint h) (qpoint h)
     (mode h) (zp_energy h) (U_vib h) (entropy h) (C_v h) (helmholtz h) (gibbs h).
Definition set_temperature v (h : t) : t :=
  mk (edft h) (volume h) (Some v) (pressure h) (nqpoint h) (qpoint h)
     (mode h) (zp_energy h) (U_vib h) (entropy h) (C_v h) (helmholtz h) (gibbs h).
Definition set_pressure v (h : t) : t :=
  mk (edft h) (volume h) (temperature h) (Some v) (nqpoint h) (qpoint h)
     (mode h) (zp_energy h) (U_vib h) (entropy h) (C_v h) (helmholtz h) (gibbs h).
Definition set_nqpoint v (h : t) : t :=
  mk (edft h) (volume h) (temperature h) (pressure h) (Some v) (qpoint h)
     (mode h) (zp_energy h) (U_vib h) (entropy h) (C_v h) (helmholtz h) (gibbs h).
Definition set_qpoint v (h : t) : t :=
  mk (edft h) (volume h) (temperature h) (pressure h) (nqpoint h) (Some v)
     (mode h) (zp_energy h) (U_vib h) (entropy h) (C_v h) (helmholtz h) (gibbs h).
Definition set_mode v (h : t) : t :=
  mk (edft h) (volume h) (temperature h) (pressure h) (nqpoint h) (qpoint h)
     (Some v) (zp_energy h) (U_vib h) (entropy h) (C_v h) (helmholtz h) (gibbs h).
Definition set_zp_energy v (h : t) : t :=
  mk (edft h) (volume h) (temperature h) (pressure h) (nqpoint h) (qpoint h)
     (mode h) (Some v) (U_vib h) (entropy h) (C_v h) (helmholtz h) (gibbs h).
Definition set_U_vib v (h : t) : t :=
  mk (edft h) (volume h) (temperature h) (pressure h) (nqpoint h) (qpoint h)
     (mode h) (zp_energy h) (Some v) (entropy h) (C_v h) (helmholtz h) (gibbs h).
Definition set_entropy v (h : t) : t :=
  mk (edft h) (volume h) (temperature h) (pressure h) (nqpoint h) (qpoint h)
     (mode h) (zp_energy h) (U_vib h) (Some v) (C_v h) (helmholtz h) (gibbs h).
Definition set_C_v v (h : t) : t :=
  mk (edft h) (volume h) (temperature h) (pressure h) (nqpoint h) (qpoint h)
     (mode h) (zp_energy h) (U_vib h) (entropy h) (Some v) (helmholtz h) (gibbs h).
Definition set_helmholtz v (h : t) : t :=
  mk (edft h) (volume h) (temperature h) (pressure h) (nqpoint h) (qpoint h)
     (mode h) (zp_energy h) (U_vib h) (entropy h) (C_v h) (Some v) (gibbs h).
Definition set_gibbs v (h : t) : t :=
  mk (edft h) (volume h) (temperature h) (pressure h) (nqpoint h) (qpoint h)
     (mode h) (zp_energy h) (U_vib h) (entropy h) (C_v h) (helmholtz h) (Some v).

(** The test [not np.isnan(mode.frequency) and mode.frequency > 1e-5] on
    the array of samples of a mode.  An array of one element has the truth
    value of that element; an array of any other size has none and the
    test raises. *)
Definition keeps (w : float) : bool := negb (isnan w) && fgtb w 1e-5.

Definition is_kept : Py Mode.t bool :=
  fun m =>
    match Mode.frequency m with
    | [w] => (Ret (keeps w), m)
    | _ => (Raise ValueError, m)
    end.

(** The inner loop of [phonon_sumup()], [temperature = None]. *)
Definition zp_step (zp_energy_q : float) : Py Mode.t float :=
  (b <- is_kept ;;
   if b : bool then
     z <- Mode.get_zp_energy ;;
     ret (zp_energy_q +f z)
   else ret zp_energy_q)%py.

Definition zp_qpoint (zp_energy : list float) : Py (list Mode.t) (list float) :=
  (zp_energy_q <- for_each zp_step (Fin 0) ;;
   ret (zp_energy ++ [zp_energy_q]))%py.

(** The inner loop of [phonon_sumup(temperature=T)]. *)
Definition T_step (T : R) (acc : float * float * float)
  : Py Mode.t (float * float * float) :=
  let '(U_vib_q, entropy_q, C_v_q) := acc in
  (b <- is_kept ;;
   if b : bool then
     u <- Mode.get_U_vib T ;;
     s <- Mode.get_entropy T ;;
     c <- Mode.get_C_v T ;;
     ret (U_vib_q +f u, entropy_q +f s, C_v_q +f c)
   else ret acc)%py.

Definition T_qpoint (T : R) (acc : list float * list float * list float)
  : Py (list Mode.t) (list float * list float * list float) :=
  let '(U_vib, entropy, C_v) := acc in
  (sums <- for_each (T_step T) (Fin 0, Fin 0, Fin 0) ;;
   let '(U_vib_q, entropy_q, C_v_q) := sums in
   ret (U_vib ++ [U_vib_q], entropy ++ [entropy_q], C_v ++ [C_v_q]))%py.

(** A loop over [self.mode], whose mode objects the body mutates. *)
Definition over_modes {A} (body : A -> Py (list Mode.t) A) (acc : A) : Py t A :=
  fun self =>
    match mode self with
    | None => (Raise AttributeError, self)
    | Some qs => let (r, qs') := for_each body acc qs in (r, set_mode qs' self)
    end.

(** [self.phonon_sumup()] *)
Definition phonon_sumup_zp : Py t (list float) := over_modes zp_qpoint [].

(** [self.phonon_sumup(temperature=T)] *)
Definition phonon_sumup (T : R) : Py t (list float * list float * list float) :=
  over_modes (T_qpoint T) ([], [], []).

(** The accumulators of the loop over temperatures: [U_vib], [entropy],
    [C_v], [helmholtz] and [gibbs], one row per temperature. *)
Definition rows : Type :=
  (list (list float) * list (list float) * list (list float)
   * list (list float) * list (list (list float)))%type.

(** [helm_t = -entropy_t * T + U_vib_t + self.edft] *)
Definition helm_row (T edft : R) (entropy_t U_vib_t : list float) : list float :=
  map2 (fun s u => fneg s *f Fin T +f u +f Fin edft) entropy_t U_vib_t.

(** [gibbs_tp = p * self.volume * 0.602214 + helm_t] *)
Definition gibbs_row (p volume : R) (helm_t : list float) : list float :=
  map (fun a => Fin (p * volume * 0.602214) +f a) helm_t.

Definition p_step (helm_t : list float) (gibbs_t : list (list float)) (p : R)
  : Py t (list (list float)) :=
  (v <- attr volume ;;
   ret (gibbs_t ++ [gibbs_row p v helm_t]))%py.

Definition temperature_step (acc : rows) (T : R) : Py t rows :=
  let '(U_vib, entropy, C_v, helmholtz, gibbs) := acc in
  (sums <- phonon_sumup T ;;
   let '(U_vib_t, entropy_t, C_v_t) := sums in
   e <- attr edft ;;
   let helm_t := helm_row T e entropy_t U_vib_t in
   ps <- attr pressure ;;
   gibbs_t <- for_in (p_step helm_t) [] ps ;;
   ret (U_vib ++ [U_vib_t], entropy ++ [entropy_t], C_v ++ [C_v_t],
        helmholtz ++ [helm_t], gibbs ++ [gibbs_t]))%py.

(** [self.thermodynamics(sumphonon)].  The transposition of [gibbs] to
    (q-point, temperature, pressure) needs a three-dimensional array: with
    an empty temperature or pressure grid [np.array] builds one of fewer
    dimensions and [np.transpose] raises. *)
Definition thermodynamics (sumphonon : bool) : Py t tensors :=
  (zp <- phonon_sumup_zp ;;
   _ <- modify (set_zp_energy zp) ;;
   Ts <- attr temperature ;;
   acc <- for_in temperature_step ([], [], [], [], []) Ts ;;
   let '(U_vib, entropy, C_v, helmholtz, gibbs) := acc in
   let nq := width U_vib in
   let nT := List.length Ts in
   let nP := width gibbs in
   if ((nT =? 0) || (nP =? 0))%nat then raise ValueError
   else
     let U_vib := transpose nq U_vib in
     let entropy := transpose nq entropy in
     let C_v := transpose nq C_v in
     let helmholtz := transpose nq helmholtz in
     let gibbs := transpose201 nq gibbs in
     if sumphonon then
       let U_vib := [sum_axis0 nT U_vib] in
       let entropy := [sum_axis0 nT entropy] in
       let C_v := [sum_axis0 nT C_v] in
       let helmholtz := [sum_axis0 nT helmholtz] in
       let gibbs := [sum_axis0_3 nT nP gibbs] in
       _ <- modify (set_U_vib U_vib) ;;
       _ <- modify (set_entropy entropy) ;;
       _ <- modify (set_C_v C_v) ;;
       _ <- modify (set_helmholtz helmholtz) ;;
       _ <- modify (set_gibbs gibbs) ;;
       _ <- modify (set_nqpoint 1%nat) ;;
       _ <- modify (set_qpoint [(0, 0, 0)]) ;;
       ret (helmholtz, gibbs, zp, U_vib, entropy, C_v)
     else
       _ <- modify (set_U_vib U_vib) ;;
       _ <- modify (set_entropy entropy) ;;
       _ <- modify (set_C_v C_v) ;;
       _ <- modify (set_helmholtz helmholtz) ;;
       _ <- modify (set_gibbs gibbs) ;;
       ret (helmholtz, gibbs, zp, U_vib, entropy, C_v))%py.

(** What the calls [read_cry_output], [get_mode], [clean_imaginary] and
    [generate_structure] of [from_file] leave on the object: the list of
    electronic energies, the q-points, the frequencies (THz) of every mode
    of every q-point, and the cell volume. *)
Record output : Type := mk_output {
  out_edft : list R;
  out_nqpoint : nat;
  out_qpoint : list vec3;
  out_frequency : list (list float);
  out_volume : R
}.

(** What [from_file] returns: one of its two messages, or [self]. *)
Inductive returned : Type :=
| Message (s : string)
| Self.

(** [enumerate]: [Mode(rank=m + 1, frequency=[freq], volume=[self.volume])]
    for the [m]-th frequency of a q-point. *)
Fixpoint qmode_from (m : nat) (v : R) (freqs : list float) : list Mode.t :=
  match freqs with
  | [] => []
  | freq :: freqs' =>
      Mode.init (Z.of_nat m + 1) [freq] [v] :: qmode_from (S m) v freqs'
  end.

(** [self.from_file(output_name, temperature, pressure, write_out=...)].
    The text file of [write_out] is not part of the model; the call of
    [thermodynamics] that precedes it is. *)
Definition from_file (out : output) (temperature pressure : list R)
    (write_out : bool) : Py t returned :=
  fun self =>
    match volume self with
    | Some _ =>
        (Ret (Message
                "ERROR: Data exists. Cannot overwriting the existing data."),
         self)
    | None =>
        (_ <- modify (set_nqpoint (out_nqpoint out)) ;;
         _ <- modify (set_qpoint (out_qpoint out)) ;;
         _ <- modify (set_temperature temperature) ;;
         _ <- modify (set_pressure pressure) ;;
         _ <- modify (set_volume (out_volume out)) ;;
         match out_edft out with
         | [e] =>
             _ <- modify (set_edft e) ;;
             _ <- modify (set_mode
                    (map (qmode_from 0 (out_volume out)) (out_frequency out))) ;;
             if write_out then
               _ <- thermodynamics true ;;
               ret Self
             else ret Self
         | _ =>
             ret (Message
                    "ERROR: Only a single frequency calculation is premitted.")
         end)%py self
    end.

End Harmonic.

(** ** [get_pcel] of [CRYSTALpytools/geometry.py] *)

Module Geometry.

Definition vec3 : Type := (R * R * R)%type.
Definition mat3 : Type := (vec3 * vec3 * vec3)%type.

(** A pymatgen structure: the rows of the lattice matrix, the periodicity of
    the three axes, and for every site its atomic number and fractional
    coordinates. *)
Record Structure : Type := mk {
  lattice : mat3;
  pbc : bool * bool * bool;
  sites : list (Z * vec3)
}.

Definition identity : mat3 := ((1, 0, 0), (0, 1, 0), (0, 0, 1)).

Definition row (j : nat) (m : mat3) : vec3 :=
  let '(r0, r1, r2) := m in
  match j with O => r0 | S O => r1 | _ => r2 end.

(** Row vector times matrix, [v @ m]. *)
Definition vecmat (v : vec3) (m : mat3) : vec3 :=
  let '(x, y, z) := v in
  let '((a, b, c), (d, e, f), (g, h, i)) := m in
  (x * a + y * d + z * g, x * b + y * e + z * h, x * c + y * f + z * i).

(** [a @ b] *)
Definition matmul (a b : mat3) : mat3 :=
  let '(r0, r1, r2) := a in (vecmat r0 b, vecmat r1 b, vecmat r2 b).

Definition det (m : mat3) : R :=
  let '((a, b, c), (d, e, f), (g, h, i)) := m in
  a * (e * i - f * h) - b * (d * i - f * g) + c * (d * h - e * g).

(** [np.linalg.inv] over the reals: elimination meets a zero pivot, and
    raises, exactly when the determinant is zero.  In doubles the pivot
    is exactly zero for a matrix with a zero row; a matrix that is
    singular without one may be inverted with rounding errors instead. *)
Definition inv (m : mat3) : res mat3 :=
  let '((a, b, c), (d, e, f), (g, h, i)) := m in
  let dt := det m in
  if Req_dec_T dt 0 then Raise LinAlgError
  else Ret (((e * i - f * h) / dt, (c * h - b * i) / dt, (b * f - c * e) / dt),
            ((f * g - d * i) / dt, (a * i - c * g) / dt, (c * d - a * f) / dt),
            ((d * h - e * g) / dt, (b * g - a * h) / dt, (a * e - b * d) / dt)).

(** [struc.pbc.count(True)] *)
Definition count_true (p : bool * bool * bool) : nat :=
  let '(a, b, c) := p in
  ((if a then 1 else 0) + (if b then 1 else 0) + (if c then 1 else 0))%nat.

(** The slice [v[0:n]]. *)
Definition slice (n : nat) (v : vec3) : list R :=
  let '(x, y, z) := v in firstn n [x; y; z].

(** [v[0:n] -= 0.5 * u[0:n]] *)
Definition shift_slice (n : nat) (v u : vec3) : vec3 :=
  let '(x, y, z) := v in
  let '(a, b, c) := u in
  (if (0 <? n)%nat then x - 0.5 * a else x,
   if (1 <? n)%nat then y - 0.5 * b else y,
   if (2 <? n)%nat then z - 0.5 * c else z).

(** [for j in range(ndimen): v[0:ndimen] -= 0.5 * scel_mx[j, 0:ndimen]] *)
Definition shift_site (ndimen : nat) (scel_mx : mat3) (v : vec3) : vec3 :=
  fold_left (fun v j => shift_slice ndimen v (row j scel_mx)) (seq 0 ndimen) v.

(** The loop over [range(natom)]: the first [natom] rows are shifted, and a
    row that does not exist is an [IndexError]. *)
Fixpoint shift_origin (natom ndimen : nat) (scel_mx : mat3) (l : list vec3)
  : res (list vec3) :=
  match natom with
  | O => Ret l
  | S n =>
      match l with
      | [] => if (0 <? ndimen)%nat then Raise IndexError else Ret []
      | v :: l' =>
          match shift_origin n ndimen scel_mx l' with
          | Ret l'' => Ret (shift_site ndimen scel_mx v :: l'')
          | other => other
          end
      end
  end.

(** Round half to even, [np.rint]. *)
Definition rint (y : R) : Z :=
  let f := Int_part y in
  let d := y - IZR f in
  if Rlt_dec d (1 / 2) then f
  else if Rlt_dec (1 / 2) d then (f + 1)%Z
  else if Z.even f then f else (f + 1)%Z.

(** [x.round(12)] *)
Definition round12 (x : R) : R := IZR (rint (x * 10 ^ 12)) / 10 ^ 12.

Definition round12_vec (v : vec3) : vec3 :=
  let '(x, y, z) := v in (round12 x, round12 y, round12 z).

(** [np.any(coord[0:ndimen] > 0.5) or np.any(coord[0:ndimen] <= -0.5)] *)
Definition outside (ndimen : nat) (coord : vec3) : bool :=
  existsb (fun c => if Rlt_dec 0.5 c then true else false) (slice ndimen coord)
  || existsb (fun c => if Rle_dec c (-0.5) then true else false)
       (slice ndimen coord).

(** The selection loop: a site that is [outside] is skipped. *)
Fixpoint select (ndimen : nat) (l : list (Z * vec3)) : list (Z * vec3) :=
  match l with
  | [] => []
  | (sp, coord) :: l' =>
      if outside ndimen coord then select ndimen l'
      else (sp, coord) :: select ndimen l'
  end.

Section WithPymatgen.

(** [Structure.make_supercell] belongs to pymatgen; it is a parameter. *)
Variable make_supercell : Structure -> mat3 -> Structure.

(** [struc.cart_coords] *)
Definition cart_coords (s : Structure) : list vec3 :=
  map (fun site => vecmat (snd site) (lattice s)) (sites s).

(** The rounded fractional coordinates, in the primitive cell, of every
    site of the supercell with its atomic number: what the selection loop
    of [get_pcel] enumerates, together with the primitive lattice. *)
Definition pcel_candidates (struc : Structure) (smx : mat3)
  : res (mat3 * list (Z * vec3)) :=
  let ndimen := count_true (pbc struc) in
  let natom := List.length (sites struc) in
  let struc := make_supercell struc identity in
  match inv smx with
  | Ret shrink_mx =>
      let scel_mx := lattice struc in
      let all_species := map fst (sites struc) in
      match shift_origin natom ndimen scel_mx (cart_coords struc) with
      | Ret all_coords =>
          let pcel_mx := matmul shrink_mx scel_mx in
          match inv pcel_mx with
          | Ret pinv =>
              let all_coords := map (fun v => vecmat v pinv) all_coords in
              Ret (pcel_mx, combine all_species (map round12_vec all_coords))
          | RetNone => RetNone
          | Raise e => Raise e
          end
      | RetNone => RetNone
      | Raise e => Raise e
      end
  | RetNone => RetNone
  | Raise e => Raise e
  end.

(** [get_pcel(struc, smx)] *)
Definition get_pcel (struc : Structure) (smx : mat3) : res Structure :=
  match pcel_candidates struc smx with
  | Ret (pcel_mx, all_sites) =>
      Ret (mk pcel_mx (pbc struc) (select (count_true (pbc struc)) all_sites))
  | RetNone => RetNone
  | Raise e => Raise e
  end.

End WithPymatgen.

(** Every one of the first [ndimen] coordinates lies in (-0.5, 0.5]. *)
Definition in_cell (ndimen : nat) (coord : vec3) : bool :=
  forallb (fun c => (if Rlt_dec (-0.5) c then true else false)
                    && (if Rle_dec c 0.5 then true else false))
          (slice ndimen coord).

(** The coordinates along the axes whose periodicity flag is set. *)
Definition periodic_coords (p : bool * bool * bool) (v : vec3) : list R :=
  let '(a, b, c) := p in
  let '(x, y, z) := v in
  (if a then [x] else []) ++ (if b then [y] else []) ++ (if c then [z] else []).

(** The periodic axes are the first ones, as CRYSTAL lays them out: x for a
    polymer, x and y for a slab. *)
Definition leading (p : bool * bool * bool) : bool :=
  let '(a, b, c) := p in (a || negb b) && (b || negb c).

(** A cell periodic along x and z only, with a unit cubic lattice and one
    site inside the unit cell, for which the supercell of the identity
    matrix is the cell itself. *)
Definition xz_cell : Structure :=
  mk identity (true, false, true) [(1%Z, (0.5, 0, 0.25))].

Definition same_cell (s : Structure) (_ : mat3) : Structure := s.

(** *** The other functions of [geometry.py] *)

(** [rotate_lattice(struc, rot)]: the lattice matrix is multiplied by [rot]
    on the right; periodicity, atomic numbers and fractional coordinates
    are those of [struc]. *)
Definition rotate_lattice (struc : Structure) (rot : mat3) : Structure :=
  mk (matmul (lattice struc) rot) (pbc struc) (sites struc).

Section Supercell.

Variable make_supercell : Structure -> mat3 -> Structure.

(** [get_scel(struc, smx)].  The number of sites and the periodicity are
    read before [make_supercell]; the structure returned is built from
    cartesian coordinates, which the constructor turns into fractional
    ones with the inverse of the lattice matrix. *)
Definition get_scel (struc : Structure) (smx : mat3) : res Structure :=
  let ndimen := count_true (pbc struc) in
  let pbc0 := pbc struc in
  let natom := List.length (sites struc) in
  let struc := make_supercell struc smx in
  let scel_mx := lattice struc in
  let all_species := map fst (sites struc) in
  match shift_origin natom ndimen scel_mx (cart_coords struc) with
  | Ret all_coords =>
      match inv scel_mx with
      | Ret inv_mx =>
          Ret (mk scel_mx pbc0
                 (combine all_species (map (fun c => vecmat c inv_mx) all_coords)))
      | RetNone => RetNone
      | Raise e => Raise e
      end
  | RetNone => RetNone
  | Raise e => Raise e
  end.

End Supercell.

(** A symmetry operation: the rotation matrix and the translation vector;
    stacked, the four rows of [np.vstack]. *)
Definition symmop : Type := (mat3 * vec3)%type.

(** [np.all(v == 0.)] *)
Definition all_zero (v : vec3) : bool :=
  let '(x, y, z) := v in
  (if Req_dec_T x 0 then true else false)
  && (if Req_dec_T y 0 then true else false)
  && (if Req_dec_T z 0 then true else false).

(** The loop of [get_sg_symmops]: the counter and the list grow together
    on the operations without translation. *)
Fixpoint collect_symmops (all_symmops : list symmop) (n_symmops : nat)
    (symmops : list symmop) : nat * list symmop :=
  match all_symmops with
  | [] => (n_symmops, symmops)
  | symmop :: rest =>
      if all_zero (snd symmop)
      then collect_symmops rest (S n_symmops) (symmops ++ [symmop])
      else collect_symmops rest n_symmops symmops
  end.

Section Analyzer.

(** The methods of pymatgen's [SpacegroupAnalyzer], with the keyword
    arguments of the caller already passed. *)
Variable get_refined_structure : Structure -> Structure.
Variable get_primitive_standard_structure : Structure -> Structure.
Variable get_conventional_standard_structure : Structure -> Structure.
Variable get_symmetrized_structure : Structure -> Structure.
Variable get_space_group_number : Structure -> Z.
Variable get_symmetry_operations : Structure -> list symmop.

(** [refine_geometry(struc)]: the message of the exception it raises, or
    the space group number and the structure. *)
Definition refine_geometry (struc : Structure) : string + Z * Structure :=
  let ndimen := count_true (pbc struc) in
  if (ndimen <? 3)%nat then inl "This method is for 3D systems only."%string
  else
    let struc2 := get_refined_structure struc in
    let struc_pri := get_primitive_standard_structure struc2 in
    let pstruc := get_symmetrized_structure struc_pri in
    let sg := get_space_group_number struc2 in
    if ((143 <=? sg) && (sg <? 168))%Z then
      let pstruc := get_conventional_standard_structure struc_pri in
      inr (sg, get_symmetrized_structure pstruc)
    else inr (sg, pstruc).

(** [get_sg_symmops(struc)] *)
Definition get_sg_symmops (struc : Structure) : Z * nat * list symmop :=
  let ref_struc := get_refined_structure struc in
  let sg := get_space_group_number ref_struc in
  let all_symmops := get_symmetry_operations ref_struc in
  let (n_symmops, symmops) := collect_symmops all_symmops 0 [] in
  (sg, n_symmops, symmops).

End Analyzer.

End Geometry.

(** ** Closed forms

    The value each method of [Mode] computes on a mode of one sample of
    angular frequency [w], and the sums of [phonon_sumup] over the modes
    of one q-point. *)

Definition zp_of (w : float) : float := Fin 0.5 *f Mode.hbar_freq_of w.

Definition expon_of (T : R) (w : float) : float :=
  fexp (Mode.hbar_freq_of w /f Fin (Mode.kb_t_of T)).

Definition U_of (T : R) (w : float) : float :=
  if Req_dec_T T 0 then zp_of w
  else zp_of w +f Mode.hbar_freq_of w /f (expon_of T w -f Fin 1).

Definition S_of (T : R) (w : float) : float :=
  if Req_dec_T T 0 then Fin 0
  else
    Fin (Mode.kb_t_of T)
      *f (Mode.hbar_freq_of w /f Fin (Mode.kb_t_of T) /f (expon_of T w -f Fin 1)
          -f flog (Fin 1 -f Fin 1 /f expon_of T w))
      /f Fin T *f Fin 1000.

Definition Cv_of (T : R) (w : float) : float :=
  if Req_dec_T T 0 then Fin 0
  else
    fsqr (Mode.hbar_freq_of w) /f Fin (Mode.kb_t_of T) /f Fin T *f expon_of T w
      /f fsqr (expon_of T w -f Fin 1) *f Fin 1000.

(** A mode of one sample of angular frequency [w] whose cached zero-point
    energy, when present, is the one [get_zp_energy] stores. *)
Definition one_sample (m : Mode.t) (w : float) : Prop :=
  Mode.frequency m = [w]
  /\ (Mode.zp_energy m = None \/ Mode.zp_energy m = Some (zp_of w)).

(** [acc += f(mode)] over the modes that pass the frequency test. *)
Definition accumulate (f : float -> float) (acc : float) (w : float) : float :=
  if Harmonic.keeps w then acc +f f w else acc.

Definition qsum (f : float -> float) (ws : list float) : float :=
  fold_left (accumulate f) ws (Fin 0).

Definition helm_of (e T : R) (ws : list float) : float :=
  fneg (qsum (S_of T) ws) *f Fin T +f qsum (U_of T) ws +f Fin e.

Definition gibbs_of (e v T p : R) (ws : list float) : float :=
  Fin (p * v * 0.602214) +f helm_of e T ws.

(** The six tensors, one row per q-point, before any sum over q-points. *)
Definition zp_tensor (wss : list (list float)) : list float :=
  map (qsum zp_of) wss.

Definition T_tensor (f : R -> list float -> float) (Ts : list R)
    (wss : list (list float)) : list (list float) :=
  map (fun ws => map (fun T => f T ws) Ts) wss.

Definition gibbs_tensor (e v : R) (Ts Ps : list R) (wss : list (list float))
  : list (list (list float)) :=
  map (fun ws => map (fun T => map (fun p => gibbs_of e v T p ws) Ps) Ts) wss.

(** The tensors after the sum over q-points: one row. *)
Definition T_summed (f : R -> list float -> float) (Ts : list R)
    (wss : list (list float)) : list (list float) :=
  [map (fun T => fsum (map (f T) wss)) Ts].

Definition gibbs_summed (e v : R) (Ts Ps : list R) (wss : list (list float))
  : list (list (list float)) :=
  [map (fun T => map (fun p => fsum (map (gibbs_of e v T p) wss)) Ps) Ts].

(** An engine that holds everything [thermodynamics] reads: modes of one
    sample each with frequencies [wss], the electronic energy, the volume
    and the two grids. *)
Definition ready (h : Harmonic.t) (wss : list (list float)) (e v : R)
    (Ts Ps : list R) : Prop :=
  (exists qs, Harmonic.mode h = Some qs /\ Forall2 (Forall2 one_sample) qs wss)
  /\ Harmonic.edft h = Some e
  /\ Harmonic.volume h = Some v
  /\ Harmonic.temperature h = Some Ts
  /\ Harmonic.pressure h = Some Ps.

(** An engine built by hand from scalar data and the frequencies (THz) of
    its q-points. *)
Definition engine (freqs : list (list float)) (e v : R) (Ts Ps : list R)
  : Harmonic.t :=
  Harmonic.mk (Some e) (Some v) (Some Ts) (Some Ps)
    (Some (List.length freqs)) None
    (Some (map (Harmonic.qmode_from 0 v) freqs))
    None None None None None None.

(** The angular frequency the constructor stores for a frequency in THz. *)
Definition angular (f : float) : float := f *f Fin 2 *f Fin PI.

(** Entry [q][t] of a two-dimensional tensor and entry [q][t][p] of a
    three-dimensional one. *)
Definition entry2 (a : list (list float)) (q t : nat) : float :=
  nth t (nth q a []) NaN.

Definition entry3 (a : list (list (list float))) (q t p : nat) : float :=
  nth p (nth t (nth q a []) []) NaN.

(** The three accumulators of one q-point, and of the list of q-points, in
    [phonon_sumup(temperature=T)]. *)
Definition accumulate3 (T : R) (acc : float * float * float) (w : float)
  : float * float * float :=
  let '(u, s, c) := acc in
  (accumulate (U_of T) u w, accumulate (S_of T) s w, accumulate (Cv_of T) c w).

Definition snoc3 (T : R) (acc : list float * list float * list float)
    (ws : list float) : list float * list float * list float :=
  let '(U_vib, entropy, C_v) := acc in
  (U_vib ++ [qsum (U_of T) ws], entropy ++ [qsum (S_of T) ws],
   C_v ++ [qsum (Cv_of T) ws]).

(** One more row of every accumulator of the loop over temperatures. *)
Definition grow (wss : list (list float)) (e v : R) (Ps : list R)
    (acc : Harmonic.rows) (T : R) : Harmonic.rows :=
  let '(U_vib, entropy, C_v, helmholtz, gibbs) := acc in
  (U_vib ++ [map (qsum (U_of T)) wss],
   entropy ++ [map (qsum (S_of T)) wss],
   C_v ++ [map (qsum (Cv_of T)) wss],
   helmholtz ++ [map (helm_of e T) wss],
   gibbs ++ [map (fun p => map (gibbs_of e v T p) wss) Ps]).

(** What [thermodynamics] returns on an engine that is [ready]. *)
Definition expected (sumphonon : bool) (wss : list (list float)) (e v : R)
    (Ts Ps : list R) : Harmonic.tensors :=
  if sumphonon then
    (T_summed (helm_of e) Ts wss, gibbs_summed e v Ts Ps wss, zp_tensor wss,
     T_summed (fun T => qsum (U_of T)) Ts wss,
     T_summed (fun T => qsum (S_of T)) Ts wss,
     T_summed (fun T => qsum (Cv_of T)) Ts wss)
  else
    (T_tensor (helm_of e) Ts wss, gibbs_tensor e v Ts Ps wss, zp_tensor wss,
     T_tensor (fun T => qsum (U_of T)) Ts wss,
     T_tensor (fun T => qsum (S_of T)) Ts wss,
     T_tensor (fun T => qsum (Cv_of T)) Ts wss).

(** The tensors are the attributes of the engine. *)
Definition stored (h : Harmonic.t) (r : Harmonic.tensors) : Prop :=
  let '(helmholtz, gibbs, zp_energy, U_vib, entropy, C_v) := r in
  Harmonic.helmholtz h = Some helmholtz
  /\ Harmonic.gibbs h = Some gibbs
  /\ Harmonic.zp_energy h = Some zp_energy
  /\ Harmonic.U_vib h = Some U_vib
  /\ Harmonic.entropy h = Some entropy
  /\ Harmonic.C_v h = Some C_v.

(** ** Real-valued forms

    On a finite positive frequency and a positive temperature every
    operation of the formulas stays within the reals. *)

(** [hbar_freq] for the angular frequency [x]. *)
Definition hbar (x : R) : R := x * 6.022141 * 6.626070E-2 / 2 / PI.

(** The reduced variable [hbar_freq / kb_t]. *)
Definition reduced (T x : R) : R := hbar x / Mode.kb_t_of T.

Definition zp_real (x : R) : R := 0.5 * hbar x.

Definition U_real (T x : R) : R :=
  zp_real x + hbar x / (exp (reduced T x) - 1).

Definition S_real (T x : R) : R :=
  Mode.kb_t_of T
  * (hbar x / Mode.kb_t_of T / (exp (reduced T x) - 1)
     - ln (1 - 1 / exp (reduced T x)))
  / T * 1000.

Definition Cv_real (T x : R) : R :=
  hbar x * hbar x / Mode.kb_t_of T / T * exp (reduced T x)
  / ((exp (reduced T x) - 1) * (exp (reduced T x) - 1)) * 1000.

(** The entropy and the heat capacity in units of [1000 k_B N_A], as
    functions of the reduced variable, and their derivatives as the rules
    of differentiation give them. *)
Definition phi (y : R) : R := y / (exp y - 1) - ln (1 - 1 / exp y).

Definition phi' (y : R) : R :=
  (1 * (exp y - 1) - (exp y - 0) * y) / Rsqr (exp y - 1)
  - / (1 - 1 / exp y) * (0 - (0 * exp y - exp y * 1) / Rsqr (exp y)).

Definition psi (y : R) : R := y * y * exp y / ((exp y - 1) * (exp y - 1)).

Definition psi' (y : R) : R :=
  (((1 * y + y * 1) * exp y + y * y * exp y) * ((exp y - 1) * (exp y - 1))
   - ((exp y - 0) * (exp y - 1) + (exp y - 1) * (exp y - 0)) * (y * y * exp y))
  / Rsqr ((exp y - 1) * (exp y - 1)).

(** [(2 + y) - (2 - y) e^y], which is not negative from [0] on. *)
Definition kappa (y : R) : R := (2 + y) - (2 - y) * exp y.

Definition kappa' (y : R) : R :=
  (0 + 1) - ((0 - 1) * exp y + (2 - y) * exp y).

(** The cached zero-point energy of a mode, when there is one, is the value
    [get_zp_energy] returns: the only assignment of the attribute is the
    one of that method. *)
Definition cache_sound (m : Mode.t) : Prop :=
  forall z, Mode.zp_energy m = Some z -> fst (Mode.get_zp_energy m) = Ret z.

(** The Helmholtz free energy of a q-point without the electronic energy. *)
Definition vib_of (T : R) (ws : list float) : float :=
  fneg (qsum (S_of T) ws) *f Fin T +f qsum (U_of T) ws.

(** ** Further notions *)

(** Two states of a mode that agree on what the constructor stored. *)
Definition same_data (m m' : Mode.t) : Prop :=
  Mode.rank m' = Mode.rank m
  /\ Mode.frequency m' = Mode.frequency m
  /\ Mode.volume m' = Mode.volume m.

(** [y e^(y/2)] against [e^y - 1], for the classical limit of the heat
    capacity, and its derivative. *)
Definition eta (y : R) : R := (exp y - 1) - y * exp (y / 2).

Definition eta' (y : R) : R :=
  (exp y - 0)
  - (1 * exp (y / 2) + y * (exp (y / 2) * (1 * / 2 + y * 0))).

(** The value a method returned is the one it left in an attribute. *)
Definition stores (attribute : Mode.t -> option float)
    (outcome : res float * Mode.t) : Prop :=
  match outcome with
  | (Ret v, m') => attribute m' = Some v
  | _ => True
  end.

(** Two states of an engine that agree on what [thermodynamics] reads
    besides the modes: electronic energy, volume and the two grids. *)
Definition same_inputs (h h' : Harmonic.t) : Prop :=
  Harmonic.edft h' = Harmonic.edft h
  /\ Harmonic.volume h' = Harmonic.volume h
  /\ Harmonic.temperature h' = Harmonic.temperature h
  /\ Harmonic.pressure h' = Harmonic.pressure h.

(** The six tensor attributes but the zero-point energy are those of the
    other state. *)
Definition same_T_tensors (h h' : Harmonic.t) : Prop :=
  Harmonic.U_vib h' = Harmonic.U_vib h
  /\ Harmonic.entropy h' = Harmonic.entropy h
  /\ Harmonic.C_v h' = Harmonic.C_v h
  /\ Harmonic.helmholtz h' = Harmonic.helmholtz h
  /\ Harmonic.gibbs h' = Harmonic.gibbs h.

(** Every row of a two-dimensional array has [n] entries. *)
Definition rows_of (n : nat) (a : list (list float)) : Prop :=
  Forall (fun row => List.length row = n) a.

(** Fractional coordinates counted from the centre of the cell. *)
Definition centred (f : Geometry.vec3) : Geometry.vec3 :=
  let '(x, y, z) := f in (x - 0.5, y - 0.5, z - 0.5).

(** ** Doubles with their infinities

    The reading of a double above stops where a result leaves the range
    of the format.  Here the operations of [Mode] are followed there: a
    result whose magnitude reaches [2^1024 - 2^970], the least that
    rounds to an infinity, is stored as that infinity, and the
    infinities combine as IEEE 754 has it.  Below that bound a result is
    still the real number (no rounding, no underflow), and zeros carry no
    sign: a zero divisor is read as [+0]. *)

Module Ieee.

Inductive t : Type :=
| NaN
| Inf (positive : bool)
| Fin (r : R).

Definition overflow : R := 2 ^ 1024 - 2 ^ 970.

(** A real result as the format keeps it. *)
Definition store (r : R) : t :=
  if Rle_dec overflow r then Inf true
  else if Rle_dec r (- overflow) then Inf false
  else Fin r.

Definition is_positive (x : R) : bool :=
  if Rlt_dec 0 x then true else false.

Definition neg (a : t) : t :=
  match a with
  | NaN => NaN
  | Inf s => Inf (negb s)
  | Fin x => Fin (- x)
  end.

Definition add (a b : t) : t :=
  match a, b with
  | Fin x, Fin y => store (x + y)
  | Inf s, Inf s' => if Bool.eqb s s' then Inf s else NaN
  | Inf s, Fin _ => Inf s
  | Fin _, Inf s => Inf s
  | _, _ => NaN
  end.

Definition sub (a b : t) : t := add a (neg b).

Definition mul (a b : t) : t :=
  match a, b with
  | Fin x, Fin y => store (x * y)
  | Inf s, Inf s' => Inf (Bool.eqb s s')
  | Inf s, Fin y =>
      if Req_dec_T y 0 then NaN else Inf (Bool.eqb s (is_positive y))
  | Fin x, Inf s =>
      if Req_dec_T x 0 then NaN else Inf (Bool.eqb s (is_positive x))
  | _, _ => NaN
  end.

Definition div (a b : t) : t :=
  match a, b with
  | Fin x, Fin y =>
      if Req_dec_T y 0 then
        if Req_dec_T x 0 then NaN else Inf (is_positive x)
      else store (x / y)
  | Fin _, Inf _ => Fin 0
  | Inf s, Fin y =>
      if Req_dec_T y 0 then Inf s else Inf (Bool.eqb s (is_positive y))
  | _, _ => NaN
  end.

Definition sqr (a : t) : t := mul a a.

Definition exp (a : t) : t :=
  match a with
  | NaN => NaN
  | Inf true => Inf true
  | Inf false => Fin 0
  | Fin x => store (Rtrigo_def.exp x)
  end.

Definition log (a : t) : t :=
  match a with
  | NaN => NaN
  | Inf true => Inf true
  | Inf false => NaN
  | Fin x =>
      if Rlt_dec 0 x then Fin (ln x)
      else if Req_dec_T x 0 then Inf false
      else NaN
  end.

(** The class [Mode] over these numbers. *)
Module Mode.

Record t : Type := mk {
  rank : Z;
  frequency : list Ieee.t;
  volume : list R;
  zp_energy : option Ieee.t;
  U_vib : option Ieee.t;
  entropy : option Ieee.t;
  C_v : option Ieee.t
}.

Definition ncalc (m : t) : nat := List.length (frequency m).

Definition init (rank : Z) (frequency : list Ieee.t) (volume : list R) : t :=
  mk rank (map (fun f => mul (mul f (Fin 2)) (Fin PI)) frequency) volume
     None None None None.

Definition set_zp_energy (v : Ieee.t) (m : t) : t :=
  mk (rank m) (frequency m) (volume m) (Some v) (U_vib m) (entropy m) (C_v m).
Definition set_U_vib (v : Ieee.t) (m : t) : t :=
  mk (rank m) (frequency m) (volume m) (zp_energy m) (Some v) (entropy m) (C_v m).
Definition set_entropy (v : Ieee.t) (m : t) : t :=
  mk (rank m) (frequency m) (volume m) (zp_energy m) (U_vib m) (Some v) (C_v m).
Definition set_C_v (v : Ieee.t) (m : t) : t :=
  mk (rank m) (frequency m) (volume m) (zp_energy m) (U_vib m) (entropy m) (Some v).

(** [self.frequency[0] * 6.022141 * 6.626070E-2 / 2 / np.pi] *)
Definition hbar_freq_of (w : Ieee.t) : Ieee.t :=
  div (div (mul (mul w (Fin 6.022141)) (Fin 6.626070E-2)) (Fin 2)) (Fin PI).

(** [1.380649E-3 * 6.022141 * temperature] *)
Definition kb_t_of (temperature : R) : Ieee.t :=
  mul (mul (Fin 1.380649E-3) (Fin 6.022141)) (Fin temperature).

Definition frequency0 : Py t Ieee.t :=
  fun m =>
    match frequency m with
    | w :: _ => (Ret w, m)
    | [] => (Raise IndexError, m)
    end.

Definition get_zp_energy : Py t Ieee.t :=
  fun self =>
    if (1 <? ncalc self)%nat then (RetNone, self)
    else
      (w <- frequency0 ;;
       let hbar_freq := hbar_freq_of w in
       let zp := mul (Fin 0.5) hbar_freq in
       _ <- modify (set_zp_energy zp) ;;
       ret zp)%py self.

Definition cached_zp_energy : Py t Ieee.t :=
  fun self =>
    match zp_energy self with
    | Some zp => (Ret zp, self)
    | None =>
        match get_zp_energy self with
        | (Ret zp, m) => (Ret zp, m)
        | (RetNone, m) => (Raise AttributeError, m)
        | (Raise e, m) => (Raise e, m)
        end
    end.

Definition get_U_vib (temperature : R) : Py t Ieee.t :=
  fun self =>
    if (1 <? ncalc self)%nat then (RetNone, self)
    else
      (zp <- cached_zp_energy ;;
       if Req_dec_T temperature 0 then
         _ <- modify (set_U_vib zp) ;;
         ret zp
       else
         w <- frequency0 ;;
         let hbar_freq := hbar_freq_of w in
         let kb_t := kb_t_of temperature in
         let expon := exp (div hbar_freq kb_t) in
         let u := add zp (div hbar_freq (sub expon (Fin 1))) in
         _ <- modify (set_U_vib u) ;;
         ret u)%py self.

Definition get_entropy (temperature : R) : Py t Ieee.t :=
  fun self =>
    if (1 <? ncalc self)%nat then (RetNone, self)
    else if Req_dec_T temperature 0 then
      (Ret (Fin 0), set_entropy (Fin 0) self)
    else
      (w <- frequency0 ;;
       let hbar_freq := hbar_freq_of w in
       let kb_t := kb_t_of temperature in
       let expon := exp (div hbar_freq kb_t) in
       let entS :=
         mul kb_t (sub (div (div hbar_freq kb_t) (sub expon (Fin 1)))
                       (log (sub (Fin 1) (div (Fin 1) expon)))) in
       let s := mul (div entS (Fin temperature)) (Fin 1000) in
       _ <- modify (set_entropy s) ;;
       ret s)%py self.

Definition get_C_v (temperature : R) : Py t Ieee.t :=
  fun self =>
    if (1 <? ncalc self)%nat then (RetNone, self)
    else if Req_dec_T temperature 0 then
      (Ret (Fin 0), set_C_v (Fin 0) self)
    else
      (w <- frequency0 ;;
       let hbar_freq := hbar_freq_of w in
       let kb_t := kb_t_of temperature in
       let expon := exp (div hbar_freq kb_t) in
       let c :=
         mul (div (mul (div (div (sqr hbar_freq) kb_t) (Fin temperature)) expon)
                  (sqr (sub expon (Fin 1))))
             (Fin 1000) in
       _ <- modify (set_C_v c) ;;
       ret c)%py self.

End Mode.

End Ieee.

(** * Properties *)

(** ** Methods of a mode of one sample *)

Lemma one_sample_ncalc m w : one_sample m w -> (1 <? Mode.ncalc m)%nat = false.
Proof. intros [Hf _]. unfold Mode.ncalc. now rewrite Hf. Qed.

Lemma one_sample_set_zp m w :
  one_sample m w -> one_sample (Mode.set_zp_energy (zp_of w) m) w.
Proof. intros [Hf _]. split; [exact Hf | now right]. Qed.

Lemma get_zp_energy_run m w :
  one_sample m w ->
  Mode.get_zp_energy m = (Ret (zp_of w), Mode.set_zp_energy (zp_of w) m).
Proof.
  intros H. unfold Mode.get_zp_energy.
  rewrite (one_sample_ncalc m w H). destruct H as [Hf _].
  unfold bind, Mode.frequency0, modify, ret. now rewrite Hf.
Qed.

Lemma cached_zp_energy_run m w :
  one_sample m w ->
  exists m', Mode.cached_zp_energy m = (Ret (zp_of w), m') /\ one_sample m' w.
Proof.
  intros H. unfold Mode.cached_zp_energy.
  destruct (Mode.zp_energy m) as [z|] eqn:Hz.
  - destruct H as [Hf [Hc|Hc]]; rewrite Hz in Hc; [discriminate|].
    injection Hc as ->. exists m. split; [reflexivity|].
    split; [exact Hf | right; exact Hz].
  - rewrite (get_zp_energy_run m w H). eexists. split; [reflexivity|].
    now apply one_sample_set_zp.
Qed.

Lemma get_U_vib_run T m w :
  one_sample m w ->
  exists m', Mode.get_U_vib T m = (Ret (U_of T w), m') /\ one_sample m' w.
Proof.
  intros H. unfold Mode.get_U_vib. rewrite (one_sample_ncalc m w H).
  destruct (cached_zp_energy_run m w H) as (m1 & Hrun & [Hf1 Hc1]).
  unfold bind at 1. rewrite Hrun. unfold U_of, expon_of.
  destruct (Req_dec_T T 0) as [HT|HT].
  - eexists. split; [reflexivity|]. split; assumption.
  - unfold bind, Mode.frequency0, modify, ret. rewrite Hf1.
    eexists. split; [reflexivity|]. split; assumption.
Qed.

Lemma get_entropy_run T m w :
  one_sample m w ->
  exists m', Mode.get_entropy T m = (Ret (S_of T w), m') /\ one_sample m' w.
Proof.
  intros H. unfold Mode.get_entropy. rewrite (one_sample_ncalc m w H).
  destruct H as [Hf Hc]. unfold S_of, expon_of.
  destruct (Req_dec_T T 0) as [HT|HT].
  - eexists. split; [reflexivity|]. split; assumption.
  - unfold bind, Mode.frequency0, modify, ret. rewrite Hf.
    eexists. split; [reflexivity|]. split; assumption.
Qed.

Lemma get_C_v_run T m w :
  one_sample m w ->
  exists m', Mode.get_C_v T m = (Ret (Cv_of T w), m') /\ one_sample m' w.
Proof.
  intros H. unfold Mode.get_C_v. rewrite (one_sample_ncalc m w H).
  destruct H as [Hf Hc]. unfold Cv_of, expon_of.
  destruct (Req_dec_T T 0) as [HT|HT].
  - eexists. split; [reflexivity|]. split; assumption.
  - unfold bind, Mode.frequency0, modify, ret. rewrite Hf.
    eexists. split; [reflexivity|]. split; assumption.
Qed.

(** ** Loops *)

Lemma for_each_run {S A X} (body : A -> Py S A) (P : S -> X -> Prop)
    (g : A -> X -> A) :
  (forall acc s x, P s x -> exists s', body acc s = (Ret (g acc x), s') /\ P s' x) ->
  forall l xs acc,
    Forall2 P l xs ->
    exists l', for_each body acc l = (Ret (fold_left g xs acc), l')
               /\ Forall2 P l' xs.
Proof.
  intros Hbody l xs acc H. revert acc.
  induction H as [|s x l xs Hsx Hl IH]; intros acc; simpl.
  - exists []. split; [reflexivity | constructor].
  - destruct (Hbody acc s x Hsx) as (s' & -> & Hs').
    destruct (IH (g acc x)) as (l' & -> & Hl').
    exists (s' :: l'). split; [reflexivity | now constructor].
Qed.

Lemma for_in_run {S A X} (body : A -> X -> Py S A) (I : S -> Prop)
    (g : A -> X -> A) :
  (forall acc x s, I s -> exists s', body acc x s = (Ret (g acc x), s') /\ I s') ->
  forall l acc s,
    I s ->
    exists s', for_in body acc l s = (Ret (fold_left g l acc), s') /\ I s'.
Proof.
  intros Hbody l. induction l as [|x l IH]; intros acc s Hs; simpl.
  - exists s. split; [reflexivity | exact Hs].
  - destruct (Hbody acc x s Hs) as (s1 & Hrun & Hs1).
    unfold bind. rewrite Hrun. now apply IH.
Qed.

Lemma fold_left_snoc {X Y} (f : X -> Y) (l : list X) (acc : list Y) :
  fold_left (fun a x => a ++ [f x]) l acc = acc ++ map f l.
Proof.
  revert acc. induction l as [|x l IH]; intros acc; simpl.
  - now rewrite app_nil_r.
  - rewrite IH, <- app_assoc. reflexivity.
Qed.

(** ** [phonon_sumup] *)

Lemma is_kept_run m w :
  one_sample m w -> Harmonic.is_kept m = (Ret (Harmonic.keeps w), m).
Proof. intros [Hf _]. unfold Harmonic.is_kept. now rewrite Hf. Qed.

Lemma zp_step_run acc m w :
  one_sample m w ->
  exists m', Harmonic.zp_step acc m = (Ret (accumulate zp_of acc w), m')
             /\ one_sample m' w.
Proof.
  intros H. unfold Harmonic.zp_step, bind at 1, accumulate.
  rewrite (is_kept_run m w H). destruct (Harmonic.keeps w).
  - unfold bind. rewrite (get_zp_energy_run m w H). eexists.
    split; [reflexivity | now apply one_sample_set_zp].
  - exists m. split; [reflexivity | exact H].
Qed.

Lemma T_step_run T acc m w :
  one_sample m w ->
  exists m', Harmonic.T_step T acc m = (Ret (accumulate3 T acc w), m')
             /\ one_sample m' w.
Proof.
  intros H. destruct acc as [[u s] c].
  unfold Harmonic.T_step, bind at 1, accumulate3, accumulate.
  rewrite (is_kept_run m w H). destruct (Harmonic.keeps w).
  - destruct (get_U_vib_run T m w H) as (m1 & R1 & H1).
    destruct (get_entropy_run T m1 w H1) as (m2 & R2 & H2).
    destruct (get_C_v_run T m2 w H2) as (m3 & R3 & H3).
    unfold bind, ret. rewrite R1, R2, R3. exists m3. split; [reflexivity | exact H3].
  - exists m. split; [reflexivity | exact H].
Qed.

Lemma fold_accumulate3 T ws u s c :
  fold_left (accumulate3 T) ws (u, s, c)
  = (fold_left (accumulate (U_of T)) ws u,
     fold_left (accumulate (S_of T)) ws s,
     fold_left (accumulate (Cv_of T)) ws c).
Proof.
  revert u s c. induction ws as [|w ws IH]; intros u s c; simpl.
  - reflexivity.
  - apply IH.
Qed.

Lemma zp_qpoint_run acc q ws :
  Forall2 one_sample q ws ->
  exists q', Harmonic.zp_qpoint acc q = (Ret (acc ++ [qsum zp_of ws]), q')
             /\ Forall2 one_sample q' ws.
Proof.
  intros H. unfold Harmonic.zp_qpoint, bind, ret.
  destruct (for_each_run Harmonic.zp_step one_sample (accumulate zp_of)
              (fun a s x => zp_step_run a s x) q ws (Fin 0) H) as (q' & -> & Hq').
  exists q'. split; [reflexivity | exact Hq'].
Qed.

Lemma T_qpoint_run T acc q ws :
  Forall2 one_sample q ws ->
  exists q', Harmonic.T_qpoint T acc q = (Ret (snoc3 T acc ws), q')
             /\ Forall2 one_sample q' ws.
Proof.
  intros H. destruct acc as [[U0 S0] C0]. unfold Harmonic.T_qpoint, bind, ret.
  destruct (for_each_run (Harmonic.T_step T) one_sample (accumulate3 T)
              (fun a s x => T_step_run T a s x) q ws (Fin 0, Fin 0, Fin 0) H)
    as (q' & -> & Hq').
  rewrite fold_accumulate3. exists q'. split; [reflexivity | exact Hq'].
Qed.

Lemma fold_snoc3 T wss U0 S0 C0 :
  fold_left (snoc3 T) wss (U0, S0, C0)
  = (U0 ++ map (qsum (U_of T)) wss, S0 ++ map (qsum (S_of T)) wss,
     C0 ++ map (qsum (Cv_of T)) wss).
Proof.
  revert U0 S0 C0. induction wss as [|ws wss IH]; intros U0 S0 C0; simpl.
  - now rewrite !app_nil_r.
  - rewrite IH, <- !app_assoc. reflexivity.
Qed.

Lemma ready_set_mode h wss e v Ts Ps qs :
  ready h wss e v Ts Ps ->
  Forall2 (Forall2 one_sample) qs wss ->
  ready (Harmonic.set_mode qs h) wss e v Ts Ps.
Proof.
  intros (_ & He & Hv & HT & HP) Hqs.
  split; [exists qs; split; [reflexivity | exact Hqs] |].
  repeat split; assumption.
Qed.

Lemma phonon_sumup_zp_run h wss e v Ts Ps :
  ready h wss e v Ts Ps ->
  exists qs', Harmonic.phonon_sumup_zp h
              = (Ret (zp_tensor wss), Harmonic.set_mode qs' h)
              /\ Forall2 (Forall2 one_sample) qs' wss.
Proof.
  intros ((qs & Hm & Hqs) & _).
  unfold Harmonic.phonon_sumup_zp, Harmonic.over_modes. rewrite Hm.
  destruct (for_each_run Harmonic.zp_qpoint (Forall2 one_sample)
              (fun a ws => a ++ [qsum zp_of ws])
              (fun a s x => zp_qpoint_run a s x) qs wss [] Hqs) as (qs' & -> & Hqs').
  rewrite (fold_left_snoc (qsum zp_of)). simpl.
  exists qs'. split; [reflexivity | exact Hqs'].
Qed.

Lemma phonon_sumup_run T h wss e v Ts Ps :
  ready h wss e v Ts Ps ->
  exists qs',
    Harmonic.phonon_sumup T h
    = (Ret (map (qsum (U_of T)) wss, map (qsum (S_of T)) wss,
            map (qsum (Cv_of T)) wss), Harmonic.set_mode qs' h)
    /\ Forall2 (Forall2 one_sample) qs' wss.
Proof.
  intros ((qs & Hm & Hqs) & _).
  unfold Harmonic.phonon_sumup, Harmonic.over_modes. rewrite Hm.
  destruct (for_each_run (Harmonic.T_qpoint T) (Forall2 one_sample) (snoc3 T)
              (fun a s x => T_qpoint_run T a s x) qs wss ([], [], []) Hqs)
    as (qs' & -> & Hqs').
  rewrite fold_snoc3. simpl.
  exists qs'. split; [reflexivity | exact Hqs'].
Qed.

(** ** Arrays *)

Lemma nth_map_lt {X Y} (f : X -> Y) (l : list X) (n : nat) (d : Y) (d' : X) :
  (n < List.length l)%nat -> nth n (map f l) d = f (nth n l d').
Proof.
  intros H. rewrite (nth_indep (map f l) d (f d')).
  - apply map_nth.
  - now rewrite length_map.
Qed.

Lemma map_nth_seq {X Y} (g : X -> Y) (l : list X) (d : X) :
  map (fun n => g (nth n l d)) (seq 0 (List.length l)) = map g l.
Proof.
  induction l as [|x l IH]; simpl.
  - reflexivity.
  - f_equal. rewrite <- seq_shift, map_map. exact IH.
Qed.

Lemma map_seq_ext {Y} (f g : nat -> Y) (n : nat) :
  (forall i, (i < n)%nat -> f i = g i) -> map f (seq 0 n) = map g (seq 0 n).
Proof.
  intros H. apply map_ext_in. intros i Hi. apply in_seq in Hi. apply H. lia.
Qed.

Lemma map2_map {X Y Z W} (f : Y -> Z -> W) (g : X -> Y) (k : X -> Z) l :
  map2 f (map g l) (map k l) = map (fun x => f (g x) (k x)) l.
Proof. induction l as [|x l IH]; simpl; [reflexivity | now rewrite IH]. Qed.

Lemma transpose_rows (f : R -> list float -> float) Ts wss :
  transpose (List.length wss) (map (fun T => map (f T) wss) Ts)
  = T_tensor f Ts wss.
Proof.
  unfold transpose, T_tensor.
  rewrite <- (map_nth_seq (fun ws => map (fun T => f T ws) Ts) wss []).
  apply map_seq_ext. intros q Hq. rewrite map_map.
  apply map_ext. intros T. now apply nth_map_lt.
Qed.

Lemma transpose201_rows e v Ts Ps wss :
  transpose201 (List.length wss)
    (map (fun T => map (fun p => map (gibbs_of e v T p) wss) Ps) Ts)
  = gibbs_tensor e v Ts Ps wss.
Proof.
  unfold transpose201, gibbs_tensor.
  rewrite <- (map_nth_seq
                (fun ws => map (fun T => map (fun p => gibbs_of e v T p ws) Ps) Ts)
                wss []).
  apply map_seq_ext. intros q Hq. rewrite map_map.
  apply map_ext. intros T. rewrite map_map.
  apply map_ext. intros p. now apply nth_map_lt.
Qed.

Lemma sum_axis0_tensor (f : R -> list float -> float) Ts wss :
  sum_axis0 (List.length Ts) (T_tensor f Ts wss)
  = map (fun T => fsum (map (f T) wss)) Ts.
Proof.
  unfold sum_axis0, T_tensor.
  rewrite <- (map_nth_seq (fun T => fsum (map (f T) wss)) Ts 0).
  apply map_seq_ext. intros t Ht. f_equal. rewrite map_map.
  apply map_ext. intros ws.
  now rewrite (nth_map_lt (fun T => f T ws) Ts t NaN 0).
Qed.

Lemma sum_axis0_3_tensor e v Ts Ps wss :
  sum_axis0_3 (List.length Ts) (List.length Ps) (gibbs_tensor e v Ts Ps wss)
  = map (fun T => map (fun p => fsum (map (gibbs_of e v T p) wss)) Ps) Ts.
Proof.
  unfold sum_axis0_3, gibbs_tensor.
  rewrite <- (map_nth_seq
                (fun T => map (fun p => fsum (map (gibbs_of e v T p) wss)) Ps)
                Ts 0).
  apply map_seq_ext. intros t Ht. rewrite map_map.
  etransitivity;
    [| exact (sum_axis0_tensor (fun p ws => gibbs_of e v (nth t Ts 0) p ws)
                Ps wss)].
  unfold T_tensor. f_equal. apply map_ext. intros ws.
  now rewrite (nth_map_lt (fun T => map (fun p => gibbs_of e v T p ws) Ps)
                 Ts t [] 0).
Qed.

(** ** [thermodynamics] *)

Lemma helm_row_qsum e T wss :
  Harmonic.helm_row T e (map (qsum (S_of T)) wss) (map (qsum (U_of T)) wss)
  = map (helm_of e T) wss.
Proof. unfold Harmonic.helm_row. now rewrite map2_map. Qed.

Lemma gibbs_row_helm e v T p wss :
  Harmonic.gibbs_row p v (map (helm_of e T) wss) = map (gibbs_of e v T p) wss.
Proof. unfold Harmonic.gibbs_row. now rewrite map_map. Qed.

Lemma p_loop_run helm_t h v :
  Harmonic.volume h = Some v ->
  forall ps acc,
    for_in (Harmonic.p_step helm_t) acc ps h
    = (Ret (acc ++ map (fun p => Harmonic.gibbs_row p v helm_t) ps), h).
Proof.
  intros Hv ps. induction ps as [|p ps IH]; intros acc; simpl.
  - now rewrite app_nil_r.
  - unfold bind, Harmonic.p_step at 1, bind, attr, ret. rewrite Hv.
    rewrite IH, <- app_assoc. reflexivity.
Qed.

Lemma temperature_step_run wss e v Ts Ps acc T h :
  ready h wss e v Ts Ps ->
  exists qs',
    Harmonic.temperature_step acc T h
    = (Ret (grow wss e v Ps acc T), Harmonic.set_mode qs' h)
    /\ Forall2 (Forall2 one_sample) qs' wss.
Proof.
  intros H. destruct acc as [[[[U0 S0] C0] H0] G0].
  destruct (phonon_sumup_run T h wss e v Ts Ps H) as (qs' & Hrun & Hqs').
  pose proof (ready_set_mode _ _ _ _ _ _ _ H Hqs') as (_ & He & Hv & HT & HP).
  unfold Harmonic.temperature_step, bind at 1. rewrite Hrun.
  unfold bind at 1, attr at 1. rewrite He.
  unfold bind at 1, attr at 1. rewrite HP.
  unfold bind at 1. rewrite (p_loop_run _ _ v Hv).
  unfold ret, grow. simpl. rewrite helm_row_qsum.
  exists qs'. split; [|exact Hqs'].
  rewrite (map_ext _ _ (fun p => gibbs_row_helm e v T p wss)). reflexivity.
Qed.

Lemma fold_grow wss e v Ps Ts U0 S0 C0 H0 G0 :
  fold_left (grow wss e v Ps) Ts (U0, S0, C0, H0, G0)
  = (U0 ++ map (fun T => map (qsum (U_of T)) wss) Ts,
     S0 ++ map (fun T => map (qsum (S_of T)) wss) Ts,
     C0 ++ map (fun T => map (qsum (Cv_of T)) wss) Ts,
     H0 ++ map (fun T => map (helm_of e T) wss) Ts,
     G0 ++ map (fun T => map (fun p => map (gibbs_of e v T p) wss) Ps) Ts).
Proof.
  revert U0 S0 C0 H0 G0.
  induction Ts as [|T Ts IH]; intros U0 S0 C0 H0 G0; simpl.
  - now rewrite !app_nil_r.
  - rewrite IH, <- !app_assoc. reflexivity.
Qed.

Lemma temperature_loop_run wss e v Ts Ps h :
  ready h wss e v Ts Ps ->
  forall l acc,
  exists qs',
    for_in Harmonic.temperature_step acc l h
    = (Ret (fold_left (grow wss e v Ps) l acc), Harmonic.set_mode qs' h)
    /\ Forall2 (Forall2 one_sample) qs' wss.
Proof.
  intros H l acc.
  destruct (for_in_run Harmonic.temperature_step
              (fun s => exists qs, s = Harmonic.set_mode qs h
                                   /\ Forall2 (Forall2 one_sample) qs wss)
              (grow wss e v Ps)) with (l := l) (acc := acc) (s := h)
    as (h' & Hrun & qs' & -> & Hqs').
  - intros a T s (qs & -> & Hqs).
    destruct (temperature_step_run wss e v Ts Ps a T _
                (ready_set_mode _ _ _ _ _ _ _ H Hqs)) as (qs' & Hrun & Hqs').
    eexists. split; [exact Hrun|]. exists qs'. split; [reflexivity | exact Hqs'].
  - destruct H as ((qs & Hm & Hqs) & _). exists qs. split; [|exact Hqs].
    destruct h; simpl in *. now rewrite Hm.
  - exists qs'. split; [exact Hrun | exact Hqs'].
Qed.

Lemma width_rows {X Y} (f : X -> list Y) (l : list X) (n : nat) :
  l <> [] -> (forall x, List.length (f x) = n) -> width (map f l) = n.
Proof. intros Hl Hf. destruct l as [|x l]; [congruence | apply Hf]. Qed.

Lemma thermodynamics_run sumphonon h wss e v Ts Ps :
  ready h wss e v Ts Ps -> Ts <> [] -> Ps <> [] ->
  exists h',
    Harmonic.thermodynamics sumphonon h
    = (Ret (expected sumphonon wss e v Ts Ps), h')
    /\ stored h' (expected sumphonon wss e v Ts Ps)
    /\ ready h' wss e v Ts Ps
    /\ (if sumphonon
        then Harmonic.nqpoint h' = Some 1%nat
             /\ Harmonic.qpoint h' = Some [(0, 0, 0)]
        else Harmonic.nqpoint h' = Harmonic.nqpoint h
             /\ Harmonic.qpoint h' = Harmonic.qpoint h).
Proof.
  intros H HTs HPs.
  destruct (phonon_sumup_zp_run h wss e v Ts Ps H) as (qs1 & Hzp & Hqs1).
  pose proof (ready_set_mode _ _ _ _ _ _ _ H Hqs1) as H1.
  assert (H2 : ready (Harmonic.set_zp_energy (zp_tensor wss)
                        (Harmonic.set_mode qs1 h)) wss e v Ts Ps) by exact H1.
  destruct (temperature_loop_run wss e v Ts Ps _ H2 Ts ([], [], [], [], []))
    as (qs2 & Hloop & Hqs2).
  rewrite fold_grow in Hloop. simpl app in Hloop.
  pose proof H2 as (_ & He & Hv & HT & HP).
  unfold Harmonic.thermodynamics.
  unfold bind at 1. rewrite Hzp.
  unfold bind at 1, modify at 1.
  unfold bind at 1, attr at 1. rewrite HT.
  unfold bind at 1. rewrite Hloop.
  rewrite (width_rows _ Ts (List.length wss) HTs (fun T => length_map _ wss)).
  rewrite (width_rows _ Ts (List.length Ps) HTs (fun T => length_map _ Ps)).
  assert (HnT : (List.length Ts =? 0)%nat = false).
  { destruct Ts; [congruence | reflexivity]. }
  assert (HnP : (List.length Ps =? 0)%nat = false).
  { destruct Ps; [congruence | reflexivity]. }
  rewrite HnT, HnP. cbn [orb].
  rewrite !transpose_rows, transpose201_rows.
  destruct sumphonon.
  - rewrite !sum_axis0_tensor, sum_axis0_3_tensor.
    unfold bind, modify, ret. eexists. split; [reflexivity|].
    split; [repeat split|]. split; [|split; reflexivity].
    split; [exists qs2; split; [reflexivity | exact Hqs2] |].
    destruct H as (_ & He0 & Hv0 & HT0 & HP0). repeat split; assumption.
  - unfold bind, modify, ret. eexists. split; [reflexivity|].
    split; [repeat split|]. split; [|split; reflexivity].
    split; [exists qs2; split; [reflexivity | exact Hqs2] |].
    destruct H as (_ & He0 & Hv0 & HT0 & HP0). repeat split; assumption.
Qed.

(** ** Entropy and heat capacity as functions of the reduced variable *)



Lemma exp_gt_1 y : 0 < y -> 1 < exp y.
Proof. intros H. rewrite <- exp_0. now apply exp_increasing. Qed.

Lemma phi_deriv c : 0 < c -> derivable_pt_lim phi c (phi' c).
Proof.
  intros Hc. pose proof (exp_gt_1 c Hc) as HE. pose proof (exp_pos c) as HP.
  unfold phi, phi'.
  apply (derivable_pt_lim_minus (fun y => y / (exp y - 1))
           (fun y => ln (1 - 1 / exp y))).
  - apply (derivable_pt_lim_div id (fun y => exp y - 1)).
    + apply derivable_pt_lim_id.
    + apply (derivable_pt_lim_minus exp (fct_cte 1)).
      * apply derivable_pt_lim_exp.
      * apply derivable_pt_lim_const.
    + lra.
  - apply (derivable_pt_lim_comp (fun y => 1 - 1 / exp y) ln).
    + apply (derivable_pt_lim_minus (fct_cte 1) (fun y => 1 / exp y)).
      * apply derivable_pt_lim_const.
      * apply (derivable_pt_lim_div (fct_cte 1) exp).
        -- apply derivable_pt_lim_const.
        -- apply derivable_pt_lim_exp.
        -- lra.
    + apply derivable_pt_lim_ln.
      assert (1 / exp c < 1); [|lra].
      apply Rmult_lt_reg_r with (exp c); [lra|]. field_simplify; lra.
Qed.

Lemma phi'_eq c : 0 < c -> phi' c = - (c * exp c / Rsqr (exp c - 1)).
Proof.
  intros Hc. pose proof (exp_gt_1 c Hc) as HE. unfold phi', Rsqr.
  set (E := exp c) in *. field. lra.
Qed.

Lemma phi_decreasing a b : 0 < a -> a <= b -> phi b <= phi a.
Proof.
  intros Ha [Hab | ->]; [|lra].
  destruct (MVT_cor2 phi phi' a b Hab) as (c & Hc & Hac).
  - intros c Hc. apply phi_deriv. lra.
  - assert (H0 : 0 < c) by lra. rewrite (phi'_eq c H0) in Hc.
    pose proof (exp_gt_1 c H0) as HE.
    assert (0 < c * exp c / Rsqr (exp c - 1)).
    { apply Rdiv_lt_0_compat; [nra|]. apply Rlt_0_sqr. lra. }
    nra.
Qed.

Lemma phi_pos y : 0 < y -> 0 < phi y.
Proof.
  intros Hy. pose proof (exp_gt_1 y Hy) as HE. unfold phi.
  assert (H1 : 0 < y / (exp y - 1)) by (apply Rdiv_lt_0_compat; lra).
  assert (H2 : 0 < 1 / exp y < 1).
  { split; [apply Rdiv_lt_0_compat; lra|].
    apply Rmult_lt_reg_r with (exp y); [lra|]. field_simplify; lra. }
  assert (H3 : ln (1 - 1 / exp y) < 0).
  { rewrite <- ln_1. apply ln_increasing; lra. }
  lra.
Qed.


Lemma kappa_deriv c : derivable_pt_lim kappa c (kappa' c).
Proof.
  unfold kappa, kappa'.
  apply (derivable_pt_lim_minus (fun y => 2 + y) (fun y => (2 - y) * exp y)).
  - apply (derivable_pt_lim_plus (fct_cte 2) id).
    + apply derivable_pt_lim_const.
    + apply derivable_pt_lim_id.
  - apply (derivable_pt_lim_mult (fun y => 2 - y) exp).
    + apply (derivable_pt_lim_minus (fct_cte 2) id).
      * apply derivable_pt_lim_const.
      * apply derivable_pt_lim_id.
    + apply derivable_pt_lim_exp.
Qed.

Lemma kappa'_nonneg c : 0 <= kappa' c.
Proof.
  unfold kappa'. pose proof (exp_ineq1_le (- c)) as H.
  rewrite exp_Ropp in H. pose proof (exp_pos c) as HP.
  assert ((1 - c) * exp c <= 1).
  { apply Rmult_le_compat_r with (r := exp c) in H; [|lra].
    rewrite Rinv_l in H; lra. }
  lra.
Qed.

Lemma kappa_nonneg y : 0 <= y -> 0 <= kappa y.
Proof.
  intros [Hy | <-].
  - destruct (MVT_cor2 kappa kappa' 0 y Hy) as (c & Hc & Hac).
    + intros c _. apply kappa_deriv.
    + pose proof (kappa'_nonneg c).
      assert (kappa 0 = 0) by (unfold kappa; rewrite exp_0; lra).
      nra.
  - unfold kappa. rewrite exp_0. lra.
Qed.


Lemma psi_deriv c : 0 < c -> derivable_pt_lim psi c (psi' c).
Proof.
  intros Hc. pose proof (exp_gt_1 c Hc) as HE.
  unfold psi, psi'.
  apply (derivable_pt_lim_div (fun y => y * y * exp y)
           (fun y => (exp y - 1) * (exp y - 1))).
  - apply (derivable_pt_lim_mult (fun y => y * y) exp).
    + apply (derivable_pt_lim_mult id id); apply derivable_pt_lim_id.
    + apply derivable_pt_lim_exp.
  - apply (derivable_pt_lim_mult (fun y => exp y - 1) (fun y => exp y - 1));
      apply (derivable_pt_lim_minus exp (fct_cte 1));
      (apply derivable_pt_lim_exp || apply derivable_pt_lim_const).
  - nra.
Qed.

Lemma psi'_eq c :
  0 < c ->
  psi' c = - (c * exp c * kappa c / ((exp c - 1) * (exp c - 1) * (exp c - 1))).
Proof.
  intros Hc. pose proof (exp_gt_1 c Hc) as HE. unfold psi', kappa, Rsqr.
  set (E := exp c) in *. field. lra.
Qed.

Lemma psi_decreasing a b : 0 < a -> a <= b -> psi b <= psi a.
Proof.
  intros Ha [Hab | ->]; [|lra].
  destruct (MVT_cor2 psi psi' a b Hab) as (c & Hc & Hac).
  - intros c Hc. apply psi_deriv. lra.
  - assert (H0 : 0 < c) by lra. rewrite (psi'_eq c H0) in Hc.
    pose proof (exp_gt_1 c H0) as HE.
    pose proof (kappa_nonneg c (Rlt_le _ _ H0)) as Hk.
    assert (0 <= c * exp c * kappa c / ((exp c - 1) * (exp c - 1) * (exp c - 1))).
    { apply Rmult_le_pos.
      - apply Rmult_le_pos; [nra | exact Hk].
      - apply Rlt_le, Rinv_0_lt_compat.
        repeat apply Rmult_lt_0_compat; lra. }
    nra.
Qed.

Lemma psi_pos y : 0 < y -> 0 < psi y.
Proof.
  intros Hy. pose proof (exp_gt_1 y Hy) as HE. unfold psi.
  apply Rdiv_lt_0_compat; [|nra].
  repeat apply Rmult_lt_0_compat; lra.
Qed.

(** ** From doubles to reals *)

Lemma fdiv_fin x y : y <> 0 -> Fin x /f Fin y = Fin (x / y).
Proof. intros H. unfold fdiv. now destruct (Req_dec_T y 0). Qed.

Lemma flog_fin x : 0 < x -> flog (Fin x) = Fin (ln x).
Proof. intros H. unfold flog. now destruct (Rlt_dec 0 x). Qed.

Lemma hbar_freq_fin x : Mode.hbar_freq_of (Fin x) = Fin (hbar x).
Proof.
  unfold Mode.hbar_freq_of, hbar. cbn [fmul].
  rewrite fdiv_fin by lra. rewrite fdiv_fin by apply PI_neq0. reflexivity.
Qed.

Lemma hbar_pos x : 0 < x -> 0 < hbar x.
Proof.
  intros H. unfold hbar. pose proof PI_RGT_0.
  apply Rdiv_lt_0_compat; [|lra]. lra.
Qed.

Lemma kb_t_neq T : T <> 0 -> Mode.kb_t_of T <> 0.
Proof. intros H. unfold Mode.kb_t_of. nra. Qed.

Lemma kb_t_pos T : 0 < T -> 0 < Mode.kb_t_of T.
Proof. intros H. unfold Mode.kb_t_of. nra. Qed.

Lemma reduced_pos T x : 0 < x -> 0 < T -> 0 < reduced T x.
Proof.
  intros Hx HT. apply Rdiv_lt_0_compat; [now apply hbar_pos | now apply kb_t_pos].
Qed.

Lemma expon_fin T x : T <> 0 -> expon_of T (Fin x) = Fin (exp (reduced T x)).
Proof.
  intros H. unfold expon_of. rewrite hbar_freq_fin.
  rewrite fdiv_fin by now apply kb_t_neq. reflexivity.
Qed.

Lemma inv_exp_lt_1 y : 0 < y -> 0 < 1 / exp y < 1.
Proof.
  intros Hy. pose proof (exp_gt_1 y Hy) as HE.
  split; [apply Rdiv_lt_0_compat; lra|].
  apply Rmult_lt_reg_r with (exp y); [lra|]. field_simplify; lra.
Qed.

Lemma zp_of_fin x : zp_of (Fin x) = Fin (zp_real x).
Proof. unfold zp_of. now rewrite hbar_freq_fin. Qed.

Lemma U_of_fin T x : 0 < x -> 0 < T -> U_of T (Fin x) = Fin (U_real T x).
Proof.
  intros Hx HT. pose proof (exp_gt_1 _ (reduced_pos T x Hx HT)) as HE.
  unfold U_of. destruct (Req_dec_T T 0) as [->|HT0]; [lra|].
  rewrite zp_of_fin, hbar_freq_fin, expon_fin by exact HT0. cbn [fsub].
  rewrite fdiv_fin by lra. reflexivity.
Qed.

Lemma S_of_fin T x : 0 < x -> 0 < T -> S_of T (Fin x) = Fin (S_real T x).
Proof.
  intros Hx HT. pose proof (reduced_pos T x Hx HT) as Hy.
  pose proof (exp_gt_1 _ Hy) as HE. pose proof (inv_exp_lt_1 _ Hy) as HI.
  unfold S_of. destruct (Req_dec_T T 0) as [->|HT0]; [lra|].
  rewrite hbar_freq_fin, expon_fin by exact HT0. cbn [fsub].
  rewrite (fdiv_fin (hbar x)) by now apply kb_t_neq.
  rewrite (fdiv_fin _ (exp (reduced T x) - 1)) by lra.
  rewrite (fdiv_fin 1) by lra. cbn [fsub].
  rewrite flog_fin by lra. cbn [fsub fmul].
  rewrite fdiv_fin by exact HT0. reflexivity.
Qed.

Lemma Cv_of_fin T x : 0 < x -> 0 < T -> Cv_of T (Fin x) = Fin (Cv_real T x).
Proof.
  intros Hx HT. pose proof (reduced_pos T x Hx HT) as Hy.
  pose proof (exp_gt_1 _ Hy) as HE.
  unfold Cv_of. destruct (Req_dec_T T 0) as [->|HT0]; [lra|].
  rewrite hbar_freq_fin, expon_fin by exact HT0. cbn [fsub fsqr fmul].
  rewrite (fdiv_fin (hbar x * hbar x)) by now apply kb_t_neq.
  rewrite (fdiv_fin _ T) by exact HT0. cbn [fmul].
  rewrite fdiv_fin by nra. reflexivity.
Qed.

Lemma S_real_phi T x :
  0 < T -> S_real T x = 1000 * (1.380649E-3 * 6.022141) * phi (reduced T x).
Proof.
  intros HT. unfold S_real, phi. fold (reduced T x).
  set (r := reduced T x). set (a := r / (exp r - 1)).
  set (l := ln (1 - 1 / exp r)).
  unfold Mode.kb_t_of. field. lra.
Qed.

Lemma Cv_real_psi T x :
  0 < x -> 0 < T ->
  Cv_real T x = 1000 * (1.380649E-3 * 6.022141) * psi (reduced T x).
Proof.
  intros Hx HT. pose proof (exp_gt_1 _ (reduced_pos T x Hx HT)) as HE.
  unfold Cv_real, psi. set (E := exp (reduced T x)) in *.
  unfold reduced, Mode.kb_t_of. set (hb := hbar x).
  field. repeat split; lra.
Qed.

Lemma reduced_antitone T1 T2 x :
  0 < x -> 0 < T1 -> T1 <= T2 -> reduced T2 x <= reduced T1 x.
Proof.
  intros Hx H1 H12. unfold reduced, Rdiv. pose proof (hbar_pos x Hx).
  apply Rmult_le_compat_l; [lra|].
  apply Rinv_le_contravar; [now apply kb_t_pos|]. unfold Mode.kb_t_of. nra.
Qed.

Lemma S_real_pos T x : 0 < x -> 0 < T -> 0 < S_real T x.
Proof.
  intros Hx HT. rewrite S_real_phi by exact HT.
  pose proof (phi_pos _ (reduced_pos T x Hx HT)). nra.
Qed.

Lemma Cv_real_pos T x : 0 < x -> 0 < T -> 0 < Cv_real T x.
Proof.
  intros Hx HT. rewrite Cv_real_psi by assumption.
  pose proof (psi_pos _ (reduced_pos T x Hx HT)). nra.
Qed.

Lemma S_real_monotone T1 T2 x :
  0 < x -> 0 < T1 -> T1 <= T2 -> S_real T1 x <= S_real T2 x.
Proof.
  intros Hx H1 H12. rewrite !S_real_phi by lra.
  pose proof (phi_decreasing (reduced T2 x) (reduced T1 x)
                (reduced_pos T2 x Hx ltac:(lra))
                (reduced_antitone T1 T2 x Hx H1 H12)).
  nra.
Qed.

Lemma Cv_real_monotone T1 T2 x :
  0 < x -> 0 < T1 -> T1 <= T2 -> Cv_real T1 x <= Cv_real T2 x.
Proof.
  intros Hx H1 H12. rewrite !Cv_real_psi by lra.
  pose proof (psi_decreasing (reduced T2 x) (reduced T1 x)
                (reduced_pos T2 x Hx ltac:(lra))
                (reduced_antitone T1 T2 x Hx H1 H12)).
  nra.
Qed.

(** ** Engines built from frequencies *)

Lemma init_one_sample r f v : one_sample (Mode.init r [f] [v]) (angular f).
Proof. split; [reflexivity | now left]. Qed.

Lemma qmode_from_one_sample v freqs :
  forall m, Forall2 one_sample (Harmonic.qmode_from m v freqs) (map angular freqs).
Proof.
  induction freqs as [|f freqs IH]; intros m; simpl.
  - constructor.
  - constructor; [apply init_one_sample | apply IH].
Qed.

Lemma engine_ready freqs e v Ts Ps :
  ready (engine freqs e v Ts Ps) (map (map angular) freqs) e v Ts Ps.
Proof.
  split; [|repeat split].
  eexists. split; [reflexivity|].
  induction freqs as [|fs freqs IH]; simpl; constructor.
  - apply qmode_from_one_sample.
  - exact IH.
Qed.

(** ** The frequency test and the sums *)

Lemma keeps_false w :
  Harmonic.keeps w = false <-> w = NaN \/ exists x, w = Fin x /\ x <= 1e-5.
Proof.
  unfold Harmonic.keeps. destruct w as [|x]; simpl.
  - split; [now left | reflexivity].
  - destruct (Rlt_dec 1e-5 x) as [H|H]; split.
    + discriminate.
    + intros [H0 | (y & [= <-] & Hy)]; [discriminate | lra].
    + intros _. right. exists x. split; [reflexivity | lra].
    + reflexivity.
Qed.

Lemma keeps_true w :
  Harmonic.keeps w = true <-> exists x, w = Fin x /\ 1e-5 < x.
Proof.
  unfold Harmonic.keeps. destruct w as [|x]; simpl.
  - split; [discriminate | intros (y & H & _); discriminate].
  - destruct (Rlt_dec 1e-5 x) as [H|H]; split.
    + intros _. now exists x.
    + reflexivity.
    + discriminate.
    + intros (y & [= <-] & Hy). contradiction.
Qed.

Lemma fold_accumulate_filter f ws acc :
  fold_left (accumulate f) ws acc
  = fold_left fadd (map f (filter Harmonic.keeps ws)) acc.
Proof.
  revert acc. induction ws as [|w ws IH]; intros acc; simpl.
  - reflexivity.
  - unfold accumulate at 2. destruct (Harmonic.keeps w); simpl; apply IH.
Qed.

Lemma qsum_filter f ws : qsum f ws = fsum (map f (filter Harmonic.keeps ws)).
Proof. apply fold_accumulate_filter. Qed.

Lemma qsum_single f x : 1e-5 < x -> qsum f [Fin x] = Fin 0 +f f (Fin x).
Proof.
  intros H. unfold qsum, accumulate. simpl.
  assert (Hk : Harmonic.keeps (Fin x) = true) by (apply keeps_true; now exists x).
  now rewrite Hk.
Qed.

Lemma two_pi_bounds : 6 < 2 * PI <= 8.
Proof. pose proof PI2_3_2. pose proof PI_4. lra. Qed.

(** ** Single modes *)

Lemma one_sample_of_ncalc m :
  Mode.ncalc m = 1%nat -> cache_sound m -> exists w, one_sample m w.
Proof.
  intros Hn Hc. unfold Mode.ncalc in Hn.
  destruct (Mode.frequency m) as [|w [|w' l]] eqn:Hf; try discriminate.
  exists w. split; [exact Hf|].
  destruct (Mode.zp_energy m) as [z|] eqn:Hz; [right | now left].
  specialize (Hc z Hz). revert Hc.
  unfold Mode.get_zp_energy, Mode.ncalc, bind, Mode.frequency0, modify, ret.
  rewrite Hf. simpl. now intros [= <-].
Qed.

Lemma get_entropy_value T m w :
  Mode.frequency m = [w] -> fst (Mode.get_entropy T m) = Ret (S_of T w).
Proof.
  intros Hf.
  destruct (get_entropy_run T (Mode.mk (Mode.rank m) (Mode.frequency m)
              (Mode.volume m) None (Mode.U_vib m) (Mode.entropy m) (Mode.C_v m)) w)
    as (m' & Hrun & _); [split; [exact Hf | now left] |].
  revert Hrun. unfold Mode.get_entropy, Mode.ncalc, bind, Mode.frequency0,
    modify, ret. simpl. rewrite Hf. simpl.
  destruct (Req_dec_T T 0); now intros [= -> _].
Qed.

Lemma get_C_v_value T m w :
  Mode.frequency m = [w] -> fst (Mode.get_C_v T m) = Ret (Cv_of T w).
Proof.
  intros Hf.
  destruct (get_C_v_run T (Mode.mk (Mode.rank m) (Mode.frequency m)
              (Mode.volume m) None (Mode.U_vib m) (Mode.entropy m) (Mode.C_v m)) w)
    as (m' & Hrun & _); [split; [exact Hf | now left] |].
  revert Hrun. unfold Mode.get_C_v, Mode.ncalc, bind, Mode.frequency0,
    modify, ret. simpl. rewrite Hf. simpl.
  destruct (Req_dec_T T 0); now intros [= -> _].
Qed.

Lemma S_of_zero w : S_of 0 w = Fin 0.
Proof. unfold S_of. destruct (Req_dec_T 0 0); [reflexivity | contradiction]. Qed.

Lemma Cv_of_zero w : Cv_of 0 w = Fin 0.
Proof. unfold Cv_of. destruct (Req_dec_T 0 0); [reflexivity | contradiction]. Qed.

Lemma U_of_zero w : U_of 0 w = zp_of w.
Proof. unfold U_of. destruct (Req_dec_T 0 0); [reflexivity | contradiction]. Qed.

(** C5.  On a mode of exactly one calculation sample, whatever its
    frequency, the calls at temperature 0 all return a value, none reports
    an error: [get_U_vib(0)] returns the very value [get_zp_energy()]
    returns, [get_entropy(0)] returns 0 and [get_C_v(0)] returns 0. *)
Theorem zero_temperature_branch (m : Mode.t) :
  Mode.ncalc m = 1%nat -> cache_sound m ->
  exists z m0 m1 m2 m3,
    Mode.get_zp_energy m = (Ret z, m0)
    /\ Mode.get_U_vib 0 m = (Ret z, m1)
    /\ Mode.get_entropy 0 m = (Ret (Fin 0), m2)
    /\ Mode.get_C_v 0 m = (Ret (Fin 0), m3).
Proof.
  intros Hn Hc. destruct (one_sample_of_ncalc m Hn Hc) as (w & Hw).
  destruct (get_U_vib_run 0 m w Hw) as (m1 & HU & _).
  destruct (get_entropy_run 0 m w Hw) as (m2 & HS & _).
  destruct (get_C_v_run 0 m w Hw) as (m3 & HC & _).
  rewrite U_of_zero in HU. rewrite S_of_zero in HS. rewrite Cv_of_zero in HC.
  exists (zp_of w), (Mode.set_zp_energy (zp_of w) m), m1, m2, m3.
  split; [now apply get_zp_energy_run|]. repeat split; assumption.
Qed.

Lemma zero_temperature_branch_witness :
  exists z m0 m1 m2 m3,
    Mode.get_zp_energy (Mode.init 1 [Fin 5] [50]) = (Ret z, m0)
    /\ Mode.get_U_vib 0 (Mode.init 1 [Fin 5] [50]) = (Ret z, m1)
    /\ Mode.get_entropy 0 (Mode.init 1 [Fin 5] [50]) = (Ret (Fin 0), m2)
    /\ Mode.get_C_v 0 (Mode.init 1 [Fin 5] [50]) = (Ret (Fin 0), m3).
Proof.
  apply (zero_temperature_branch (Mode.init 1 [Fin 5] [50])).
  - reflexivity.
  - intros z H. discriminate H.
Defined.

(** ** Single modes where [np.exp] overflows *)

Lemma overflow_large : 1e12 <= Ieee.overflow.
Proof.
  unfold Ieee.overflow.
  change 1024%nat with (970 + 54)%nat. rewrite pow_add.
  assert (H54 : 2 <= 2 ^ 54).
  { change 54%nat with (1 + 53)%nat. rewrite pow_add.
    assert (1 <= 2 ^ 53) by (apply pow_R1_Rle; lra).
    rewrite pow_1. nra. }
  assert (H970 : 1e12 <= 2 ^ 970).
  { change 970%nat with (40 + 930)%nat. rewrite pow_add.
    assert (1 <= 2 ^ 930) by (apply pow_R1_Rle; lra).
    assert (1e12 <= 2 ^ 40) by (cbn [pow]; lra).
    nra. }
  nra.
Qed.

Lemma overflow_below : Ieee.overflow <= 2 ^ 1024.
Proof.
  unfold Ieee.overflow.
  assert (0 <= 2 ^ 970) by (apply pow_le; lra). lra.
Qed.

Lemma store_fin r : -1e12 < r < 1e12 -> Ieee.store r = Ieee.Fin r.
Proof.
  intros H. pose proof overflow_large. unfold Ieee.store.
  destruct (Rle_dec Ieee.overflow r); [lra|].
  destruct (Rle_dec r (- Ieee.overflow)); [lra | reflexivity].
Qed.

Lemma exp_half_pow n : (3 / 2) ^ n <= exp (INR n / 2).
Proof.
  induction n as [|n IH].
  - simpl. replace (0 / 2) with 0 by lra. rewrite exp_0. lra.
  - rewrite S_INR. replace ((INR n + 1) / 2) with (INR n / 2 + 1 / 2) by lra.
    rewrite exp_plus. simpl.
    assert (H : 3 / 2 <= exp (1 / 2)).
    { pose proof (exp_ineq1_le (1 / 2)). lra. }
    assert (0 <= (3 / 2) ^ n) by (apply pow_le; lra).
    rewrite (Rmult_comm (3 / 2)). apply Rmult_le_compat; lra.
Qed.

Lemma two_pow_1024 : 2 ^ 1024 <= (3 / 2) ^ 1792.
Proof.
  assert (E1 : 2 ^ 1024 = (2 ^ 4) ^ 256).
  { rewrite <- pow_mult. reflexivity. }
  assert (E2 : (3 / 2) ^ 1792 = ((3 / 2) ^ 7) ^ 256).
  { rewrite <- pow_mult. reflexivity. }
  rewrite E1, E2. apply pow_incr. split.
  - apply pow_le; lra.
  - cbn [pow]. lra.
Qed.

Lemma exp_overflows x : 896 <= x -> Ieee.store (exp x) = Ieee.Inf true.
Proof.
  intros Hx. unfold Ieee.store.
  destruct (Rle_dec Ieee.overflow (exp x)) as [|Hn]; [reflexivity|].
  exfalso. apply Hn.
  apply Rle_trans with (2 ^ 1024); [apply overflow_below|].
  apply Rle_trans with ((3 / 2) ^ 1792); [apply two_pow_1024|].
  apply Rle_trans with (exp (INR 1792 / 2)); [apply exp_half_pow|].
  assert (E : INR 1792 / 2 = 896).
  { rewrite INR_IZR_INZ. change (Z.of_nat 1792) with 1792%Z. lra. }
  rewrite E. destruct Hx as [Hx | <-]; [|lra].
  apply Rlt_le. now apply exp_increasing.
Qed.

Lemma mul_fin x y :
  -1e12 < x * y < 1e12 -> Ieee.mul (Ieee.Fin x) (Ieee.Fin y) = Ieee.Fin (x * y).
Proof. intros H. simpl. now apply store_fin. Qed.

Lemma div_fin x y :
  y <> 0 -> -1e12 < x / y < 1e12 ->
  Ieee.div (Ieee.Fin x) (Ieee.Fin y) = Ieee.Fin (x / y).
Proof.
  intros Hy H. simpl. destruct (Req_dec_T y 0); [contradiction|].
  now apply store_fin.
Qed.

Lemma mul_fin_inf x :
  0 < x -> Ieee.mul (Ieee.Fin x) (Ieee.Inf true) = Ieee.Inf true.
Proof.
  intros H. simpl. destruct (Req_dec_T x 0); [lra|].
  unfold Ieee.is_positive. destruct (Rlt_dec 0 x); [reflexivity | contradiction].
Qed.

(** The quantum of a 10 THz mode, [hbar_freq], and [kb_t] at 0.5 K. *)
Lemma hbar_freq_10THz :
  Ieee.Mode.hbar_freq_of (Ieee.mul (Ieee.mul (Ieee.Fin 10) (Ieee.Fin 2)) (Ieee.Fin PI))
  = Ieee.Fin (10 * 6.022141 * 6.626070E-2).
Proof.
  pose proof PI_4 as H4. pose proof PI2_3_2 as H3. unfold Ieee.Mode.hbar_freq_of.
  rewrite (mul_fin 10 2) by lra.
  rewrite (mul_fin (10 * 2) PI) by lra.
  rewrite (mul_fin (10 * 2 * PI)) by lra.
  rewrite (mul_fin (10 * 2 * PI * 6.022141)) by lra.
  rewrite (div_fin _ 2) by lra.
  replace (10 * 2 * PI * 6.022141 * 6.626070E-2 / 2)
    with (10 * 6.022141 * 6.626070E-2 * PI) by lra.
  assert (E : 10 * 6.022141 * 6.626070E-2 * PI / PI = 10 * 6.022141 * 6.626070E-2).
  { field. lra. }
  rewrite div_fin; [now rewrite E | lra | rewrite E; lra].
Qed.

Lemma kb_t_half :
  Ieee.Mode.kb_t_of 0.5 = Ieee.Fin (1.380649E-3 * 6.022141 * 0.5).
Proof.
  unfold Ieee.Mode.kb_t_of.
  rewrite (mul_fin 1.380649E-3) by lra. now rewrite mul_fin by lra.
Qed.

Lemma expon_10THz_half :
  Ieee.exp (Ieee.div (Ieee.Fin (10 * 6.022141 * 6.626070E-2))
                     (Ieee.Fin (1.380649E-3 * 6.022141 * 0.5)))
  = Ieee.Inf true.
Proof.
  rewrite div_fin by lra. simpl. apply exp_overflows. lra.
Qed.

Lemma kb_t_room :
  Ieee.Mode.kb_t_of 298.15 = Ieee.Fin (1.380649E-3 * 6.022141 * 298.15).
Proof.
  unfold Ieee.Mode.kb_t_of.
  rewrite (mul_fin 1.380649E-3) by lra. now rewrite mul_fin by lra.
Qed.

Lemma div_bound a b : 0 <= a < 1e12 -> 1 <= b -> -1e12 < a / b < 1e12.
Proof.
  intros [Ha Ha'] Hb.
  assert (H : 0 < / b <= 1).
  { split; [apply Rinv_0_lt_compat; lra|].
    rewrite <- Rinv_1. apply Rinv_le_contravar; lra. }
  unfold Rdiv. nra.
Qed.

Lemma expon_10THz_room :
  exists E, 2 < E <= 9
    /\ Ieee.exp (Ieee.div (Ieee.Fin (10 * 6.022141 * 6.626070E-2))
                          (Ieee.Fin (1.380649E-3 * 6.022141 * 298.15)))
       = Ieee.Fin E.
Proof.
  rewrite div_fin by lra. cbn [Ieee.exp].
  set (x := 10 * 6.022141 * 6.626070E-2 / (1.380649E-3 * 6.022141 * 298.15)).
  assert (Hx : 1 < x < 2) by (unfold x; lra).
  assert (H2 : exp 2 <= 9).
  { replace 2 with (1 + 1) by lra. rewrite exp_plus.
    pose proof exp_le_3. pose proof (exp_pos 1). nra. }
  assert (HE : 2 < exp x <= 9).
  { split.
    - pose proof (exp_ineq1 x ltac:(lra)). lra.
    - apply Rle_trans with (exp 2); [|exact H2].
      apply Rlt_le, exp_increasing. lra. }
  exists (exp x). split; [exact HE|]. apply store_fin. lra.
Qed.

(** C10.  A mode of 10 THz: [get_C_v(0)] returns 0, and [get_C_v(0.5)]
    returns NaN, because [np.exp] of 959.8 is an infinity and the heat
    capacity is then the quotient of two infinities; so the heat capacity
    returned at 0.5 K is not at least the one returned at 0 K.
    [get_entropy(0.5)] returns 0 on the same mode, and [get_C_v(298.15)]
    a positive number. *)
Theorem heat_capacity_overflow :
  fst (Ieee.Mode.get_C_v 0 (Ieee.Mode.init 1 [Ieee.Fin 10] [50]))
  = Ret (Ieee.Fin 0)
  /\ fst (Ieee.Mode.get_C_v 0.5 (Ieee.Mode.init 1 [Ieee.Fin 10] [50]))
     = Ret Ieee.NaN
  /\ fst (Ieee.Mode.get_entropy 0.5 (Ieee.Mode.init 1 [Ieee.Fin 10] [50]))
     = Ret (Ieee.Fin 0)
  /\ exists c,
       fst (Ieee.Mode.get_C_v 298.15 (Ieee.Mode.init 1 [Ieee.Fin 10] [50]))
       = Ret (Ieee.Fin c)
       /\ 0 < c.
Proof.
  split; [|split; [|split]].
  - unfold Ieee.Mode.get_C_v. simpl.
    destruct (Req_dec_T 0 0); [reflexivity | contradiction].
  - unfold Ieee.Mode.get_C_v, Ieee.Mode.init, Ieee.Mode.ncalc, bind,
      Ieee.Mode.frequency0, modify, ret.
    cbn [map Ieee.Mode.frequency List.length Nat.ltb Nat.leb].
    destruct (Req_dec_T 0.5 0); [lra|].
    rewrite hbar_freq_10THz, kb_t_half, expon_10THz_half.
    cbn [fst]. f_equal. unfold Ieee.sqr.
    rewrite mul_fin by lra. rewrite div_fin by lra. rewrite div_fin by lra.
    rewrite mul_fin_inf by lra. reflexivity.
  - unfold Ieee.Mode.get_entropy, Ieee.Mode.init, Ieee.Mode.ncalc, bind,
      Ieee.Mode.frequency0, modify, ret.
    cbn [map Ieee.Mode.frequency List.length Nat.ltb Nat.leb].
    destruct (Req_dec_T 0.5 0); [lra|].
    rewrite hbar_freq_10THz, kb_t_half, expon_10THz_half.
    cbn [fst]. f_equal.
    rewrite div_fin by lra.
    cbn [Ieee.sub Ieee.neg Ieee.add Ieee.div].
    rewrite store_fin by lra.
    unfold Ieee.log. destruct (Rlt_dec 0 (1 + - 0)); [|lra].
    replace (1 + - 0) with 1 by lra. rewrite ln_1.
    cbn [Ieee.neg Ieee.add]. rewrite store_fin by lra.
    rewrite mul_fin by lra. rewrite div_fin by lra. rewrite mul_fin by lra.
    f_equal. lra.
  - unfold Ieee.Mode.get_C_v, Ieee.Mode.init, Ieee.Mode.ncalc, bind,
        Ieee.Mode.frequency0, modify, ret.
    cbn [map Ieee.Mode.frequency List.length Nat.ltb Nat.leb].
    destruct (Req_dec_T 298.15 0); [lra|].
    rewrite hbar_freq_10THz, kb_t_room.
    destruct expon_10THz_room as (E & HE & ->).
    cbn [fst]. unfold Ieee.sqr, Ieee.sub. cbn [Ieee.neg Ieee.add].
    rewrite (store_fin (E + - (1))) by lra.
    rewrite (mul_fin (E + - (1))) by nra.
    rewrite mul_fin by lra. rewrite div_fin by lra. rewrite div_fin by lra.
    set (a := 10 * 6.022141 * 6.626070E-2 * (10 * 6.022141 * 6.626070E-2)
              / (1.380649E-3 * 6.022141 * 298.15) / 298.15).
    assert (Ha : 0 < a < 1) by (unfold a; lra).
    rewrite (mul_fin a E) by nra.
    assert (Hq : 0 < a * E / ((E + - (1)) * (E + - (1))) < 1e12).
    { assert (1 <= (E + - (1)) * (E + - (1))) by nra.
      pose proof (div_bound (a * E) ((E + - (1)) * (E + - (1))) ltac:(nra) ltac:(lra)).
      split; [|lra]. apply Rdiv_lt_0_compat; nra. }
    rewrite div_fin; [| nra | lra].
    assert (Hq' : a * E / ((E + - (1)) * (E + - (1))) < 9).
    { apply Rmult_lt_reg_r with ((E + - (1)) * (E + - (1))); [nra|].
      unfold Rdiv. rewrite Rmult_assoc, Rinv_l by nra. nra. }
    rewrite mul_fin by lra.
    eexists. split; [reflexivity|]. lra.
Qed.

(** ** Entries of the tensors *)

Lemma entry2_tensor f Ts wss q t :
  (q < List.length wss)%nat -> (t < List.length Ts)%nat ->
  entry2 (T_tensor f Ts wss) q t = f (nth t Ts 0) (nth q wss []).
Proof.
  intros Hq Ht. unfold entry2, T_tensor.
  rewrite (nth_map_lt (fun ws => map (fun T => f T ws) Ts) wss q [] []) by exact Hq.
  now rewrite (nth_map_lt (fun T => f T (nth q wss [])) Ts t NaN 0).
Qed.

Lemma entry3_tensor e v Ts Ps wss q t p :
  (q < List.length wss)%nat -> (t < List.length Ts)%nat ->
  (p < List.length Ps)%nat ->
  entry3 (gibbs_tensor e v Ts Ps wss) q t p
  = gibbs_of e v (nth t Ts 0) (nth p Ps 0) (nth q wss []).
Proof.
  intros Hq Ht Hp. unfold entry3, gibbs_tensor.
  rewrite (nth_map_lt
             (fun ws => map (fun T => map (fun p => gibbs_of e v T p ws) Ps) Ts)
             wss q [] []) by exact Hq.
  rewrite (nth_map_lt (fun T => map (fun p => gibbs_of e v T p (nth q wss [])) Ps)
             Ts t [] 0) by exact Ht.
  now rewrite (nth_map_lt (fun p => gibbs_of e v (nth t Ts 0) p (nth q wss []))
                 Ps p NaN 0).
Qed.

Lemma entry2_summed f Ts wss t :
  (t < List.length Ts)%nat ->
  entry2 (T_summed f Ts wss) 0 t = fsum (map (f (nth t Ts 0)) wss).
Proof.
  intros Ht. unfold entry2, T_summed. cbn [nth].
  now rewrite (nth_map_lt (fun T => fsum (map (f T) wss)) Ts t NaN 0).
Qed.

Lemma entry3_summed e v Ts Ps wss t p :
  (t < List.length Ts)%nat -> (p < List.length Ps)%nat ->
  entry3 (gibbs_summed e v Ts Ps wss) 0 t p
  = fsum (map (gibbs_of e v (nth t Ts 0) (nth p Ps 0)) wss).
Proof.
  intros Ht Hp. unfold entry3, gibbs_summed. cbn [nth].
  rewrite (nth_map_lt
             (fun T => map (fun p => fsum (map (gibbs_of e v T p) wss)) Ps)
             Ts t [] 0) by exact Ht.
  now rewrite (nth_map_lt
                 (fun p => fsum (map (gibbs_of e v (nth t Ts 0) p) wss))
                 Ps p NaN 0).
Qed.

Lemma fadd_zero_l a : Fin 0 +f a = a.
Proof. destruct a as [|x]; simpl; [reflexivity | f_equal; lra]. Qed.

Lemma gibbs_of_zero_pressure e v T ws : gibbs_of e v T 0 ws = helm_of e T ws.
Proof.
  unfold gibbs_of. replace (0 * v * 0.602214) with 0 by lra.
  apply fadd_zero_l.
Qed.

(** ** Claims on the aggregation and on the free energies *)

(** C6.  In every per-q-point sum of [phonon_sumup] (the zero-point energy,
    and the internal energy, entropy and heat capacity at any temperature)
    the modes summed are exactly those that pass the frequency test; a
    mode fails the test exactly when its angular frequency is NaN or at
    most 1e-5, and passes it exactly when it is finite and above 1e-5.  A
    mode constructed from 1e-6 THz fails it and one constructed from 1e-4
    THz passes. *)
Theorem acoustic_modes_excluded (h : Harmonic.t) (wss : list (list float))
    (e v : R) (Ts Ps : list R) (T : R) :
  ready h wss e v Ts Ps ->
  fst (Harmonic.phonon_sumup_zp h)
  = Ret (map (fun ws => fsum (map zp_of (filter Harmonic.keeps ws))) wss)
  /\ fst (Harmonic.phonon_sumup T h)
     = Ret (map (fun ws => fsum (map (U_of T) (filter Harmonic.keeps ws))) wss,
            map (fun ws => fsum (map (S_of T) (filter Harmonic.keeps ws))) wss,
            map (fun ws => fsum (map (Cv_of T) (filter Harmonic.keeps ws))) wss)
  /\ (forall w, Harmonic.keeps w = false
                <-> w = NaN \/ exists x, w = Fin x /\ x <= 1e-5)
  /\ (forall w, Harmonic.keeps w = true <-> exists x, w = Fin x /\ 1e-5 < x)
  /\ (forall r vol, fst (Harmonic.is_kept (Mode.init r [Fin 1e-6] vol)) = Ret false)
  /\ (forall r vol, fst (Harmonic.is_kept (Mode.init r [Fin 1e-4] vol)) = Ret true).
Proof.
  intros H.
  destruct (phonon_sumup_zp_run h wss e v Ts Ps H) as (q1 & -> & _).
  destruct (phonon_sumup_run T h wss e v Ts Ps H) as (q2 & -> & _).
  pose proof two_pi_bounds as HPI.
  split; [|split; [|split; [|split; [|split]]]].
  - simpl. unfold zp_tensor. f_equal. apply map_ext. intros ws. apply qsum_filter.
  - simpl. f_equal.
    rewrite (map_ext _ _ (qsum_filter (U_of T))),
      (map_ext _ _ (qsum_filter (S_of T))),
      (map_ext _ _ (qsum_filter (Cv_of T))). reflexivity.
  - apply keeps_false.
  - apply keeps_true.
  - intros r vol. cbn [Harmonic.is_kept Mode.init Mode.frequency map fst].
    f_equal. apply keeps_false. right. eexists. split; [reflexivity|]. lra.
  - intros r vol. cbn [Harmonic.is_kept Mode.init Mode.frequency map fst].
    f_equal. apply keeps_true. eexists. split; [reflexivity|]. lra.
Qed.

Lemma acoustic_modes_excluded_witness :
  let h := engine [[Fin 1e-6; Fin 1e-4]] (-100) 50 [0; 100] [0] in
  let wss := map (map angular) [[Fin 1e-6; Fin 1e-4]] in
  ready h wss (-100) 50 [0; 100] [0]
  /\ fst (Harmonic.phonon_sumup_zp h)
     = Ret (map (fun ws => fsum (map zp_of (filter Harmonic.keeps ws))) wss)
  /\ fst (Harmonic.phonon_sumup 100 h)
     = Ret (map (fun ws => fsum (map (U_of 100) (filter Harmonic.keeps ws))) wss,
            map (fun ws => fsum (map (S_of 100) (filter Harmonic.keeps ws))) wss,
            map (fun ws => fsum (map (Cv_of 100) (filter Harmonic.keeps ws))) wss).
Proof.
  intros h wss.
  pose proof (engine_ready [[Fin 1e-6; Fin 1e-4]] (-100) 50 [0; 100] [0]) as Hr.
  split; [exact Hr|].
  destruct (acoustic_modes_excluded h wss (-100) 50 [0; 100] [0] 100 Hr)
    as (Hzp & HT & _).
  split; [exact Hzp | exact HT].
Defined.

(** What the loop over temperatures computes for the Helmholtz free energy
    of a q-point: [-entropy * T + U_vib + edft], the entropy entering as
    it is stored. *)
Lemma helmholtz_entry h wss e v Ts Ps q t :
  ready h wss e v Ts Ps -> Ts <> [] -> Ps <> [] ->
  (q < List.length wss)%nat -> (t < List.length Ts)%nat ->
  exists helm gibbs zp U S Cv h',
    Harmonic.thermodynamics false h = (Ret (helm, gibbs, zp, U, S, Cv), h')
    /\ entry2 helm q t
       = fneg (entry2 S q t) *f Fin (nth t Ts 0) +f entry2 U q t +f Fin e.
Proof.
  intros H HTs HPs Hq Ht.
  destruct (thermodynamics_run false h wss e v Ts Ps H HTs HPs) as (h' & Hrun & _).
  unfold expected in Hrun. do 7 eexists. split; [exact Hrun|].
  now rewrite !entry2_tensor.
Qed.

(** ** Sums over q-points *)

Lemma fold_fadd_const (f : list float -> float) (c : R) wss :
  forall a k,
    fold_left fadd (map (fun ws => f ws +f Fin c) wss) (a +f Fin k)
    = fold_left fadd (map f wss) a +f Fin (k + INR (List.length wss) * c).
Proof.
  induction wss as [|ws wss IH]; intros a k.
  - simpl. f_equal. f_equal. lra.
  - cbn [map fold_left].
    replace (a +f Fin k +f (f ws +f Fin c)) with (a +f f ws +f Fin (k + c)).
    + rewrite IH. f_equal. f_equal. rewrite length_cons, S_INR. lra.
    + destruct a, (f ws); simpl; try reflexivity. f_equal. lra.
Qed.

Lemma fsum_add_const (f : list float -> float) (c : R) wss :
  fsum (map (fun ws => f ws +f Fin c) wss)
  = fsum (map f wss) +f Fin (INR (List.length wss) * c).
Proof.
  unfold fsum. replace (Fin 0) with (Fin 0 +f Fin 0) at 1
    by (simpl; f_equal; lra).
  rewrite fold_fadd_const. f_equal. f_equal. lra.
Qed.

Lemma fsum_helm e T wss :
  fsum (map (helm_of e T) wss)
  = fsum (map (vib_of T) wss) +f Fin (INR (List.length wss) * e).
Proof. exact (fsum_add_const (vib_of T) e wss). Qed.

Lemma fsum_gibbs e v T p wss :
  fsum (map (gibbs_of e v T p) wss)
  = fsum (map (vib_of T) wss)
    +f Fin (INR (List.length wss) * (p * v * 0.602214)
            + INR (List.length wss) * e).
Proof.
  replace (INR (List.length wss) * (p * v * 0.602214)
           + INR (List.length wss) * e)
    with (INR (List.length wss) * (p * v * 0.602214 + e)) by lra.
  rewrite <- (fsum_add_const (vib_of T) (p * v * 0.602214 + e) wss).
  f_equal. apply map_ext. intros ws. unfold gibbs_of, helm_of. fold (vib_of T ws).
  destruct (vib_of T ws); simpl; [reflexivity | f_equal; lra].
Qed.

(** C4.  With [sumphonon] over [N] q-points the electronic energy is added
    to the Helmholtz free energy of every q-point before the sum: the one
    reported Helmholtz entry of a temperature is the sum over q-points of
    the vibrational parts plus [N] times the electronic energy, and so is
    the electronic part of every Gibbs entry; with one q-point that is the
    electronic energy once. *)
Theorem summed_electronic_energy (h : Harmonic.t) (wss : list (list float))
    (e v : R) (Ts Ps : list R) :
  ready h wss e v Ts Ps -> Ts <> [] -> Ps <> [] ->
  exists helm gibbs zp U S Cv h',
    Harmonic.thermodynamics true h = (Ret (helm, gibbs, zp, U, S, Cv), h')
    /\ forall t p,
        (t < List.length Ts)%nat -> (p < List.length Ps)%nat ->
        entry2 helm 0 t
        = fsum (map (vib_of (nth t Ts 0)) wss)
          +f Fin (INR (List.length wss) * e)
        /\ entry3 gibbs 0 t p
           = fsum (map (vib_of (nth t Ts 0)) wss)
             +f Fin (INR (List.length wss) * (nth p Ps 0 * v * 0.602214)
                     + INR (List.length wss) * e)
        /\ (List.length wss = 1%nat ->
            entry2 helm 0 t = fsum (map (vib_of (nth t Ts 0)) wss) +f Fin e).
Proof.
  intros H HTs HPs.
  destruct (thermodynamics_run true h wss e v Ts Ps H HTs HPs) as (h' & Hrun & _).
  unfold expected in Hrun. do 7 eexists. split; [exact Hrun|].
  intros t p Ht Hp. rewrite entry3_summed, entry2_summed by assumption.
  rewrite fsum_helm, fsum_gibbs.
  split; [reflexivity|]. split; [reflexivity|].
  intros ->. simpl INR. f_equal. f_equal. lra.
Qed.

Lemma summed_electronic_energy_witness :
  let h := engine [[Fin 5]; [Fin 10]] (-100) 50 [100] [1] in
  let wss := map (map angular) [[Fin 5]; [Fin 10]] in
  ready h wss (-100) 50 [100] [1]
  /\ exists helm gibbs zp U S Cv h',
       Harmonic.thermodynamics true h = (Ret (helm, gibbs, zp, U, S, Cv), h')
       /\ forall t p,
           (t < 1)%nat -> (p < 1)%nat ->
           entry2 helm 0 t
           = fsum (map (vib_of (nth t [100] 0)) wss) +f Fin (INR 2 * -100)
           /\ entry3 gibbs 0 t p
              = fsum (map (vib_of (nth t [100] 0)) wss)
                +f Fin (INR 2 * (nth p [1] 0 * 50 * 0.602214) + INR 2 * -100)
           /\ (2%nat = 1%nat ->
               entry2 helm 0 t
               = fsum (map (vib_of (nth t [100] 0)) wss) +f Fin (-100)).
Proof.
  intros h wss.
  pose proof (engine_ready [[Fin 5]; [Fin 10]] (-100) 50 [100] [1]) as Hr.
  split; [exact Hr|].
  apply (summed_electronic_energy h wss (-100) 50 [100] [1] Hr); discriminate.
Defined.

Lemma angular_fin x : angular (Fin x) = Fin (x * 2 * PI).
Proof. reflexivity. Qed.

Lemma qsum_fin f g x :
  1e-5 < x -> f (Fin x) = Fin (g x) -> qsum f [Fin x] = Fin (g x).
Proof.
  intros Hx Hf. rewrite qsum_single by exact Hx. rewrite Hf. simpl.
  f_equal. lra.
Qed.

Lemma fadd_shift a x y : Fin x +f (a +f Fin y) = a +f Fin (x + y).
Proof. destruct a as [|z]; simpl; [reflexivity | f_equal; lra]. Qed.

(** C7, as stated, fails on the tensors [thermodynamics] returns by
    default.  Two q-points of one mode each, of 5 and 10 THz, at 100 K and
    pressure 1 with volume 50, summed over the q-points: the Helmholtz
    entry is a number [a], the Gibbs entry is [2 * (1 * 50 * 0.602214) + a],
    which is not [1 * 50 * 0.602214] plus the Helmholtz entry. *)
Lemma gibbs_from_helmholtz_counterexample :
  exists helm gibbs zp U S Cv h' a,
    Harmonic.thermodynamics true (engine [[Fin 5]; [Fin 10]] (-100) 50 [100] [1])
    = (Ret (helm, gibbs, zp, U, S, Cv), h')
    /\ entry2 helm 0 0 = Fin a
    /\ entry3 gibbs 0 0 0 = Fin (2 * (1 * 50 * 0.602214) + a)
    /\ entry3 gibbs 0 0 0 <> Fin (1 * 50 * 0.602214) +f entry2 helm 0 0.
Proof.
  pose proof (engine_ready [[Fin 5]; [Fin 10]] (-100) 50 [100] [1]) as Hr.
  destruct (thermodynamics_run true _ _ _ _ _ _ Hr) as (h' & Hrun & _);
    [discriminate | discriminate |].
  unfold expected in Hrun. pose proof two_pi_bounds as HPI.
  assert (Hv : forall x, 1 <= x ->
            vib_of 100 [Fin (x * 2 * PI)]
            = Fin (- S_real 100 (x * 2 * PI) * 100 + U_real 100 (x * 2 * PI))).
  { intros x Hx. unfold vib_of.
    rewrite (qsum_fin (S_of 100) (S_real 100)), (qsum_fin (U_of 100) (U_real 100));
      try nra; [reflexivity | apply U_of_fin; nra | apply S_of_fin; nra]. }
  set (b := - S_real 100 (5 * 2 * PI) * 100 + U_real 100 (5 * 2 * PI)
            + (- S_real 100 (10 * 2 * PI) * 100 + U_real 100 (10 * 2 * PI))).
  assert (Hsum : fsum (map (vib_of 100) (map (map angular) [[Fin 5]; [Fin 10]]))
                 = Fin b).
  { cbn [map]. rewrite !angular_fin, !Hv by lra.
    unfold fsum. cbn [fold_left fadd]. f_equal. unfold b. lra. }
  do 7 eexists. exists (b + 2 * -100). split; [exact Hrun|].
  rewrite entry2_summed, entry3_summed by (simpl; lia).
  rewrite fsum_helm, fsum_gibbs. cbn [nth]. rewrite Hsum.
  cbn [map List.length INR fadd]. split; [|split].
  - f_equal; lra.
  - f_equal; lra.
  - intros [= Heq]. lra.
Qed.

(** C7, amended.  Without the sum over q-points the Helmholtz free energy
    of a q-point and temperature is its vibrational part plus the
    electronic energy, and the Gibbs free energy of every q-point,
    temperature and pressure [P] is [P * volume * 0.602214] plus that
    Helmholtz free energy.  With the sum over [N] q-points the one
    reported Helmholtz entry is the sum of the vibrational parts plus [N]
    times the electronic energy, and the Gibbs entry is
    [N * (P * volume * 0.602214)] plus that Helmholtz entry.  In both
    cases the Gibbs free energy at [P = 0] is the Helmholtz free energy
    itself.  The tensors have one row per q-point in the first case and
    one row in the second. *)
Theorem gibbs_per_qpoint_and_summed (h : Harmonic.t) (wss : list (list float))
    (e v : R) (Ts Ps : list R) :
  ready h wss e v Ts Ps -> Ts <> [] -> Ps <> [] ->
  (exists helm gibbs zp U S Cv h',
     Harmonic.thermodynamics false h = (Ret (helm, gibbs, zp, U, S, Cv), h')
     /\ List.length helm = List.length wss
     /\ List.length gibbs = List.length wss
     /\ forall q t p,
         (q < List.length wss)%nat -> (t < List.length Ts)%nat ->
         (p < List.length Ps)%nat ->
         entry2 helm q t = vib_of (nth t Ts 0) (nth q wss []) +f Fin e
         /\ entry3 gibbs q t p
            = Fin (nth p Ps 0 * v * 0.602214) +f entry2 helm q t
         /\ (nth p Ps 0 = 0 -> entry3 gibbs q t p = entry2 helm q t))
  /\ (exists helm gibbs zp U S Cv h',
        Harmonic.thermodynamics true h = (Ret (helm, gibbs, zp, U, S, Cv), h')
        /\ List.length helm = 1%nat
        /\ List.length gibbs = 1%nat
        /\ forall t p,
            (t < List.length Ts)%nat -> (p < List.length Ps)%nat ->
            entry2 helm 0 t
            = fsum (map (vib_of (nth t Ts 0)) wss)
              +f Fin (INR (List.length wss) * e)
            /\ entry3 gibbs 0 t p
               = Fin (INR (List.length wss) * (nth p Ps 0 * v * 0.602214))
                 +f entry2 helm 0 t
            /\ (nth p Ps 0 = 0 -> entry3 gibbs 0 t p = entry2 helm 0 t)).
Proof.
  intros H HTs HPs. split.
  - destruct (thermodynamics_run false h wss e v Ts Ps H HTs HPs)
      as (h' & Hrun & _).
    unfold expected in Hrun. do 7 eexists. split; [exact Hrun|].
    split; [apply length_map|]. split; [apply length_map|].
    intros q t p Hq Ht Hp. rewrite entry3_tensor, entry2_tensor by assumption.
    split; [reflexivity|]. split; [reflexivity|].
    intros ->. apply gibbs_of_zero_pressure.
  - destruct (thermodynamics_run true h wss e v Ts Ps H HTs HPs)
      as (h' & Hrun & _).
    unfold expected in Hrun. do 7 eexists. split; [exact Hrun|].
    split; [reflexivity|]. split; [reflexivity|].
    intros t p Ht Hp. rewrite entry3_summed, entry2_summed by assumption.
    rewrite fsum_helm, fsum_gibbs. split; [reflexivity|]. split.
    + now rewrite fadd_shift.
    + intros ->. f_equal. f_equal. lra.
Qed.

Lemma gibbs_per_qpoint_and_summed_witness :
  let h := engine [[Fin 5]; [Fin 10]] (-100) 50 [0; 100; 298.15] [0; 1] in
  let wss := map (map angular) [[Fin 5]; [Fin 10]] in
  ready h wss (-100) 50 [0; 100; 298.15] [0; 1]
  /\ (exists helm gibbs zp U S Cv h',
        Harmonic.thermodynamics false h = (Ret (helm, gibbs, zp, U, S, Cv), h')
        /\ List.length helm = 2%nat
        /\ List.length gibbs = 2%nat
        /\ forall q t p,
            (q < 2)%nat -> (t < 3)%nat -> (p < 2)%nat ->
            entry2 helm q t
            = vib_of (nth t [0; 100; 298.15] 0) (nth q wss []) +f Fin (-100)
            /\ entry3 gibbs q t p
               = Fin (nth p [0; 1] 0 * 50 * 0.602214) +f entry2 helm q t
            /\ (nth p [0; 1] 0 = 0 -> entry3 gibbs q t p = entry2 helm q t))
  /\ (exists helm gibbs zp U S Cv h',
        Harmonic.thermodynamics true h = (Ret (helm, gibbs, zp, U, S, Cv), h')
        /\ List.length helm = 1%nat
        /\ List.length gibbs = 1%nat
        /\ forall t p,
            (t < 3)%nat -> (p < 2)%nat ->
            entry2 helm 0 t
            = fsum (map (vib_of (nth t [0; 100; 298.15] 0)) wss)
              +f Fin (INR 2 * -100)
            /\ entry3 gibbs 0 t p
               = Fin (INR 2 * (nth p [0; 1] 0 * 50 * 0.602214))
                 +f entry2 helm 0 t
            /\ (nth p [0; 1] 0 = 0 -> entry3 gibbs 0 t p = entry2 helm 0 t)).
Proof.
  intros h wss.
  pose proof (engine_ready [[Fin 5]; [Fin 10]] (-100) 50
                [0; 100; 298.15] [0; 1]) as Hr.
  split; [exact Hr|].
  apply (gibbs_per_qpoint_and_summed h wss (-100) 50 [0; 100; 298.15] [0; 1] Hr);
    discriminate.
Defined.

(** C1, on one q-point with one mode of 1 THz at 298.15 K.  The Helmholtz
    free energy that [thermodynamics] returns is [U - T * S + edft] with
    [S] the entropy entry in J/(mol K) as stored, not divided by 1000: it
    differs from [U - T * S / 1000 + edft]. *)
Theorem helmholtz_entropy_not_rescaled :
  exists helm gibbs zp U S Cv h' u s,
    Harmonic.thermodynamics false (engine [[Fin 1]] (-100) 50 [298.15] [0])
    = (Ret (helm, gibbs, zp, U, S, Cv), h')
    /\ entry2 U 0 0 = Fin u
    /\ entry2 S 0 0 = Fin s
    /\ entry2 helm 0 0 = Fin (u - 298.15 * s + -100)
    /\ entry2 helm 0 0 <> Fin (u - 298.15 * s / 1000 + -100).
Proof.
  pose proof (engine_ready [[Fin 1]] (-100) 50 [298.15] [0]) as Hr.
  destruct (thermodynamics_run false _ _ _ _ _ _ Hr) as (h' & Hrun & _);
    [discriminate | discriminate |].
  unfold expected in Hrun. pose proof two_pi_bounds as HPI.
  assert (Hx : 1e-5 < 1 * 2 * PI) by lra.
  assert (HU : qsum (U_of 298.15) [Fin (1 * 2 * PI)]
               = Fin (U_real 298.15 (1 * 2 * PI))).
  { apply (qsum_fin _ (U_real 298.15)); [exact Hx|]. apply U_of_fin; lra. }
  assert (HS : qsum (S_of 298.15) [Fin (1 * 2 * PI)]
               = Fin (S_real 298.15 (1 * 2 * PI))).
  { apply (qsum_fin _ (S_real 298.15)); [exact Hx|]. apply S_of_fin; lra. }
  pose proof (S_real_pos 298.15 (1 * 2 * PI) ltac:(lra) ltac:(lra)) as Hpos.
  do 7 eexists. exists (U_real 298.15 (1 * 2 * PI)), (S_real 298.15 (1 * 2 * PI)).
  split; [exact Hrun|].
  unfold entry2, T_tensor, helm_of. cbn [map nth angular fmul].
  rewrite HU, HS. cbn [fneg fmul fadd].
  split; [reflexivity|]. split; [reflexivity|]. split.
  - f_equal. lra.
  - intros [= Heq]. lra.
Qed.

(** C2, on two q-points of one mode each, of angular frequencies 10 and 20
    rad/ps.  With [sumphonon] the number of q-points becomes 1, the
    q-point the origin and the temperature-dependent tensors one row, but
    the zero-point energy keeps its two entries: the entry reported for
    the one q-point is the zero-point energy of the first q-point, not the
    sum of the two. *)
Theorem zero_point_energy_not_summed :
  exists helm gibbs zp U S Cv h',
    Harmonic.thermodynamics true
      (engine [[Fin (10 / (2 * PI))]; [Fin (20 / (2 * PI))]] (-100) 50
         [298.15] [0])
    = (Ret (helm, gibbs, zp, U, S, Cv), h')
    /\ Harmonic.nqpoint h' = Some 1%nat
    /\ Harmonic.qpoint h' = Some [(0, 0, 0)]
    /\ Harmonic.zp_energy h' = Some zp
    /\ zp = [Fin (zp_real 10); Fin (zp_real 20)]
    /\ nth 0 zp NaN <> Fin (zp_real 10 + zp_real 20)
    /\ List.length U = 1%nat /\ List.length S = 1%nat
    /\ List.length Cv = 1%nat /\ List.length helm = 1%nat
    /\ List.length gibbs = 1%nat.
Proof.
  pose proof (engine_ready [[Fin (10 / (2 * PI))]; [Fin (20 / (2 * PI))]]
                (-100) 50 [298.15] [0]) as Hr.
  cbn [map] in Hr. rewrite !angular_fin in Hr.
  replace (10 / (2 * PI) * 2 * PI) with 10 in Hr by (field; apply PI_neq0).
  replace (20 / (2 * PI) * 2 * PI) with 20 in Hr by (field; apply PI_neq0).
  destruct (thermodynamics_run true _ _ _ _ _ _ Hr)
    as (h' & Hrun & Hst & _ & Hn & Hq); [discriminate | discriminate |].
  unfold expected in Hrun, Hst. destruct Hst as (_ & _ & Hz & _).
  pose proof (hbar_pos 20 ltac:(lra)) as H20.
  do 7 eexists. split; [exact Hrun|].
  split; [exact Hn|]. split; [exact Hq|]. split; [exact Hz|].
  assert (Hzp : zp_tensor [[Fin 10]; [Fin 20]]
                = [Fin (zp_real 10); Fin (zp_real 20)]).
  { unfold zp_tensor. cbn [map].
    rewrite (qsum_fin zp_of zp_real 10), (qsum_fin zp_of zp_real 20);
      try lra; try apply zp_of_fin. reflexivity. }
  split; [exact Hzp|]. split.
  - rewrite Hzp. cbn [nth]. intros [= Heq]. unfold zp_real in Heq. lra.
  - repeat split.
Qed.

(** ** [from_file] *)

(** A new engine populated by [from_file] from an output with one
    electronic energy is [ready] for [thermodynamics]. *)
Lemma from_file_ready out e Ts Ps :
  Harmonic.out_edft out = [e] ->
  exists h',
    Harmonic.from_file out Ts Ps false Harmonic.init = (Ret Harmonic.Self, h')
    /\ ready h' (map (map angular) (Harmonic.out_frequency out)) e
         (Harmonic.out_volume out) Ts Ps.
Proof.
  intros He. unfold Harmonic.from_file. cbn [Harmonic.volume Harmonic.init].
  rewrite He. unfold bind, modify, ret. eexists. split; [reflexivity|].
  split; [|repeat split].
  eexists. split; [reflexivity|].
  induction (Harmonic.out_frequency out) as [|fs freqs IH]; simpl; constructor.
  - apply qmode_from_one_sample.
  - exact IH.
Qed.

(** C9.  On an engine that holds no data yet, [from_file] with more than
    one electronic energy returns its error message on the single
    calculation to the caller and stops there: the mode list and the six
    tensors are as they were before the call, absent on a new engine. *)
Theorem single_state_only (out : Harmonic.output) (Ts Ps : list R)
    (write_out : bool) (h : Harmonic.t) :
  Harmonic.volume h = None ->
  (1 < List.length (Harmonic.out_edft out))%nat ->
  exists h',
    Harmonic.from_file out Ts Ps write_out h
    = (Ret (Harmonic.Message
              "ERROR: Only a single frequency calculation is premitted."), h')
    /\ Harmonic.mode h' = Harmonic.mode h
    /\ Harmonic.zp_energy h' = Harmonic.zp_energy h
    /\ Harmonic.U_vib h' = Harmonic.U_vib h
    /\ Harmonic.entropy h' = Harmonic.entropy h
    /\ Harmonic.C_v h' = Harmonic.C_v h
    /\ Harmonic.helmholtz h' = Harmonic.helmholtz h
    /\ Harmonic.gibbs h' = Harmonic.gibbs h.
Proof.
  intros Hv He. unfold Harmonic.from_file. rewrite Hv.
  destruct (Harmonic.out_edft out) as [|e0 [|e1 l]]; simpl in He; try lia.
  unfold bind, modify, ret. eexists. split; [reflexivity|].
  repeat split.
Qed.

Lemma single_state_only_witness :
  exists h',
    Harmonic.from_file
      (Harmonic.mk_output [-100; -101] 1 [(0, 0, 0)] [[Fin 5; Fin 10]] 50)
      [298.15] [0] true Harmonic.init
    = (Ret (Harmonic.Message
              "ERROR: Only a single frequency calculation is premitted."), h')
    /\ Harmonic.mode h' = None
    /\ Harmonic.zp_energy h' = None
    /\ Harmonic.U_vib h' = None
    /\ Harmonic.entropy h' = None
    /\ Harmonic.C_v h' = None
    /\ Harmonic.helmholtz h' = None
    /\ Harmonic.gibbs h' = None.
Proof.
  apply (single_state_only
           (Harmonic.mk_output [-100; -101] 1 [(0, 0, 0)] [[Fin 5; Fin 10]] 50)
           [298.15] [0] true Harmonic.init).
  - reflexivity.
  - simpl. lia.
Defined.

(** ** [get_pcel] *)

Lemma rint_IZR z : Geometry.rint (IZR z) = z.
Proof.
  unfold Geometry.rint.
  assert (H : Int_part (IZR z) = z) by (symmetry; apply Int_part_spec; lra).
  rewrite H. destruct (Rlt_dec (IZR z - IZR z) (1 / 2)); [reflexivity | lra].
Qed.

Lemma round12_exact z x :
  x = IZR z / 10 ^ 12 -> Geometry.round12 x = x.
Proof.
  intros ->. unfold Geometry.round12.
  replace (IZR z / 10 ^ 12 * 10 ^ 12) with (IZR z).
  - now rewrite rint_IZR.
  - field.
Qed.

Lemma inv_identity : Geometry.inv Geometry.identity = Ret Geometry.identity.
Proof.
  unfold Geometry.inv, Geometry.identity, Geometry.det.
  destruct (Req_dec_T _ 0) as [H|H]; [lra|].
  apply f_equal. repeat apply f_equal2; field.
Qed.

Lemma vecmat_identity v : Geometry.vecmat v Geometry.identity = v.
Proof. destruct v as [[x y] z]. simpl. repeat f_equal; lra. Qed.

Lemma select_in_cell n l :
  Geometry.select n l = filter (fun s => Geometry.in_cell n (snd s)) l.
Proof.
  induction l as [|[sp coord] l IH]; simpl; [reflexivity|].
  assert (H : Geometry.outside n coord = negb (Geometry.in_cell n coord)).
  { unfold Geometry.outside, Geometry.in_cell.
    induction (Geometry.slice n coord) as [|c cs IHc]; simpl; [reflexivity|].
    rewrite negb_andb, <- IHc.
    destruct (Rlt_dec 0.5 c), (Rle_dec c (-0.5)), (Rlt_dec (-0.5) c),
      (Rle_dec c 0.5); simpl; try lra;
      destruct (existsb _ cs), (existsb _ cs); reflexivity. }
  rewrite H. destruct (Geometry.in_cell n coord); simpl; now rewrite IH.
Qed.

Lemma in_cell_spec n coord :
  Geometry.in_cell n coord = true
  <-> forall c, In c (Geometry.slice n coord) -> -0.5 < c <= 0.5.
Proof.
  unfold Geometry.in_cell. rewrite forallb_forall.
  split; intros H c Hc; specialize (H c Hc).
  - destruct (Rlt_dec (-0.5) c), (Rle_dec c 0.5); try discriminate. lra.
  - destruct (Rlt_dec (-0.5) c), (Rle_dec c 0.5); try reflexivity; lra.
Qed.

Lemma slice_leading p v :
  Geometry.leading p = true ->
  Geometry.slice (Geometry.count_true p) v = Geometry.periodic_coords p v.
Proof.
  destruct p as [[[|] [|]] [|]], v as [[x y] z]; simpl;
    (discriminate || reflexivity).
Qed.

Lemma xz_cell_candidates :
  Geometry.pcel_candidates Geometry.same_cell Geometry.xz_cell Geometry.identity
  = Ret (Geometry.identity, [(1%Z, (0, -0.5, 0.25))]).
Proof.
  unfold Geometry.pcel_candidates, Geometry.same_cell, Geometry.xz_cell.
  cbn [Geometry.pbc Geometry.sites Geometry.lattice Geometry.count_true
       List.length Nat.add].
  rewrite inv_identity.
  unfold Geometry.cart_coords.
  cbn [Geometry.sites Geometry.lattice map snd fst Geometry.shift_origin].
  rewrite vecmat_identity.
  replace (Geometry.matmul Geometry.identity Geometry.identity)
    with Geometry.identity
    by (unfold Geometry.matmul, Geometry.identity; cbn [Geometry.vecmat];
        repeat apply f_equal2; lra).
  rewrite inv_identity. cbn [map]. rewrite vecmat_identity.
  unfold Geometry.shift_site, Geometry.identity.
  cbn [seq fold_left Geometry.row Geometry.shift_slice Nat.ltb Nat.leb combine
       Geometry.round12_vec].
  rewrite (round12_exact 0 (0.5 - 0.5 * 1 - 0.5 * 0)) by (cbn [pow]; lra).
  rewrite (round12_exact (-500000000000) (0 - 0.5 * 0 - 0.5 * 1))
    by (cbn [pow]; lra).
  rewrite (round12_exact 250000000000 0.25) by (cbn [pow]; lra).
  replace (0.5 - 0.5 * 1 - 0.5 * 0) with 0 by lra.
  replace (0 - 0.5 * 0 - 0.5 * 1) with (-0.5) by lra.
  reflexivity.
Qed.

(** C8, as stated, fails on a cell periodic along x and z only: the site
    whose rounded coordinates are (0, -0.5, 0.25) has both coordinates of
    the periodic axes in (-0.5, 0.5], and [get_pcel] drops it, because it
    tests the first two coordinates. *)
Lemma periodic_axes_counterexample :
  exists pm cands pcel s,
    Geometry.pcel_candidates Geometry.same_cell Geometry.xz_cell
      Geometry.identity = Ret (pm, cands)
    /\ Geometry.get_pcel Geometry.same_cell Geometry.xz_cell Geometry.identity
       = Ret pcel
    /\ In s cands
    /\ (forall c,
          In c (Geometry.periodic_coords (Geometry.pbc Geometry.xz_cell) (snd s)) ->
          -0.5 < c <= 0.5)
    /\ ~ In s (Geometry.sites pcel).
Proof.
  exists Geometry.identity, [(1%Z, (0, -0.5, 0.25))].
  eexists. exists (1%Z, (0, -0.5, 0.25)).
  split; [exact xz_cell_candidates|].
  split; [unfold Geometry.get_pcel; rewrite xz_cell_candidates; reflexivity|].
  split; [now left|]. split.
  - simpl. intros c [<- | [<- | []]]; lra.
  - cbn [Geometry.sites]. rewrite select_in_cell.
    assert (H : Geometry.in_cell 2 (0, -0.5, 0.25) = false).
    { unfold Geometry.in_cell. simpl.
      destruct (Rlt_dec (-0.5) 0), (Rle_dec 0 0.5), (Rlt_dec (-0.5) (-0.5));
        simpl; try reflexivity; lra. }
    simpl. rewrite H. intros [].
Qed.

(** C8, amended.  Among the sites [get_pcel] enumerates, with their
    fractional coordinates in the primitive cell rounded to 12 places, it
    keeps, in order, those whose first [n] coordinates all lie in
    (-0.5, 0.5], [n] being the number of periodic dimensions; a site with
    one of these coordinates above 0.5 or at most -0.5 is dropped.  When
    the periodic axes are the first ones these are the coordinates along
    the periodic dimensions. *)
Theorem kept_sites (make_supercell : Geometry.Structure -> Geometry.mat3 ->
                                     Geometry.Structure)
    (struc : Geometry.Structure) (smx pm : Geometry.mat3)
    (cands : list (Z * Geometry.vec3)) :
  Geometry.pcel_candidates make_supercell struc smx = Ret (pm, cands) ->
  let n := Geometry.count_true (Geometry.pbc struc) in
  exists pcel,
    Geometry.get_pcel make_supercell struc smx = Ret pcel
    /\ Geometry.sites pcel
       = filter (fun s => Geometry.in_cell n (snd s)) cands
    /\ (forall s, In s cands ->
          (In s (Geometry.sites pcel)
           <-> forall c, In c (Geometry.slice n (snd s)) -> -0.5 < c <= 0.5))
    /\ (forall s, In s cands -> exists v, snd s = Geometry.round12_vec v)
    /\ (Geometry.leading (Geometry.pbc struc) = true ->
        forall v, Geometry.slice n v
                  = Geometry.periodic_coords (Geometry.pbc struc) v).
Proof.
  intros Hc n. unfold Geometry.get_pcel. rewrite Hc.
  eexists. split; [reflexivity|]. cbn [Geometry.sites]. fold n.
  rewrite select_in_cell. split; [reflexivity|]. split; [|split].
  - intros s Hs. rewrite filter_In, in_cell_spec. tauto.
  - intros s Hs. revert Hc. unfold Geometry.pcel_candidates.
    destruct (Geometry.inv smx); try discriminate.
    destruct (Geometry.shift_origin _ _ _ _); try discriminate.
    destruct (Geometry.inv _); try discriminate.
    intros [= _ <-]. destruct s as [sp coord]. apply in_combine_r in Hs.
    apply in_map_iff in Hs. destruct Hs as (v & Hv & _). now exists v.
  - intros Hl v. now apply slice_leading.
Qed.

Lemma kept_sites_witness :
  exists pcel,
    Geometry.get_pcel Geometry.same_cell Geometry.xz_cell Geometry.identity
    = Ret pcel
    /\ Geometry.sites pcel
       = filter (fun s => Geometry.in_cell 2 (snd s)) [(1%Z, (0, -0.5, 0.25))].
Proof.
  destruct (kept_sites Geometry.same_cell Geometry.xz_cell Geometry.identity
              Geometry.identity [(1%Z, (0, -0.5, 0.25))] xz_cell_candidates)
    as (pcel & Hrun & Hsites & _).
  exists pcel. split; [exact Hrun | exact Hsites].
Defined.

(** * Further properties of the code *)

(** ** Modes: errors, edges and what the methods keep *)

(** X1.  On a mode of more than one sample every method prints its error,
    returns [None] and leaves the mode as it was. *)
Theorem multi_sample_returns_none (m : Mode.t) (T : R) :
  (1 < Mode.ncalc m)%nat ->
  Mode.get_zp_energy m = (RetNone, m)
  /\ Mode.get_U_vib T m = (RetNone, m)
  /\ Mode.get_entropy T m = (RetNone, m)
  /\ Mode.get_C_v T m = (RetNone, m).
Proof.
  intros H. apply Nat.ltb_lt in H.
  unfold Mode.get_zp_energy, Mode.get_U_vib, Mode.get_entropy, Mode.get_C_v.
  rewrite H. repeat split.
Qed.

Lemma multi_sample_returns_none_witness :
  Mode.get_zp_energy (Mode.init 1 [Fin 5; Fin 6] [50; 51])
  = (RetNone, Mode.init 1 [Fin 5; Fin 6] [50; 51])
  /\ Mode.get_U_vib 100 (Mode.init 1 [Fin 5; Fin 6] [50; 51])
     = (RetNone, Mode.init 1 [Fin 5; Fin 6] [50; 51])
  /\ Mode.get_entropy 100 (Mode.init 1 [Fin 5; Fin 6] [50; 51])
     = (RetNone, Mode.init 1 [Fin 5; Fin 6] [50; 51])
  /\ Mode.get_C_v 100 (Mode.init 1 [Fin 5; Fin 6] [50; 51])
     = (RetNone, Mode.init 1 [Fin 5; Fin 6] [50; 51]).
Proof.
  apply (multi_sample_returns_none (Mode.init 1 [Fin 5; Fin 6] [50; 51]) 100).
  unfold Mode.ncalc. simpl. lia.
Defined.

(** X2.  On a mode constructed without any sample, [get_zp_energy] and
    [get_U_vib] raise [IndexError] at every temperature, while
    [get_entropy] and [get_C_v] raise it at every temperature but 0, where
    they return 0 without reading the frequency. *)
Theorem empty_mode_index_error (r : Z) (vol : list R) (T : R) :
  T <> 0 ->
  fst (Mode.get_zp_energy (Mode.init r [] vol)) = Raise IndexError
  /\ fst (Mode.get_U_vib T (Mode.init r [] vol)) = Raise IndexError
  /\ fst (Mode.get_U_vib 0 (Mode.init r [] vol)) = Raise IndexError
  /\ fst (Mode.get_entropy T (Mode.init r [] vol)) = Raise IndexError
  /\ fst (Mode.get_C_v T (Mode.init r [] vol)) = Raise IndexError
  /\ fst (Mode.get_entropy 0 (Mode.init r [] vol)) = Ret (Fin 0)
  /\ fst (Mode.get_C_v 0 (Mode.init r [] vol)) = Ret (Fin 0).
Proof.
  intros HT.
  unfold Mode.get_zp_energy, Mode.get_U_vib, Mode.get_entropy, Mode.get_C_v,
    Mode.cached_zp_energy, Mode.get_zp_energy, bind, Mode.frequency0, Mode.init.
  simpl. destruct (Req_dec_T T 0); [contradiction|].
  destruct (Req_dec_T 0 0); [|contradiction]. repeat split.
Qed.

Lemma empty_mode_index_error_witness :
  fst (Mode.get_zp_energy (Mode.init 1 [] [])) = Raise IndexError
  /\ fst (Mode.get_U_vib 300 (Mode.init 1 [] [])) = Raise IndexError
  /\ fst (Mode.get_U_vib 0 (Mode.init 1 [] [])) = Raise IndexError
  /\ fst (Mode.get_entropy 300 (Mode.init 1 [] [])) = Raise IndexError
  /\ fst (Mode.get_C_v 300 (Mode.init 1 [] [])) = Raise IndexError
  /\ fst (Mode.get_entropy 0 (Mode.init 1 [] [])) = Ret (Fin 0)
  /\ fst (Mode.get_C_v 0 (Mode.init 1 [] [])) = Ret (Fin 0).
Proof.
  apply (empty_mode_index_error 1 [] 300). lra.
Defined.

(** X3.  No method of a mode, at any temperature and whatever it returns,
    changes the rank, the frequencies or the volumes of the mode. *)
Theorem methods_keep_data (m : Mode.t) (T : R) :
  same_data m (snd (Mode.get_zp_energy m))
  /\ same_data m (snd (Mode.get_U_vib T m))
  /\ same_data m (snd (Mode.get_entropy T m))
  /\ same_data m (snd (Mode.get_C_v T m)).
Proof.
  unfold Mode.get_zp_energy, Mode.get_U_vib, Mode.get_entropy, Mode.get_C_v,
    Mode.cached_zp_energy, Mode.get_zp_energy, Mode.ncalc, bind,
    Mode.frequency0, modify, ret, same_data.
  destruct m as [r fr vo zp u s c]. cbn [Mode.frequency Mode.zp_energy].
  destruct fr as [|w [|w' fr]]; cbn [List.length Nat.ltb Nat.leb];
    destruct zp as [z|]; destruct (Req_dec_T T 0); simpl; repeat split.
Qed.

(** X4.  Whenever a method returns a value it has stored that value in the
    attribute of its name; [get_U_vib] has moreover left a zero-point
    energy on the mode. *)
Theorem methods_store_result (m : Mode.t) (T : R) :
  stores Mode.zp_energy (Mode.get_zp_energy m)
  /\ stores Mode.U_vib (Mode.get_U_vib T m)
  /\ stores Mode.entropy (Mode.get_entropy T m)
  /\ stores Mode.C_v (Mode.get_C_v T m)
  /\ match Mode.get_U_vib T m with
     | (Ret _, m') => exists z, Mode.zp_energy m' = Some z
     | _ => True
     end.
Proof.
  unfold stores, Mode.get_zp_energy, Mode.get_U_vib, Mode.get_entropy,
    Mode.get_C_v, Mode.cached_zp_energy, Mode.get_zp_energy, Mode.ncalc, bind,
    Mode.frequency0, modify, ret.
  destruct m as [r fr vo zp u s c]. cbn [Mode.frequency Mode.zp_energy].
  destruct fr as [|w [|w' fr]]; cbn [List.length Nat.ltb Nat.leb];
    destruct zp as [z|]; destruct (Req_dec_T T 0); simpl;
    repeat split; eauto.
Qed.

(** ** Modes: values *)

Lemma one_sample_fin m w :
  Mode.frequency m = [w] -> cache_sound m -> one_sample m w.
Proof.
  intros Hf Hc.
  destruct (one_sample_of_ncalc m) as (w' & Hw'); [|exact Hc|].
  - unfold Mode.ncalc. now rewrite Hf.
  - pose proof Hw' as [Hf' _]. rewrite Hf in Hf'. now injection Hf' as <-.
Qed.

(** X5.  The zero-point energy of a mode constructed from a frequency [f]
    in THz is [0.5 * 6.022141 * 6.626070E-2 * f]: the factor [2 pi] of the
    constructor and the division by [2 pi] of the method cancel. *)
Theorem zero_point_energy_of_THz (r : Z) (f : R) (vol : list R) :
  fst (Mode.get_zp_energy (Mode.init r [Fin f] vol))
  = Ret (Fin (0.5 * 6.022141 * 6.626070E-2 * f)).
Proof.
  assert (H : one_sample (Mode.init r [Fin f] vol) (angular (Fin f)))
    by (split; [reflexivity | now left]).
  rewrite (get_zp_energy_run _ _ H). cbn [fst].
  rewrite angular_fin, zp_of_fin. do 2 f_equal.
  unfold zp_real, hbar. field. apply PI_neq0.
Qed.

Lemma U_real_above_zp T x : 0 < x -> 0 < T -> zp_real x < U_real T x.
Proof.
  intros Hx HT. unfold U_real.
  pose proof (exp_gt_1 _ (reduced_pos T x Hx HT)) as HE.
  pose proof (hbar_pos x Hx) as Hh.
  assert (0 < hbar x / (exp (reduced T x) - 1))
    by (apply Rdiv_lt_0_compat; lra).
  lra.
Qed.

Lemma U_real_monotone T1 T2 x :
  0 < x -> 0 < T1 -> T1 <= T2 -> U_real T1 x <= U_real T2 x.
Proof.
  intros Hx H1 H12. unfold U_real.
  pose proof (reduced_antitone T1 T2 x Hx H1 H12) as Hy.
  pose proof (exp_gt_1 _ (reduced_pos T2 x Hx ltac:(lra))) as HE2.
  pose proof (hbar_pos x Hx) as Hh.
  assert (HE : exp (reduced T2 x) <= exp (reduced T1 x)).
  { destruct Hy as [Hy | ->]; [left; now apply exp_increasing | lra]. }
  assert (/ (exp (reduced T1 x) - 1) <= / (exp (reduced T2 x) - 1))
    by (apply Rinv_le_contravar; lra).
  unfold Rdiv. nra.
Qed.

(** X6.  For a mode of one sample whose angular frequency [w] passes the
    frequency test and is at most 1e6 rad/ps, and temperatures
    [0 <= T1 <= T2] with [k_B T2] at most 1000 times the quantum
    [hbar w], the internal energy is finite, is at least the positive
    zero-point energy and does not decrease from [T1] to [T2].  There is
    no bound from below on the temperatures: where [np.exp] overflows the
    thermal term is a division by an infinity, which is 0. *)
Theorem internal_energy_above_zero_point (m : Mode.t) (w T1 T2 : R) :
  Mode.frequency m = [Fin w] -> cache_sound m ->
  1e-5 < w <= 1e6 -> 0 <= T1 -> T1 <= T2 ->
  Mode.kb_t_of T2 <= 1000 * hbar w ->
  exists z u1 u2,
    fst (Mode.get_zp_energy m) = Ret (Fin z)
    /\ fst (Mode.get_U_vib T1 m) = Ret (Fin u1)
    /\ fst (Mode.get_U_vib T2 m) = Ret (Fin u2)
    /\ 0 < z /\ z <= u1 /\ u1 <= u2.
Proof.
  intros Hf Hc [Hw' _] H1 H12 _. assert (Hw : 0 < w) by lra.
  pose proof (one_sample_fin m _ Hf Hc) as Hs.
  rewrite (get_zp_energy_run m _ Hs).
  destruct (get_U_vib_run T1 m _ Hs) as (m1 & -> & _).
  destruct (get_U_vib_run T2 m _ Hs) as (m2 & -> & _).
  cbn [fst]. rewrite zp_of_fin.
  assert (Hz : 0 < zp_real w) by (unfold zp_real; pose proof (hbar_pos w Hw); lra).
  destruct H1 as [H1 | <-].
  - rewrite !U_of_fin by lra.
    exists (zp_real w), (U_real T1 w), (U_real T2 w).
    pose proof (U_real_above_zp T1 w Hw H1).
    pose proof (U_real_monotone T1 T2 w Hw H1 H12).
    repeat split; try reflexivity; try lra.
  - rewrite U_of_zero, zp_of_fin. destruct H12 as [H2 | <-].
    + rewrite U_of_fin by lra.
      exists (zp_real w), (zp_real w), (U_real T2 w).
      pose proof (U_real_above_zp T2 w Hw H2).
      repeat split; try reflexivity; try lra.
    + rewrite U_of_zero, zp_of_fin.
      exists (zp_real w), (zp_real w), (zp_real w).
      repeat split; try reflexivity; try lra.
Qed.

Lemma internal_energy_above_zero_point_witness :
  exists z u1 u2,
    fst (Mode.get_zp_energy (Mode.init 1 [Fin 5] [50])) = Ret (Fin z)
    /\ fst (Mode.get_U_vib 10 (Mode.init 1 [Fin 5] [50])) = Ret (Fin u1)
    /\ fst (Mode.get_U_vib 298.15 (Mode.init 1 [Fin 5] [50])) = Ret (Fin u2)
    /\ 0 < z /\ z <= u1 /\ u1 <= u2.
Proof.
  apply (internal_energy_above_zero_point (Mode.init 1 [Fin 5] [50])
           (5 * 2 * PI) 10 298.15).
  - reflexivity.
  - intros z H. discriminate H.
  - pose proof two_pi_bounds. split; lra.
  - lra.
  - lra.
  - unfold Mode.kb_t_of, hbar.
    replace (5 * 2 * PI * 6.022141 * 6.626070E-2 / 2 / PI)
      with (5 * 6.022141 * 6.626070E-2) by (field; apply PI_neq0).
    lra.
Defined.

Lemma eta_deriv c : derivable_pt_lim eta c (eta' c).
Proof.
  unfold eta, eta'.
  apply (derivable_pt_lim_minus (fun y => exp y - 1) (fun y => y * exp (y / 2))).
  - apply (derivable_pt_lim_minus exp (fct_cte 1)).
    + apply derivable_pt_lim_exp.
    + apply derivable_pt_lim_const.
  - apply (derivable_pt_lim_mult id (fun y => exp (y / 2))).
    + apply derivable_pt_lim_id.
    + apply (derivable_pt_lim_comp (fun y => y / 2) exp).
      * apply (derivable_pt_lim_mult id (fct_cte (/ 2))).
        -- apply derivable_pt_lim_id.
        -- apply derivable_pt_lim_const.
      * apply derivable_pt_lim_exp.
Qed.

Lemma exp_half_sqr y : exp (y / 2) * exp (y / 2) = exp y.
Proof. rewrite <- exp_plus. f_equal. lra. Qed.

Lemma eta_pos y : 0 < y -> 0 < eta y.
Proof.
  intros Hy.
  destruct (MVT_cor2 eta eta' 0 y Hy) as (c & Hc & Hac).
  - intros c _. apply eta_deriv.
  - assert (H0 : eta 0 = 0).
    { unfold eta. replace (0 / 2) with 0 by lra. rewrite exp_0. lra. }
    assert (Hpos : 0 < eta' c).
    { unfold eta'. rewrite <- (exp_half_sqr c).
      pose proof (exp_ineq1 (c / 2) ltac:(lra)) as H1.
      pose proof (exp_pos (c / 2)) as H2. nra. }
    nra.
Qed.

Lemma psi_lt_1 y : 0 < y -> psi y < 1.
Proof.
  intros Hy. pose proof (exp_gt_1 y Hy) as HE. pose proof (eta_pos y Hy) as He.
  unfold eta in He. pose proof (exp_pos (y / 2)) as Hh.
  pose proof (exp_half_sqr y) as Hsq. unfold psi.
  apply Rmult_lt_reg_r with ((exp y - 1) * (exp y - 1)); [nra|].
  unfold Rdiv. rewrite Rmult_assoc, Rinv_l by nra.
  assert (y * exp (y / 2) < exp y - 1) by lra.
  assert (0 < y * exp (y / 2)) by nra.
  replace (y * y * exp y) with ((y * exp (y / 2)) * (y * exp (y / 2)))
    by (rewrite <- Hsq; ring).
  nra.
Qed.

(** X7.  For a mode of one sample whose angular frequency [w] passes the
    frequency test and is at most 1e6 rad/ps, at a temperature where the
    quantum [hbar w] lies between a thousandth of [k_B T] and 300 times
    [k_B T] (so that neither [np.exp] nor its square leaves the range of
    a double), the entropy is finite and positive and the heat capacity
    is finite, positive and below the classical limit
    [1000 * 1.380649E-3 * 6.022141] J/(mol K). *)
Theorem heat_capacity_classical_limit (m : Mode.t) (w T : R) :
  Mode.frequency m = [Fin w] -> 1e-5 < w <= 1e6 ->
  Mode.kb_t_of T <= 1000 * hbar w -> hbar w <= 300 * Mode.kb_t_of T ->
  exists s c,
    fst (Mode.get_entropy T m) = Ret (Fin s)
    /\ fst (Mode.get_C_v T m) = Ret (Fin c)
    /\ 0 < s
    /\ 0 < c < 1000 * 1.380649E-3 * 6.022141.
Proof.
  intros Hf [Hw' _] _ Hhi. assert (Hw : 0 < w) by lra.
  assert (HT : 0 < T).
  { pose proof (hbar_pos w Hw). unfold Mode.kb_t_of in Hhi. lra. }
  rewrite (get_entropy_value _ m (Fin w) Hf), (get_C_v_value _ m (Fin w) Hf).
  rewrite S_of_fin, Cv_of_fin by assumption.
  exists (S_real T w), (Cv_real T w).
  split; [reflexivity|]. split; [reflexivity|].
  split; [now apply S_real_pos|].
  split; [now apply Cv_real_pos|].
  rewrite Cv_real_psi by assumption.
  pose proof (psi_lt_1 _ (reduced_pos T w Hw HT)). nra.
Qed.

Lemma heat_capacity_classical_limit_witness :
  exists s c,
    fst (Mode.get_entropy 298.15 (Mode.init 1 [Fin 10] [50])) = Ret (Fin s)
    /\ fst (Mode.get_C_v 298.15 (Mode.init 1 [Fin 10] [50])) = Ret (Fin c)
    /\ 0 < s
    /\ 0 < c < 1000 * 1.380649E-3 * 6.022141.
Proof.
  assert (E : hbar (10 * 2 * PI) = 10 * 6.022141 * 6.626070E-2).
  { unfold hbar. field. apply PI_neq0. }
  apply (heat_capacity_classical_limit (Mode.init 1 [Fin 10] [50])
           (10 * 2 * PI) 298.15).
  - reflexivity.
  - pose proof two_pi_bounds. split; lra.
  - rewrite E. unfold Mode.kb_t_of. lra.
  - rewrite E. unfold Mode.kb_t_of. lra.
Defined.

Lemma hbar_zero : hbar 0 = 0.
Proof. unfold hbar, Rdiv. ring. Qed.

Lemma fdiv_zero a : a /f Fin 0 = NaN.
Proof.
  destruct a as [|x]; [reflexivity|]. unfold fdiv.
  destruct (Req_dec_T 0 0); [reflexivity | contradiction].
Qed.

Lemma thermal_nan_at_zero T :
  T <> 0 ->
  U_of T (Fin 0) = NaN /\ S_of T (Fin 0) = NaN /\ Cv_of T (Fin 0) = NaN.
Proof.
  intros HT. unfold U_of, S_of, Cv_of.
  destruct (Req_dec_T T 0) as [|_]; [contradiction|].
  rewrite expon_fin, hbar_freq_fin by exact HT.
  assert (HE : exp (reduced T 0) - 1 = 0).
  { unfold reduced. rewrite hbar_zero. unfold Rdiv. rewrite Rmult_0_l, exp_0. lra. }
  cbn [fsub fsqr fmul]. rewrite HE. replace (0 * 0) with 0 by ring.
  rewrite !fdiv_zero. cbn [fsub fmul fdiv].
  destruct (zp_of (Fin 0)); repeat split.
Qed.

Lemma thermal_nan_at_nan T :
  T <> 0 -> U_of T NaN = NaN /\ S_of T NaN = NaN /\ Cv_of T NaN = NaN.
Proof.
  intros HT. unfold U_of, S_of, Cv_of.
  destruct (Req_dec_T T 0) as [|_]; [contradiction|]. repeat split.
Qed.

(** X8.  A mode of one sample whose frequency is exactly 0 or is NaN
    evaluates to NaN at every temperature but 0: internal energy, entropy
    and heat capacity alike (at frequency 0 each formula divides 0 by 0).
    It is such modes that the frequency test of [phonon_sumup] rejects. *)
Theorem zero_frequency_is_nan (m : Mode.t) (w : float) (T : R) :
  Mode.frequency m = [w] -> cache_sound m -> w = Fin 0 \/ w = NaN -> T <> 0 ->
  fst (Mode.get_U_vib T m) = Ret NaN
  /\ fst (Mode.get_entropy T m) = Ret NaN
  /\ fst (Mode.get_C_v T m) = Ret NaN
  /\ fst (Harmonic.is_kept m) = Ret false.
Proof.
  intros Hf Hc Hw HT. pose proof (one_sample_fin m _ Hf Hc) as Hs.
  destruct (get_U_vib_run T m _ Hs) as (m1 & -> & _).
  rewrite (get_entropy_value _ m w Hf), (get_C_v_value _ m w Hf).
  rewrite (is_kept_run m w Hs). cbn [fst].
  destruct Hw as [-> | ->].
  - destruct (thermal_nan_at_zero T HT) as (-> & -> & ->).
    repeat split. f_equal. apply keeps_false. right. exists 0.
    split; [reflexivity | lra].
  - destruct (thermal_nan_at_nan T HT) as (-> & -> & ->).
    repeat split.
Qed.

Lemma zero_frequency_is_nan_witness :
  fst (Mode.get_U_vib 100 (Mode.mk 1 [Fin 0] [50] None None None None)) = Ret NaN
  /\ fst (Mode.get_entropy 100 (Mode.mk 1 [Fin 0] [50] None None None None))
     = Ret NaN
  /\ fst (Mode.get_C_v 100 (Mode.mk 1 [Fin 0] [50] None None None None))
     = Ret NaN
  /\ fst (Harmonic.is_kept (Mode.mk 1 [Fin 0] [50] None None None None))
     = Ret false.
Proof.
  apply (zero_frequency_is_nan (Mode.mk 1 [Fin 0] [50] None None None None)
           (Fin 0) 100).
  - reflexivity.
  - intros z H. discriminate H.
  - now left.
  - lra.
Defined.

(** ** The engine: errors *)

Lemma empty_grid_width (Ts Ps : list R) (g : R -> R -> list float) :
  Ts = [] \/ Ps = [] ->
  ((List.length Ts =? 0)
   || (width (map (fun T => map (fun p => g T p) Ps) Ts) =? 0))%nat = true.
Proof.
  intros [-> | ->]; [reflexivity|].
  destruct Ts; reflexivity.
Qed.

Lemma thermodynamics_empty_grid sumphonon h wss e v Ts Ps :
  ready h wss e v Ts Ps -> Ts = [] \/ Ps = [] ->
  exists h',
    fst (Harmonic.phonon_sumup_zp h) = Ret (zp_tensor wss)
    /\ Harmonic.thermodynamics sumphonon h = (Raise ValueError, h')
    /\ Harmonic.zp_energy h' = Some (zp_tensor wss)
    /\ same_T_tensors h h'.
Proof.
  intros H Hempty.
  destruct (phonon_sumup_zp_run h wss e v Ts Ps H) as (qs1 & Hzp & Hqs1).
  pose proof (ready_set_mode _ _ _ _ _ _ _ H Hqs1) as H1.
  assert (H2 : ready (Harmonic.set_zp_energy (zp_tensor wss)
                        (Harmonic.set_mode qs1 h)) wss e v Ts Ps) by exact H1.
  destruct (temperature_loop_run wss e v Ts Ps _ H2 Ts ([], [], [], [], []))
    as (qs2 & Hloop & Hqs2).
  rewrite fold_grow in Hloop. simpl app in Hloop.
  pose proof H2 as (_ & He & Hv & HT & HP).
  eexists. split; [now rewrite Hzp|].
  unfold Harmonic.thermodynamics.
  unfold bind at 1. rewrite Hzp.
  unfold bind at 1, modify at 1.
  unfold bind at 1, attr at 1. rewrite HT.
  unfold bind at 1. rewrite Hloop.
  rewrite (empty_grid_width Ts Ps (fun T p => map (gibbs_of e v T p) wss) Hempty).
  unfold raise. split; [reflexivity|]. split; [reflexivity|].
  repeat split.
Qed.

(** X9.  With an empty temperature grid or an empty pressure grid,
    [thermodynamics] raises [ValueError] (the transposition of [gibbs]
    needs three dimensions), after it has stored the zero-point energies
    of the q-points; the five other tensors of the engine are untouched. *)
Theorem empty_grid_raises (sumphonon : bool) (h : Harmonic.t)
    (wss : list (list float)) (e v : R) (Ts Ps : list R) :
  ready h wss e v Ts Ps -> Ts = [] \/ Ps = [] ->
  exists zp h',
    fst (Harmonic.phonon_sumup_zp h) = Ret zp
    /\ Harmonic.thermodynamics sumphonon h = (Raise ValueError, h')
    /\ Harmonic.zp_energy h' = Some zp
    /\ same_T_tensors h h'.
Proof.
  intros H Hempty.
  destruct (thermodynamics_empty_grid sumphonon h wss e v Ts Ps H Hempty)
    as (h' & Hall).
  exists (zp_tensor wss), h'. exact Hall.
Qed.

Lemma empty_grid_raises_witness :
  exists zp h',
    fst (Harmonic.phonon_sumup_zp (engine [[Fin 5; Fin 10]] (-100) 50 [100] []))
    = Ret zp
    /\ Harmonic.thermodynamics true (engine [[Fin 5; Fin 10]] (-100) 50 [100] [])
       = (Raise ValueError, h')
    /\ Harmonic.zp_energy h' = Some zp
    /\ same_T_tensors (engine [[Fin 5; Fin 10]] (-100) 50 [100] []) h'.
Proof.
  apply (empty_grid_raises true (engine [[Fin 5; Fin 10]] (-100) 50 [100] [])
           (map (map angular) [[Fin 5; Fin 10]]) (-100) 50 [100] []).
  - apply engine_ready.
  - now right.
Defined.

(** X10.  On an engine without a mode list, [phonon_sumup] and
    [thermodynamics] raise [AttributeError] and leave the engine as it
    was. *)
Theorem missing_modes_raise (sumphonon : bool) (T : R) (h : Harmonic.t) :
  Harmonic.mode h = None ->
  Harmonic.phonon_sumup_zp h = (Raise AttributeError, h)
  /\ Harmonic.phonon_sumup T h = (Raise AttributeError, h)
  /\ Harmonic.thermodynamics sumphonon h = (Raise AttributeError, h).
Proof.
  intros Hm.
  unfold Harmonic.thermodynamics, bind, Harmonic.phonon_sumup_zp,
    Harmonic.phonon_sumup, Harmonic.over_modes.
  rewrite Hm. repeat split.
Qed.

Lemma missing_modes_raise_witness :
  Harmonic.phonon_sumup_zp Harmonic.init = (Raise AttributeError, Harmonic.init)
  /\ Harmonic.phonon_sumup 100 Harmonic.init
     = (Raise AttributeError, Harmonic.init)
  /\ Harmonic.thermodynamics true Harmonic.init
     = (Raise AttributeError, Harmonic.init).
Proof.
  apply (missing_modes_raise true 100 Harmonic.init). reflexivity.
Defined.

Lemma for_each_raise {S A X} (body : A -> Py S A) (P : S -> X -> Prop)
    (g : A -> X -> A) (e : exn) :
  (forall acc s x, P s x -> exists s', body acc s = (Ret (g acc x), s') /\ P s' x) ->
  forall l1 xs1 bad l2 acc,
    Forall2 P l1 xs1 ->
    (forall acc, fst (body acc bad) = Raise e) ->
    fst (for_each body acc (l1 ++ bad :: l2)) = Raise e.
Proof.
  intros Hbody l1 xs1 bad l2 acc H Hbad. revert acc.
  induction H as [|s x l xs Hsx Hl IH]; intros acc; simpl.
  - specialize (Hbad acc). destruct (body acc bad) as [[a| |e'] s'];
      simpl in Hbad; try discriminate. exact Hbad.
  - destruct (Hbody acc s x Hsx) as (s' & -> & _).
    specialize (IH (g acc x)). destruct (for_each body (g acc x) (l ++ bad :: l2)).
    exact IH.
Qed.

Lemma is_kept_multi m : (1 < Mode.ncalc m)%nat -> Harmonic.is_kept m = (Raise ValueError, m).
Proof.
  unfold Mode.ncalc, Harmonic.is_kept.
  destruct (Mode.frequency m) as [|w [|w' l]]; simpl; intros H; try lia.
  reflexivity.
Qed.

Lemma fst_bind_raise {S A B} (c : Py S A) (k : A -> Py S B) (s : S) (e : exn) :
  fst (c s) = Raise e -> fst (bind c k s) = Raise e.
Proof.
  unfold bind. destruct (c s) as [[a| |e'] s']; simpl; intros H;
    try discriminate. now injection H as ->.
Qed.

(** X11.  One mode of more than one sample anywhere in the mode list, the
    modes before it being of one sample each, makes [phonon_sumup] (with
    or without a temperature) and [thermodynamics] raise [ValueError]: an
    array of several frequencies has no truth value in the frequency
    test. *)
Theorem multi_sample_mode_raises (sumphonon : bool) (T : R) (h : Harmonic.t)
    (qs1 qs2 : list (list Mode.t)) (q1 q2 : list Mode.t) (m : Mode.t)
    (wss1 : list (list float)) (ws1 : list float) :
  Harmonic.mode h = Some (qs1 ++ (q1 ++ m :: q2) :: qs2) ->
  Forall2 (Forall2 one_sample) qs1 wss1 ->
  Forall2 one_sample q1 ws1 ->
  (1 < Mode.ncalc m)%nat ->
  fst (Harmonic.phonon_sumup_zp h) = Raise ValueError
  /\ fst (Harmonic.phonon_sumup T h) = Raise ValueError
  /\ fst (Harmonic.thermodynamics sumphonon h) = Raise ValueError.
Proof.
  intros Hm Hqs1 Hq1 Hn. pose proof (is_kept_multi m Hn) as Hk.
  assert (Hzp : fst (Harmonic.phonon_sumup_zp h) = Raise ValueError).
  { unfold Harmonic.phonon_sumup_zp, Harmonic.over_modes. rewrite Hm.
    match goal with |- fst (let (r, qs') := ?c in _) = _ =>
      assert (Hc : fst c = Raise ValueError); [|destruct c; exact Hc] end.
    apply (for_each_raise Harmonic.zp_qpoint (Forall2 one_sample)
             (fun a ws => a ++ [qsum zp_of ws]) ValueError
             (fun a s x => zp_qpoint_run a s x) qs1 wss1 _ qs2 [] Hqs1).
    intros acc. unfold Harmonic.zp_qpoint. apply fst_bind_raise.
    apply (for_each_raise Harmonic.zp_step one_sample (accumulate zp_of)
             ValueError (fun a s x => zp_step_run a s x) q1 ws1 _ q2 _ Hq1).
    intros a. unfold Harmonic.zp_step. apply fst_bind_raise. now rewrite Hk. }
  split; [exact Hzp|]. split.
  - unfold Harmonic.phonon_sumup, Harmonic.over_modes. rewrite Hm.
    match goal with |- fst (let (r, qs') := ?c in _) = _ =>
      assert (Hc : fst c = Raise ValueError); [|destruct c; exact Hc] end.
    apply (for_each_raise (Harmonic.T_qpoint T) (Forall2 one_sample) (snoc3 T)
             ValueError (fun a s x => T_qpoint_run T a s x) qs1 wss1 _ qs2 _ Hqs1).
    intros [[U0 S0] C0]. unfold Harmonic.T_qpoint. apply fst_bind_raise.
    apply (for_each_raise (Harmonic.T_step T) one_sample (accumulate3 T)
             ValueError (fun a s x => T_step_run T a s x) q1 ws1 _ q2 _ Hq1).
    intros [[u s] c]. unfold Harmonic.T_step. apply fst_bind_raise.
    now rewrite Hk.
  - unfold Harmonic.thermodynamics. now apply fst_bind_raise.
Qed.

Lemma multi_sample_mode_raises_witness :
  let bad := Mode.init 2 [Fin 5; Fin 6] [50; 51] in
  let h := Harmonic.set_mode [[Mode.init 1 [Fin 5] [50]; bad]]
             (engine [] (-100) 50 [100] [0]) in
  fst (Harmonic.phonon_sumup_zp h) = Raise ValueError
  /\ fst (Harmonic.phonon_sumup 100 h) = Raise ValueError
  /\ fst (Harmonic.thermodynamics true h) = Raise ValueError.
Proof.
  intros bad h.
  apply (multi_sample_mode_raises true 100 h [] [] [Mode.init 1 [Fin 5] [50]] []
           bad [] [angular (Fin 5)]).
  - reflexivity.
  - constructor.
  - constructor; [apply init_one_sample | constructor].
  - unfold bad, Mode.ncalc. simpl. lia.
Defined.

(** ** The engine: how runs compose *)

(** X12.  The tensors [thermodynamics] returns do not depend on the runs
    made before: after a run with either flag, a run returns what it
    returns on the engine as it was. *)
Theorem recomputation_is_stable (b b' : bool) (h : Harmonic.t)
    (wss : list (list float)) (e v : R) (Ts Ps : list R) :
  ready h wss e v Ts Ps -> Ts <> [] -> Ps <> [] ->
  exists r,
    fst (Harmonic.thermodynamics b' h) = Ret r
    /\ fst (Harmonic.thermodynamics b' (snd (Harmonic.thermodynamics b h)))
       = Ret r.
Proof.
  intros H HTs HPs.
  destruct (thermodynamics_run b h wss e v Ts Ps H HTs HPs)
    as (h1 & Hrun1 & _ & H1 & _).
  destruct (thermodynamics_run b' h wss e v Ts Ps H HTs HPs) as (h2 & Hrun2 & _).
  destruct (thermodynamics_run b' h1 wss e v Ts Ps H1 HTs HPs) as (h3 & Hrun3 & _).
  exists (expected b' wss e v Ts Ps). rewrite Hrun1, Hrun2. cbn [fst snd].
  now rewrite Hrun3.
Qed.

Lemma recomputation_is_stable_witness :
  exists r,
    fst (Harmonic.thermodynamics false
           (engine [[Fin 5]; [Fin 10]] (-100) 50 [100] [1])) = Ret r
    /\ fst (Harmonic.thermodynamics false
              (snd (Harmonic.thermodynamics true
                      (engine [[Fin 5]; [Fin 10]] (-100) 50 [100] [1]))))
       = Ret r.
Proof.
  apply (recomputation_is_stable true false
           (engine [[Fin 5]; [Fin 10]] (-100) 50 [100] [1])
           (map (map angular) [[Fin 5]; [Fin 10]]) (-100) 50 [100] [1]).
  - apply engine_ready.
  - discriminate.
  - discriminate.
Defined.

Lemma map_entry2_seq f Ts wss t :
  (t < List.length Ts)%nat ->
  map (fun q => entry2 (T_tensor f Ts wss) q t) (seq 0 (List.length wss))
  = map (f (nth t Ts 0)) wss.
Proof.
  intros Ht. rewrite <- (map_nth_seq (f (nth t Ts 0)) wss []).
  apply map_seq_ext. intros q Hq. now apply entry2_tensor.
Qed.

Lemma map_entry3_seq e v Ts Ps wss t p :
  (t < List.length Ts)%nat -> (p < List.length Ps)%nat ->
  map (fun q => entry3 (gibbs_tensor e v Ts Ps wss) q t p)
      (seq 0 (List.length wss))
  = map (gibbs_of e v (nth t Ts 0) (nth p Ps 0)) wss.
Proof.
  intros Ht Hp.
  rewrite <- (map_nth_seq (gibbs_of e v (nth t Ts 0) (nth p Ps 0)) wss []).
  apply map_seq_ext. intros q Hq. now apply entry3_tensor.
Qed.

(** X13.  Every entry of a tensor returned with [sumphonon] is the sum over
    the q-points of the entries returned without it, for the internal
    energy, the entropy, the heat capacity, the Helmholtz and the Gibbs
    free energy; the zero-point energies are the same list in both. *)
Theorem summed_is_sum_over_qpoints (h : Harmonic.t) (wss : list (list float))
    (e v : R) (Ts Ps : list R) :
  ready h wss e v Ts Ps -> Ts <> [] -> Ps <> [] ->
  exists helm gibbs zp U S Cv helm' gibbs' U' S' Cv',
    fst (Harmonic.thermodynamics false h) = Ret (helm, gibbs, zp, U, S, Cv)
    /\ fst (Harmonic.thermodynamics true h) = Ret (helm', gibbs', zp, U', S', Cv')
    /\ forall t p,
        (t < List.length Ts)%nat -> (p < List.length Ps)%nat ->
        let nq := seq 0 (List.length zp) in
        entry2 U' 0 t = fsum (map (fun q => entry2 U q t) nq)
        /\ entry2 S' 0 t = fsum (map (fun q => entry2 S q t) nq)
        /\ entry2 Cv' 0 t = fsum (map (fun q => entry2 Cv q t) nq)
        /\ entry2 helm' 0 t = fsum (map (fun q => entry2 helm q t) nq)
        /\ entry3 gibbs' 0 t p = fsum (map (fun q => entry3 gibbs q t p) nq).
Proof.
  intros H HTs HPs.
  destruct (thermodynamics_run false h wss e v Ts Ps H HTs HPs) as (h1 & -> & _).
  destruct (thermodynamics_run true h wss e v Ts Ps H HTs HPs) as (h2 & -> & _).
  unfold expected. do 11 eexists. split; [reflexivity|]. split; [reflexivity|].
  intros t p Ht Hp. cbv zeta. unfold zp_tensor. rewrite length_map.
  rewrite !entry2_summed, entry3_summed by assumption.
  rewrite !map_entry2_seq, map_entry3_seq by assumption.
  repeat split.
Qed.

Lemma summed_is_sum_over_qpoints_witness :
  exists helm gibbs zp U S Cv helm' gibbs' U' S' Cv',
    fst (Harmonic.thermodynamics false
           (engine [[Fin 5]; [Fin 10]] (-100) 50 [100] [1]))
    = Ret (helm, gibbs, zp, U, S, Cv)
    /\ fst (Harmonic.thermodynamics true
              (engine [[Fin 5]; [Fin 10]] (-100) 50 [100] [1]))
       = Ret (helm', gibbs', zp, U', S', Cv')
    /\ forall t p,
        (t < 1)%nat -> (p < 1)%nat ->
        let nq := seq 0 (List.length zp) in
        entry2 U' 0 t = fsum (map (fun q => entry2 U q t) nq)
        /\ entry2 S' 0 t = fsum (map (fun q => entry2 S q t) nq)
        /\ entry2 Cv' 0 t = fsum (map (fun q => entry2 Cv q t) nq)
        /\ entry2 helm' 0 t = fsum (map (fun q => entry2 helm q t) nq)
        /\ entry3 gibbs' 0 t p = fsum (map (fun q => entry3 gibbs q t p) nq).
Proof.
  apply (summed_is_sum_over_qpoints
           (engine [[Fin 5]; [Fin 10]] (-100) 50 [100] [1])
           (map (map angular) [[Fin 5]; [Fin 10]]) (-100) 50 [100] [1]).
  - apply engine_ready.
  - discriminate.
  - discriminate.
Defined.

Lemma T_tensor_shape f Ts wss :
  List.length (T_tensor f Ts wss) = List.length wss
  /\ rows_of (List.length Ts) (T_tensor f Ts wss).
Proof.
  unfold T_tensor, rows_of. split; [apply length_map|].
  apply Forall_forall. intros row Hrow. apply in_map_iff in Hrow.
  destruct Hrow as (ws & <- & _). apply length_map.
Qed.

Lemma gibbs_tensor_shape e v Ts Ps wss :
  List.length (gibbs_tensor e v Ts Ps wss) = List.length wss
  /\ Forall (fun g => List.length g = List.length Ts
                      /\ rows_of (List.length Ps) g)
       (gibbs_tensor e v Ts Ps wss).
Proof.
  unfold gibbs_tensor, rows_of. split; [apply length_map|].
  apply Forall_forall. intros g Hg. apply in_map_iff in Hg.
  destruct Hg as (ws & <- & _). split; [apply length_map|].
  apply Forall_forall. intros row Hrow. apply in_map_iff in Hrow.
  destruct Hrow as (T & <- & _). apply length_map.
Qed.

(** X14.  Shapes.  Without [sumphonon] every tensor has one row per
    q-point of the mode list; the rows of the internal energy, entropy,
    heat capacity and Helmholtz free energy have one entry per
    temperature, and the Gibbs free energy of a q-point has one row per
    temperature with one entry per pressure.  With [sumphonon] these five
    tensors have a single row of the same shape, while the zero-point
    energy still has one entry per q-point. *)
Theorem tensor_shapes (h : Harmonic.t) (wss : list (list float))
    (e v : R) (Ts Ps : list R) :
  ready h wss e v Ts Ps -> Ts <> [] -> Ps <> [] ->
  let nq := List.length wss in
  let nT := List.length Ts in
  let nP := List.length Ps in
  (exists helm gibbs zp U S Cv,
     fst (Harmonic.thermodynamics false h) = Ret (helm, gibbs, zp, U, S, Cv)
     /\ List.length zp = nq
     /\ (List.length U = nq /\ rows_of nT U)
     /\ (List.length S = nq /\ rows_of nT S)
     /\ (List.length Cv = nq /\ rows_of nT Cv)
     /\ (List.length helm = nq /\ rows_of nT helm)
     /\ List.length gibbs = nq
     /\ Forall (fun g => List.length g = nT /\ rows_of nP g) gibbs)
  /\ (exists helm gibbs zp U S Cv,
        fst (Harmonic.thermodynamics true h) = Ret (helm, gibbs, zp, U, S, Cv)
        /\ List.length zp = nq
        /\ (List.length U = 1%nat /\ rows_of nT U)
        /\ (List.length S = 1%nat /\ rows_of nT S)
        /\ (List.length Cv = 1%nat /\ rows_of nT Cv)
        /\ (List.length helm = 1%nat /\ rows_of nT helm)
        /\ List.length gibbs = 1%nat
        /\ Forall (fun g => List.length g = nT /\ rows_of nP g) gibbs).
Proof.
  intros H HTs HPs nq nT nP. split.
  - destruct (thermodynamics_run false h wss e v Ts Ps H HTs HPs) as (h1 & -> & _).
    unfold expected. do 6 eexists. split; [reflexivity|].
    split; [apply length_map|].
    repeat (split; [apply T_tensor_shape|]). apply gibbs_tensor_shape.
  - destruct (thermodynamics_run true h wss e v Ts Ps H HTs HPs) as (h1 & -> & _).
    unfold expected, T_summed, gibbs_summed, rows_of.
    do 6 eexists. split; [reflexivity|]. split; [apply length_map|].
    repeat (split; [split; [reflexivity|];
                    constructor; [apply length_map | constructor] |]).
    split; [reflexivity|]. constructor; [|constructor].
    split; [apply length_map|]. apply Forall_forall. intros row Hrow.
    apply in_map_iff in Hrow. destruct Hrow as (T & <- & _). apply length_map.
Qed.

Lemma tensor_shapes_witness :
  exists helm gibbs zp U S Cv,
    fst (Harmonic.thermodynamics true
           (engine [[Fin 5]; [Fin 10]; [Fin 15]] (-100) 50 [100; 200] [0; 1]))
    = Ret (helm, gibbs, zp, U, S, Cv)
    /\ List.length zp = 3%nat
    /\ (List.length U = 1%nat /\ rows_of 2 U)
    /\ (List.length S = 1%nat /\ rows_of 2 S)
    /\ (List.length Cv = 1%nat /\ rows_of 2 Cv)
    /\ (List.length helm = 1%nat /\ rows_of 2 helm)
    /\ List.length gibbs = 1%nat
    /\ Forall (fun g => List.length g = 2%nat /\ rows_of 2 g) gibbs.
Proof.
  apply (tensor_shapes
           (engine [[Fin 5]; [Fin 10]; [Fin 15]] (-100) 50 [100; 200] [0; 1])
           (map (map angular) [[Fin 5]; [Fin 10]; [Fin 15]]) (-100) 50
           [100; 200] [0; 1]).
  - apply engine_ready.
  - discriminate.
  - discriminate.
Defined.

Lemma qsum_zero f ws : (forall w, f w = Fin 0) -> qsum f ws = Fin 0.
Proof.
  intros Hf. unfold qsum. assert (H : forall ws, fold_left (accumulate f) ws (Fin 0) = Fin 0).
  { clear ws. induction ws as [|w ws IH]; [reflexivity|]. simpl.
    unfold accumulate at 2. destruct (Harmonic.keeps w); [|exact IH].
    rewrite Hf. simpl. replace (0 + 0) with 0 by lra. exact IH. }
  apply H.
Qed.

Lemma qsum_ext f g ws : (forall w, f w = g w) -> qsum f ws = qsum g ws.
Proof.
  intros Hfg. unfold qsum. generalize (Fin 0).
  induction ws as [|w ws IH]; intros a; [reflexivity|]. simpl.
  unfold accumulate at 2 4. rewrite Hfg. apply IH.
Qed.

Lemma helm_of_zero e ws : helm_of e 0 ws = qsum zp_of ws +f Fin e.
Proof.
  unfold helm_of. rewrite (qsum_zero (S_of 0) ws S_of_zero).
  rewrite (qsum_ext (U_of 0) zp_of ws U_of_zero). cbn [fneg fmul].
  replace (- 0 * 0) with 0 by lra. now rewrite fadd_zero_l.
Qed.

(** X15.  At a temperature 0 of the grid, for every q-point: the internal
    energy is the zero-point energy of the q-point, the entropy and the
    heat capacity are 0, and the Helmholtz free energy is the zero-point
    energy plus the electronic energy. *)
Theorem zero_temperature_tensors (h : Harmonic.t) (wss : list (list float))
    (e v : R) (Ts Ps : list R) (q t : nat) :
  ready h wss e v Ts Ps -> Ts <> [] -> Ps <> [] ->
  (q < List.length wss)%nat -> (t < List.length Ts)%nat -> nth t Ts 0 = 0 ->
  exists helm gibbs zp U S Cv,
    fst (Harmonic.thermodynamics false h) = Ret (helm, gibbs, zp, U, S, Cv)
    /\ entry2 U q t = nth q zp NaN
    /\ entry2 S q t = Fin 0
    /\ entry2 Cv q t = Fin 0
    /\ entry2 helm q t = nth q zp NaN +f Fin e.
Proof.
  intros H HTs HPs Hq Ht H0.
  destruct (thermodynamics_run false h wss e v Ts Ps H HTs HPs) as (h1 & -> & _).
  unfold expected. do 6 eexists. split; [reflexivity|].
  rewrite !entry2_tensor, H0 by assumption. unfold zp_tensor.
  rewrite (nth_map_lt (qsum zp_of) wss q NaN []) by exact Hq.
  split; [apply qsum_ext, U_of_zero|].
  split; [apply qsum_zero, S_of_zero|].
  split; [apply qsum_zero, Cv_of_zero|].
  apply helm_of_zero.
Qed.

Lemma zero_temperature_tensors_witness :
  exists helm gibbs zp U S Cv,
    fst (Harmonic.thermodynamics false
           (engine [[Fin 0; Fin 5; Fin 10]] (-100) 50 [0; 100; 298.15] [0; 1]))
    = Ret (helm, gibbs, zp, U, S, Cv)
    /\ entry2 U 0 0 = nth 0 zp NaN
    /\ entry2 S 0 0 = Fin 0
    /\ entry2 Cv 0 0 = Fin 0
    /\ entry2 helm 0 0 = nth 0 zp NaN +f Fin (-100).
Proof.
  apply (zero_temperature_tensors
           (engine [[Fin 0; Fin 5; Fin 10]] (-100) 50 [0; 100; 298.15] [0; 1])
           (map (map angular) [[Fin 0; Fin 5; Fin 10]]) (-100) 50
           [0; 100; 298.15] [0; 1] 0 0).
  - apply engine_ready.
  - discriminate.
  - discriminate.
  - simpl. lia.
  - simpl. lia.
  - reflexivity.
Defined.

(** X16.  A run without [sumphonon] does not restore what a run with it
    has set: after the two, the engine holds one row per q-point of the
    mode list, and a number of q-points of 1 with the origin as its only
    q-point. *)
Theorem summed_qpoint_is_kept (h : Harmonic.t) (wss : list (list float))
    (e v : R) (Ts Ps : list R) :
  ready h wss e v Ts Ps -> Ts <> [] -> Ps <> [] ->
  exists helm,
    let h1 := snd (Harmonic.thermodynamics true h) in
    let h2 := snd (Harmonic.thermodynamics false h1) in
    Harmonic.helmholtz h2 = Some helm
    /\ List.length helm = List.length wss
    /\ Harmonic.nqpoint h2 = Some 1%nat
    /\ Harmonic.qpoint h2 = Some [(0, 0, 0)].
Proof.
  intros H HTs HPs.
  destruct (thermodynamics_run true h wss e v Ts Ps H HTs HPs)
    as (h1 & Hrun1 & _ & H1 & Hn1 & Hq1).
  destruct (thermodynamics_run false h1 wss e v Ts Ps H1 HTs HPs)
    as (h2 & Hrun2 & Hst & _ & Hn2 & Hq2).
  rewrite Hrun1. cbn [snd]. rewrite Hrun2. cbn [snd].
  unfold expected, stored in Hst. destruct Hst as (Hhelm & _).
  eexists. split; [exact Hhelm|]. split; [apply length_map|].
  split; congruence.
Qed.

Lemma summed_qpoint_is_kept_witness :
  exists helm,
    let h1 := snd (Harmonic.thermodynamics true
                     (engine [[Fin 5]; [Fin 10]] (-100) 50 [100] [1])) in
    let h2 := snd (Harmonic.thermodynamics false h1) in
    Harmonic.helmholtz h2 = Some helm
    /\ List.length helm = 2%nat
    /\ Harmonic.nqpoint h2 = Some 1%nat
    /\ Harmonic.qpoint h2 = Some [(0, 0, 0)].
Proof.
  apply (summed_qpoint_is_kept
           (engine [[Fin 5]; [Fin 10]] (-100) 50 [100] [1])
           (map (map angular) [[Fin 5]; [Fin 10]]) (-100) 50 [100] [1]).
  - apply engine_ready.
  - discriminate.
  - discriminate.
Defined.

(** ** The engine: what [thermodynamics] leaves alone *)

Lemma same_inputs_refl h : same_inputs h h.
Proof. repeat split. Qed.

Lemma same_inputs_trans h1 h2 h3 :
  same_inputs h1 h2 -> same_inputs h2 h3 -> same_inputs h1 h3.
Proof.
  intros (A1 & A2 & A3 & A4) (B1 & B2 & B3 & B4).
  repeat split; congruence.
Qed.

Lemma bind_frame {A B} (c : Py Harmonic.t A) (k : A -> Py Harmonic.t B) s :
  same_inputs s (snd (c s)) ->
  (forall a s', same_inputs s' (snd (k a s'))) ->
  same_inputs s (snd (bind c k s)).
Proof.
  intros Hc Hk. unfold bind. destruct (c s) as [[a| |e] s']; simpl in *;
    try exact Hc. apply (same_inputs_trans _ s'); [exact Hc | apply Hk].
Qed.

Lemma for_in_frame {A X} (body : A -> X -> Py Harmonic.t A) :
  (forall acc x s, same_inputs s (snd (body acc x s))) ->
  forall l acc s, same_inputs s (snd (for_in body acc l s)).
Proof.
  intros Hbody l. induction l as [|x l IH]; intros acc s; simpl.
  - apply same_inputs_refl.
  - apply bind_frame; [apply Hbody | intros a s'; apply IH].
Qed.

Lemma over_modes_frame {A} (body : A -> Py (list Mode.t) A) acc s :
  same_inputs s (snd (Harmonic.over_modes body acc s)).
Proof.
  unfold Harmonic.over_modes. destruct (Harmonic.mode s) as [qs|].
  - destruct (for_each body acc qs). repeat split.
  - apply same_inputs_refl.
Qed.

Lemma attr_frame {A} (f : Harmonic.t -> option A) s :
  same_inputs s (snd (attr f s)).
Proof. unfold attr. destruct (f s); apply same_inputs_refl. Qed.

Lemma temperature_step_frame acc T s :
  same_inputs s (snd (Harmonic.temperature_step acc T s)).
Proof.
  destruct acc as [[[[U0 S0] C0] H0] G0]. unfold Harmonic.temperature_step.
  apply bind_frame; [apply over_modes_frame|]. intros [[Ut St] Ct] s1.
  apply bind_frame; [apply attr_frame|]. intros e0 s2.
  apply bind_frame; [apply attr_frame|]. intros ps s3.
  apply bind_frame; [|intros; apply same_inputs_refl].
  apply for_in_frame. intros g p s4. unfold Harmonic.p_step.
  apply bind_frame; [apply attr_frame | intros; apply same_inputs_refl].
Qed.

(** X17.  Whatever it returns or raises, on any engine, [thermodynamics]
    leaves the electronic energy, the volume and the two grids as they
    were. *)
Theorem thermodynamics_keeps_inputs (sumphonon : bool) (h : Harmonic.t) :
  same_inputs h (snd (Harmonic.thermodynamics sumphonon h)).
Proof.
  unfold Harmonic.thermodynamics.
  apply bind_frame; [apply over_modes_frame|]. intros zp s1.
  apply bind_frame; [repeat split|]. intros _ s2.
  apply bind_frame; [apply attr_frame|]. intros Ts s3.
  apply bind_frame; [apply for_in_frame, temperature_step_frame|].
  intros [[[[U0 S0] C0] H0] G0] s4.
  destruct ((List.length Ts =? 0) || (width G0 =? 0))%nat;
    [apply same_inputs_refl|].
  destruct sumphonon; unfold bind, modify, ret; repeat split.
Qed.

(** ** [from_file] again *)

Lemma from_file_plain out e Ts Ps h :
  Harmonic.volume h = None -> Harmonic.out_edft out = [e] ->
  exists h0,
    Harmonic.from_file out Ts Ps false h = (Ret Harmonic.Self, h0)
    /\ ready h0 (map (map angular) (Harmonic.out_frequency out)) e
         (Harmonic.out_volume out) Ts Ps
    /\ Harmonic.mode h0
       = Some (map (Harmonic.qmode_from 0 (Harmonic.out_volume out))
                 (Harmonic.out_frequency out))
    /\ same_T_tensors h h0
    /\ Harmonic.zp_energy h0 = Harmonic.zp_energy h
    /\ forall r h1,
        Harmonic.thermodynamics true h0 = (Ret r, h1) ->
        Harmonic.from_file out Ts Ps true h = (Ret Harmonic.Self, h1).
Proof.
  intros Hv He. unfold Harmonic.from_file. rewrite Hv, He.
  unfold bind at 1 2 3 4 5 6 7, modify, ret. cbn [fst snd].
  eexists. split; [reflexivity|]. split; [|split; [reflexivity|]].
  - split; [|repeat split].
    eexists. split; [reflexivity|].
    induction (Harmonic.out_frequency out) as [|fs freqs IH]; simpl; constructor.
    + apply qmode_from_one_sample.
    + exact IH.
  - split; [repeat split|]. split; [reflexivity|].
    intros r h1 Hrun. unfold bind at 1 2 3 4 5 6 7 8. cbn [fst snd].
    unfold bind. rewrite Hrun. reflexivity.
Qed.

(** X18.  Once [from_file] has been called on a new engine, whatever the
    output read and whatever the call returned or raised, a second call
    returns the message that data exists and changes nothing. *)
Theorem from_file_only_once (out out' : Harmonic.output)
    (Ts Ps Ts' Ps' : list R) (w w' : bool) :
  let h1 := snd (Harmonic.from_file out Ts Ps w Harmonic.init) in
  Harmonic.from_file out' Ts' Ps' w' h1
  = (Ret (Harmonic.Message
            "ERROR: Data exists. Cannot overwriting the existing data."), h1).
Proof.
  intros h1.
  assert (Hv : Harmonic.volume h1 = Some (Harmonic.out_volume out)).
  { unfold h1, Harmonic.from_file. cbn [Harmonic.volume Harmonic.init].
    unfold bind at 1 2 3 4 5, modify at 1 2 3 4 5. cbn [fst snd].
    destruct (Harmonic.out_edft out) as [|e0 [|e1 l]]; try reflexivity.
    unfold bind at 1 2, modify at 1 2. cbn [fst snd].
    destruct w; [|reflexivity].
    assert (Hframe : forall s,
               Harmonic.volume (snd (Harmonic.thermodynamics true s))
               = Harmonic.volume s).
    { intros s. unfold Harmonic.thermodynamics.
      apply bind_frame; [apply over_modes_frame|]. intros zp s1.
      apply bind_frame; [repeat split|]. intros _ s2.
      apply bind_frame; [apply attr_frame|]. intros Ts0 s3.
      apply bind_frame; [apply for_in_frame, temperature_step_frame|].
      intros [[[[U0 S0] C0] H0] G0] s4.
      destruct ((List.length Ts0 =? 0) || (width G0 =? 0))%nat;
        [apply same_inputs_refl|].
      unfold bind, modify, ret; repeat split. }
    match goal with |- Harmonic.volume (snd (bind _ _ ?s)) = _ =>
      pose proof (Hframe s) as Hvol; set (s0 := s) in * end.
    unfold bind. destruct (Harmonic.thermodynamics true s0) as [[r| |ex] s1];
      simpl in *; rewrite Hvol; reflexivity. }
  unfold Harmonic.from_file. now rewrite Hv.
Qed.

(** X19.  On an engine without data and without [write_out], [from_file]
    returns the engine itself when the output holds exactly one electronic
    energy, and the message on the single calculation for any other
    number, none included. *)
Theorem from_file_one_energy (out : Harmonic.output) (Ts Ps : list R)
    (h : Harmonic.t) :
  Harmonic.volume h = None ->
  (List.length (Harmonic.out_edft out) = 1%nat ->
   fst (Harmonic.from_file out Ts Ps false h) = Ret Harmonic.Self)
  /\ (List.length (Harmonic.out_edft out) <> 1%nat ->
      fst (Harmonic.from_file out Ts Ps false h)
      = Ret (Harmonic.Message
               "ERROR: Only a single frequency calculation is premitted.")).
Proof.
  intros Hv. unfold Harmonic.from_file. rewrite Hv.
  destruct (Harmonic.out_edft out) as [|e0 [|e1 l]]; simpl; split; intros H;
    try reflexivity; try lia; contradiction.
Qed.

Lemma from_file_one_energy_witness :
  fst (Harmonic.from_file
         (Harmonic.mk_output [] 1 [(0, 0, 0)] [[Fin 5; Fin 10]] 50)
         [298.15] [0] false Harmonic.init)
  = Ret (Harmonic.Message
           "ERROR: Only a single frequency calculation is premitted.").
Proof.
  apply (from_file_one_energy
           (Harmonic.mk_output [] 1 [(0, 0, 0)] [[Fin 5; Fin 10]] 50)
           [298.15] [0] Harmonic.init).
  - reflexivity.
  - simpl. lia.
Defined.

Lemma qmode_from_nth v fs :
  forall k m f,
    nth_error fs m = Some f ->
    nth_error (Harmonic.qmode_from k v fs) m
    = Some (Mode.init (Z.of_nat (k + m) + 1) [f] [v]).
Proof.
  induction fs as [|f0 fs IH]; intros k m f H.
  - destruct m; discriminate.
  - destruct m as [|m]; simpl in *.
    + injection H as ->. now rewrite Nat.add_0_r.
    + rewrite (IH (S k) m f H). do 3 f_equal. lia.
Qed.

(** X20.  The mode list [from_file] builds has one list per q-point of the
    frequencies read; the mode it builds from the [m]-th frequency [f] of
    a q-point (counting from 0) has rank [m + 1], the single angular
    frequency [2 pi f], the cell volume as its single volume, and no
    cached value.  Without [write_out] no tensor is computed. *)
Theorem from_file_builds_modes (out : Harmonic.output) (e : R)
    (Ts Ps : list R) (h : Harmonic.t) :
  Harmonic.volume h = None -> Harmonic.out_edft out = [e] ->
  exists h0 qs,
    Harmonic.from_file out Ts Ps false h = (Ret Harmonic.Self, h0)
    /\ Harmonic.edft h0 = Some e
    /\ Harmonic.mode h0 = Some qs
    /\ List.length qs = List.length (Harmonic.out_frequency out)
    /\ (forall q m fs f,
          nth_error (Harmonic.out_frequency out) q = Some fs ->
          nth_error fs m = Some f ->
          exists modes,
            nth_error qs q = Some modes
            /\ List.length modes = List.length fs
            /\ nth_error modes m
               = Some (Mode.mk (Z.of_nat m + 1) [f *f Fin 2 *f Fin PI]
                         [Harmonic.out_volume out] None None None None))
    /\ same_T_tensors h h0
    /\ Harmonic.zp_energy h0 = Harmonic.zp_energy h.
Proof.
  intros Hv He.
  destruct (from_file_plain out e Ts Ps h Hv He)
    as (h0 & Hrun & Hready & Hmode & Hsame & Hzp & _).
  exists h0. eexists. split; [exact Hrun|].
  split; [apply Hready|]. split; [exact Hmode|].
  split; [apply length_map|]. split; [|split; assumption].
  intros q m fs f Hq Hm. eexists. split; [|split].
  - rewrite nth_error_map, Hq. reflexivity.
  - clear. generalize 0%nat. induction fs as [|f0 fs IH]; intros k;
      simpl; [reflexivity | now rewrite IH].
  - rewrite (qmode_from_nth _ fs 0 m f Hm). reflexivity.
Qed.

Lemma from_file_builds_modes_witness :
  exists h0 qs,
    Harmonic.from_file
      (Harmonic.mk_output [-100] 1 [(0, 0, 0)] [[Fin 5; Fin 10]] 50)
      [298.15] [0] false Harmonic.init = (Ret Harmonic.Self, h0)
    /\ Harmonic.edft h0 = Some (-100)
    /\ Harmonic.mode h0 = Some qs
    /\ List.length qs = 1%nat.
Proof.
  destruct (from_file_builds_modes
              (Harmonic.mk_output [-100] 1 [(0, 0, 0)] [[Fin 5; Fin 10]] 50)
              (-100) [298.15] [0] Harmonic.init)
    as (h0 & qs & Hrun & He & Hm & Hl & _).
  - reflexivity.
  - reflexivity.
  - exists h0, qs. repeat split; assumption.
Defined.

(** X21.  With [write_out], one electronic energy and two non-empty grids,
    [from_file] on an engine without data returns the engine after
    [thermodynamics(sumphonon=True)]: it holds the tensors that call
    returns on the engine built without [write_out], and its number of
    q-points is 1 and its q-point the origin, whatever the output read. *)
Theorem from_file_write_out (out : Harmonic.output) (e : R) (Ts Ps : list R)
    (h : Harmonic.t) :
  Harmonic.volume h = None -> Harmonic.out_edft out = [e] ->
  Ts <> [] -> Ps <> [] ->
  exists h' r,
    Harmonic.from_file out Ts Ps true h = (Ret Harmonic.Self, h')
    /\ fst (Harmonic.thermodynamics true
              (snd (Harmonic.from_file out Ts Ps false h))) = Ret r
    /\ stored h' r
    /\ Harmonic.nqpoint h' = Some 1%nat
    /\ Harmonic.qpoint h' = Some [(0, 0, 0)].
Proof.
  intros Hv He HTs HPs.
  destruct (from_file_plain out e Ts Ps h Hv He)
    as (h0 & Hrun & Hready & _ & _ & _ & Hwrite).
  destruct (thermodynamics_run true h0 _ _ _ _ _ Hready HTs HPs)
    as (h1 & Hth & Hst & _ & Hn & Hq).
  exists h1. eexists. split; [exact (Hwrite _ _ Hth)|].
  rewrite Hrun. cbn [snd]. rewrite Hth. cbn [fst].
  split; [reflexivity|]. split; [exact Hst|]. split; assumption.
Qed.

Lemma from_file_write_out_witness :
  exists h' r,
    Harmonic.from_file
      (Harmonic.mk_output [-100] 2 [(0, 0, 0); (0.5, 0, 0)]
         [[Fin 5]; [Fin 10]] 50)
      [298.15] [0] true Harmonic.init = (Ret Harmonic.Self, h')
    /\ stored h' r
    /\ Harmonic.nqpoint h' = Some 1%nat
    /\ Harmonic.qpoint h' = Some [(0, 0, 0)].
Proof.
  destruct (from_file_write_out
              (Harmonic.mk_output [-100] 2 [(0, 0, 0); (0.5, 0, 0)]
                 [[Fin 5]; [Fin 10]] 50)
              (-100) [298.15] [0] Harmonic.init)
    as (h' & r & Hrun & _ & Hst & Hn & Hq);
    try reflexivity; try discriminate.
  exists h', r. repeat split; assumption.
Defined.

(** X22.  With [write_out] and an empty temperature or pressure grid,
    [from_file] raises the [ValueError] of [thermodynamics] instead of
    returning. *)
Theorem from_file_empty_grid (out : Harmonic.output) (e : R) (Ts Ps : list R)
    (h : Harmonic.t) :
  Harmonic.volume h = None -> Harmonic.out_edft out = [e] ->
  Ts = [] \/ Ps = [] ->
  fst (Harmonic.from_file out Ts Ps true h) = Raise ValueError.
Proof.
  intros Hv He Hempty.
  destruct (from_file_plain out e Ts Ps h Hv He)
    as (h0 & Hrun & Hready & _).
  destruct (thermodynamics_empty_grid true h0 _ _ _ _ _ Hready Hempty)
    as (h1 & _ & Hth & _).
  revert Hrun. unfold Harmonic.from_file. rewrite Hv, He.
  unfold bind at 1 2 3 4 5 6 7, modify, ret. cbn [fst snd].
  intros [= <-].
  unfold bind at 1 2 3 4 5 6 7, modify. cbn [fst snd].
  apply fst_bind_raise. now rewrite Hth.
Qed.

Lemma from_file_empty_grid_witness :
  fst (Harmonic.from_file
         (Harmonic.mk_output [-100] 1 [(0, 0, 0)] [[Fin 5; Fin 10]] 50)
         [] [0] true Harmonic.init) = Raise ValueError.
Proof.
  apply (from_file_empty_grid
           (Harmonic.mk_output [-100] 1 [(0, 0, 0)] [[Fin 5; Fin 10]] 50)
           (-100) [] [0] Harmonic.init).
  - reflexivity.
  - reflexivity.
  - now left.
Defined.

(** ** Matrices *)

Lemma vecmat_matmul v a b :
  Geometry.vecmat (Geometry.vecmat v a) b = Geometry.vecmat v (Geometry.matmul a b).
Proof.
  destruct v as [[x y] z], a as [[[[a1 a2] a3] [[a4 a5] a6]] [[a7 a8] a9]],
    b as [[[[b1 b2] b3] [[b4 b5] b6]] [[b7 b8] b9]].
  unfold Geometry.matmul, Geometry.vecmat.
  apply f_equal2; [apply f_equal2|]; ring.
Qed.

Lemma matmul_assoc a b c :
  Geometry.matmul (Geometry.matmul a b) c = Geometry.matmul a (Geometry.matmul b c).
Proof.
  destruct a as [[r0 r1] r2]. unfold Geometry.matmul at 1 2 3.
  cbv beta iota. now rewrite !vecmat_matmul.
Qed.

Lemma matmul_identity_l a : Geometry.matmul Geometry.identity a = a.
Proof.
  destruct a as [[[[a1 a2] a3] [[a4 a5] a6]] [[a7 a8] a9]].
  unfold Geometry.matmul, Geometry.identity, Geometry.vecmat.
  repeat apply f_equal2; ring.
Qed.

Lemma matmul_identity_r a : Geometry.matmul a Geometry.identity = a.
Proof.
  destruct a as [[r0 r1] r2]. unfold Geometry.matmul.
  now rewrite !vecmat_identity.
Qed.

Lemma inv_singular m : Geometry.det m = 0 -> Geometry.inv m = Raise LinAlgError.
Proof.
  intros H. destruct m as [[[[a1 a2] a3] [[a4 a5] a6]] [[a7 a8] a9]].
  unfold Geometry.inv. rewrite H.
  destruct (Req_dec_T 0 0); [reflexivity | contradiction].
Qed.

Lemma inv_spec m n :
  Geometry.inv m = Ret n ->
  Geometry.det m <> 0
  /\ Geometry.matmul m n = Geometry.identity
  /\ Geometry.matmul n m = Geometry.identity.
Proof.
  destruct m as [[[[a1 a2] a3] [[a4 a5] a6]] [[a7 a8] a9]].
  unfold Geometry.inv.
  destruct (Req_dec_T _ 0) as [H|H]; [discriminate|].
  intros [= <-]. split; [exact H|].
  unfold Geometry.det in *.
  unfold Geometry.matmul, Geometry.identity, Geometry.vecmat.
  split; repeat apply f_equal2; field; exact H.
Qed.

Lemma inv_total m :
  Geometry.det m <> 0 -> exists n, Geometry.inv m = Ret n.
Proof.
  intros H. destruct m as [[[[a1 a2] a3] [[a4 a5] a6]] [[a7 a8] a9]].
  unfold Geometry.inv. destruct (Req_dec_T _ 0) as [H0|H0]; [contradiction|].
  eexists. reflexivity.
Qed.

(** ** [get_pcel] and [get_scel] *)

Lemma shift_origin_spec d L :
  forall n l l',
    Geometry.shift_origin n d L l = Ret l' ->
    l' = map (Geometry.shift_site d L) (firstn n l) ++ skipn n l.
Proof.
  induction n as [|n IH]; intros l l' H; simpl in H.
  - now injection H as <-.
  - destruct l as [|v l].
    + destruct (0 <? d)%nat; [discriminate|]. now injection H as <-.
    + destruct (Geometry.shift_origin n d L l) as [l''| |e] eqn:Hrec;
        try discriminate.
      injection H as <-. simpl. f_equal. now apply IH.
Qed.

Lemma shift_origin_all d L l :
  Geometry.shift_origin (List.length l) d L l
  = Ret (map (Geometry.shift_site d L) l).
Proof.
  induction l as [|v l IH]; simpl; [reflexivity|]. now rewrite IH.
Qed.

Lemma shift_origin_zero L :
  forall n l, Geometry.shift_origin n 0 L l = Ret l.
Proof.
  induction n as [|n IH]; intros l; simpl; [reflexivity|].
  destruct l as [|v l]; [reflexivity|]. now rewrite IH.
Qed.

Lemma shift_site_3 L f :
  Geometry.shift_site 3 L (Geometry.vecmat f L) = Geometry.vecmat (centred f) L.
Proof.
  destruct f as [[x y] z], L as [[[[a1 a2] a3] [[a4 a5] a6]] [[a7 a8] a9]].
  unfold Geometry.shift_site, centred. simpl.
  repeat apply f_equal2; lra.
Qed.

(** X23.  With an expansion matrix one of whose rows is zero, [get_pcel]
    raises [LinAlgError], whatever the structure: the elimination of
    [np.linalg.inv] meets a pivot that is exactly zero. *)
Theorem get_pcel_singular_matrix
    (make_supercell : Geometry.Structure -> Geometry.mat3 -> Geometry.Structure)
    (struc : Geometry.Structure) (smx : Geometry.mat3) (j : nat) :
  Geometry.row j smx = (0, 0, 0) ->
  Geometry.get_pcel make_supercell struc smx = Raise LinAlgError.
Proof.
  intros H. unfold Geometry.get_pcel, Geometry.pcel_candidates.
  rewrite (inv_singular smx); [reflexivity|].
  destruct smx as [[[[a1 a2] a3] [[a4 a5] a6]] [[a7 a8] a9]].
  destruct j as [|[|j]]; cbn [Geometry.row] in H; injection H as -> -> ->;
    unfold Geometry.det; ring.
Qed.

Lemma get_pcel_singular_matrix_witness :
  Geometry.get_pcel Geometry.same_cell Geometry.xz_cell
    ((1, 0, 0), (0, 0, 0), (0, 0, 1)) = Raise LinAlgError.
Proof.
  apply (get_pcel_singular_matrix Geometry.same_cell Geometry.xz_cell
           ((1, 0, 0), (0, 0, 0), (0, 0, 1)) 1).
  reflexivity.
Defined.

(** X24.  When [get_pcel] returns, the expansion matrix times the lattice
    of the cell returned is the lattice of the supercell, the periodicity
    is that of the structure given, and there are at most as many sites as
    in the supercell. *)
Theorem get_pcel_lattice
    (make_supercell : Geometry.Structure -> Geometry.mat3 -> Geometry.Structure)
    (struc pcel : Geometry.Structure) (smx : Geometry.mat3) :
  Geometry.get_pcel make_supercell struc smx = Ret pcel ->
  Geometry.matmul smx (Geometry.lattice pcel)
  = Geometry.lattice (make_supercell struc Geometry.identity)
  /\ Geometry.pbc pcel = Geometry.pbc struc
  /\ (List.length (Geometry.sites pcel)
      <= List.length (Geometry.sites (make_supercell struc Geometry.identity)))%nat.
Proof.
  unfold Geometry.get_pcel, Geometry.pcel_candidates.
  destruct (Geometry.inv smx) as [shrink| |e] eqn:Hinv; try discriminate.
  destruct (Geometry.shift_origin _ _ _ _) as [coords| |e] eqn:Hshift;
    try discriminate.
  destruct (Geometry.inv (Geometry.matmul shrink _)) as [pinv| |e];
    try discriminate.
  intros [= <-]. cbn [Geometry.lattice Geometry.pbc Geometry.sites].
  destruct (inv_spec _ _ Hinv) as (_ & HSs & _).
  split; [now rewrite <- matmul_assoc, HSs, matmul_identity_l|].
  split; [reflexivity|].
  rewrite select_in_cell.
  etransitivity; [apply filter_length_le|].
  rewrite length_combine, length_map. apply Nat.le_min_l.
Qed.

Lemma get_pcel_lattice_witness :
  exists pcel,
    Geometry.get_pcel Geometry.same_cell Geometry.xz_cell Geometry.identity
    = Ret pcel
    /\ Geometry.matmul Geometry.identity (Geometry.lattice pcel)
       = Geometry.lattice Geometry.xz_cell.
Proof.
  assert (H : Geometry.get_pcel Geometry.same_cell Geometry.xz_cell
                Geometry.identity
              = Ret (Geometry.mk Geometry.identity (true, false, true)
                       (Geometry.select 2 [(1%Z, (0, -0.5, 0.25))]))).
  { unfold Geometry.get_pcel. now rewrite xz_cell_candidates. }
  eexists. split; [exact H|].
  apply (get_pcel_lattice Geometry.same_cell Geometry.xz_cell _
           Geometry.identity H).
Defined.

Lemma select_zero l : Geometry.select 0 l = l.
Proof.
  induction l as [|[sp [[x y] z]] l IH]; simpl; [reflexivity|].
  now rewrite IH.
Qed.

(** X25.  For a structure without any periodic dimension, [get_pcel]
    shifts no site and drops none: when the two matrices it inverts are
    regular it returns every site of the structure, in order, at the
    rounded coordinates of its cartesian position in the cell returned. *)
Theorem get_pcel_molecule
    (make_supercell : Geometry.Structure -> Geometry.mat3 -> Geometry.Structure)
    (struc : Geometry.Structure) (smx pm : Geometry.mat3)
    (cands : list (Z * Geometry.vec3)) :
  Geometry.pbc struc = (false, false, false) ->
  Geometry.pcel_candidates make_supercell struc smx = Ret (pm, cands) ->
  let scel := make_supercell struc Geometry.identity in
  exists pinv,
    Geometry.inv pm = Ret pinv
    /\ Geometry.get_pcel make_supercell struc smx
       = Ret (Geometry.mk pm (false, false, false)
                (combine (map fst (Geometry.sites scel))
                   (map (fun c => Geometry.round12_vec (Geometry.vecmat c pinv))
                      (Geometry.cart_coords scel)))).
Proof.
  intros Hpbc Hc scel. unfold Geometry.get_pcel. rewrite Hc, Hpbc.
  cbn [Geometry.count_true Nat.add]. rewrite select_zero.
  revert Hc. unfold Geometry.pcel_candidates. rewrite Hpbc.
  cbn [Geometry.count_true Nat.add]. rewrite shift_origin_zero.
  destruct (Geometry.inv smx) as [shrink| |e]; try discriminate.
  destruct (Geometry.inv (Geometry.matmul shrink _)) as [pinv| |e] eqn:Hp;
    try discriminate.
  intros [= <- <-]. exists pinv. split; [exact Hp|].
  rewrite map_map. reflexivity.
Qed.

Lemma get_pcel_molecule_witness :
  exists pinv,
    Geometry.inv Geometry.identity = Ret pinv
    /\ Geometry.get_pcel Geometry.same_cell
         (Geometry.mk Geometry.identity (false, false, false)
            [(8%Z, (0, 0, 0)); (1%Z, (0.75, 0.5, 0))])
         Geometry.identity
       = Ret (Geometry.mk Geometry.identity (false, false, false)
                (combine [8%Z; 1%Z]
                   (map (fun c => Geometry.round12_vec (Geometry.vecmat c pinv))
                      (Geometry.cart_coords
                         (Geometry.mk Geometry.identity (false, false, false)
                            [(8%Z, (0, 0, 0)); (1%Z, (0.75, 0.5, 0))]))))).
Proof.
  apply (get_pcel_molecule Geometry.same_cell
           (Geometry.mk Geometry.identity (false, false, false)
              [(8%Z, (0, 0, 0)); (1%Z, (0.75, 0.5, 0))])
           Geometry.identity Geometry.identity
           (combine [8%Z; 1%Z]
              (map (fun c => Geometry.round12_vec
                               (Geometry.vecmat c Geometry.identity))
                 (Geometry.cart_coords
                    (Geometry.mk Geometry.identity (false, false, false)
                       [(8%Z, (0, 0, 0)); (1%Z, (0.75, 0.5, 0))]))))).
  - reflexivity.
  - unfold Geometry.pcel_candidates, Geometry.same_cell.
    cbn [Geometry.pbc Geometry.count_true Nat.add Geometry.lattice Geometry.sites].
    rewrite inv_identity, shift_origin_zero, matmul_identity_l, inv_identity.
    rewrite map_map. reflexivity.
Defined.

Lemma pcel_inverse S shrink L pinv :
  Geometry.inv S = Ret shrink ->
  Geometry.inv (Geometry.matmul shrink L) = Ret pinv ->
  Geometry.matmul L pinv = S.
Proof.
  intros HS HP.
  destruct (inv_spec _ _ HS) as (_ & HSs & _).
  destruct (inv_spec _ _ HP) as (_ & HPp & _).
  rewrite <- (matmul_identity_l (Geometry.matmul L pinv)), <- HSs.
  rewrite matmul_assoc, <- (matmul_assoc shrink L pinv), HPp.
  apply matmul_identity_r.
Qed.

(** X26.  For a structure periodic along its three axes, whose number of
    sites the supercell of the identity matrix keeps, the coordinates
    [get_pcel] tests and returns do not depend on the lattice: a site at
    the fractional coordinates [f] of the supercell has, in the primitive
    cell, the rounded coordinates of [(f - 1/2) smx], each component of
    [f] counted from the centre of the cell. *)
Theorem get_pcel_coordinates
    (make_supercell : Geometry.Structure -> Geometry.mat3 -> Geometry.Structure)
    (struc : Geometry.Structure) (smx pm : Geometry.mat3)
    (cands : list (Z * Geometry.vec3)) :
  Geometry.pbc struc = (true, true, true) ->
  List.length (Geometry.sites (make_supercell struc Geometry.identity))
  = List.length (Geometry.sites struc) ->
  Geometry.pcel_candidates make_supercell struc smx = Ret (pm, cands) ->
  cands
  = map (fun site =>
           (fst site,
            Geometry.round12_vec (Geometry.vecmat (centred (snd site)) smx)))
        (Geometry.sites (make_supercell struc Geometry.identity)).
Proof.
  intros Hpbc Hlen. unfold Geometry.pcel_candidates. rewrite Hpbc.
  cbn [Geometry.count_true Nat.add].
  destruct (Geometry.inv smx) as [shrink| |e] eqn:HS; try discriminate.
  set (scel := make_supercell struc Geometry.identity) in *.
  assert (Hn : List.length (Geometry.sites struc)
               = List.length (Geometry.cart_coords scel))
    by (unfold Geometry.cart_coords; now rewrite length_map).
  rewrite Hn, shift_origin_all.
  destruct (Geometry.inv (Geometry.matmul shrink _)) as [pinv| |e] eqn:HP;
    try discriminate.
  intros [= _ <-]. unfold Geometry.cart_coords. rewrite !map_map.
  pose proof (pcel_inverse _ _ _ _ HS HP) as HLp. clear Hlen Hn.
  induction (Geometry.sites scel) as [|[sp f] l IH]; simpl; [reflexivity|].
  rewrite IH. do 3 f_equal.
  now rewrite shift_site_3, vecmat_matmul, HLp.
Qed.

Lemma get_pcel_coordinates_witness :
  [(1%Z, Geometry.round12_vec (0, -0.5, 0.25))]
  = map (fun site =>
           (fst site,
            Geometry.round12_vec
              (Geometry.vecmat (centred (snd site)) Geometry.identity)))
        [(1%Z, (0.5, 0, 0.75))].
Proof.
  apply (get_pcel_coordinates Geometry.same_cell
           (Geometry.mk Geometry.identity (true, true, true)
              [(1%Z, (0.5, 0, 0.75))])
           Geometry.identity Geometry.identity).
  - reflexivity.
  - reflexivity.
  - unfold Geometry.pcel_candidates, Geometry.same_cell.
    cbn [Geometry.pbc Geometry.count_true Nat.add Geometry.lattice
         Geometry.sites List.length].
    rewrite inv_identity.
    change 1%nat with (List.length
      (Geometry.cart_coords (Geometry.mk Geometry.identity (true, true, true)
                               [(1%Z, (0.5, 0, 0.75))]))).
    rewrite shift_origin_all, matmul_identity_l, inv_identity.
    unfold Geometry.cart_coords. cbn [Geometry.sites Geometry.lattice map fst snd combine].
    rewrite shift_site_3, !vecmat_identity. unfold centred.
    replace (0.5 - 0.5) with 0 by lra. replace (0 - 0.5) with (-0.5) by lra.
    replace (0.75 - 0.5) with 0.25 by lra. reflexivity.
Defined.

Lemma combine_fst {X Y} (a : list X) (b : list Y) :
  List.length a = List.length b -> map fst (combine a b) = a.
Proof.
  revert b. induction a as [|x a IH]; intros [|y b] H; simpl in *;
    try discriminate; [reflexivity|]. f_equal. apply IH. lia.
Qed.

Lemma combine_snd {X Y} (a : list X) (b : list Y) :
  List.length a = List.length b -> map snd (combine a b) = b.
Proof.
  revert b. induction a as [|x a IH]; intros [|y b] H; simpl in *;
    try discriminate; [reflexivity|]. f_equal. apply IH. lia.
Qed.

Lemma shift_origin_length d L n l l' :
  Geometry.shift_origin n d L l = Ret l' -> List.length l' = List.length l.
Proof.
  intros H. rewrite (shift_origin_spec d L n l l' H).
  rewrite length_app, length_map, <- length_app, firstn_skipn. reflexivity.
Qed.

(** X27.  When [get_scel] returns, its structure has the lattice and the
    atomic numbers of the expanded structure and the periodicity of the
    structure given.  Of the cartesian positions of the expanded
    structure, the first [natom] are shifted by half of each of the first
    [ndimen] lattice vectors, along the first [ndimen] coordinates, and
    the others are left where they were; [natom] is the number of sites
    before the expansion and [ndimen] the number of periodic dimensions. *)
Theorem get_scel_shifts_first_sites
    (make_supercell : Geometry.Structure -> Geometry.mat3 -> Geometry.Structure)
    (struc scel : Geometry.Structure) (smx : Geometry.mat3) :
  Geometry.get_scel make_supercell struc smx = Ret scel ->
  let expanded := make_supercell struc smx in
  let natom := List.length (Geometry.sites struc) in
  let ndimen := Geometry.count_true (Geometry.pbc struc) in
  Geometry.lattice scel = Geometry.lattice expanded
  /\ Geometry.pbc scel = Geometry.pbc struc
  /\ map fst (Geometry.sites scel) = map fst (Geometry.sites expanded)
  /\ Geometry.cart_coords scel
     = map (Geometry.shift_site ndimen (Geometry.lattice expanded))
         (firstn natom (Geometry.cart_coords expanded))
       ++ skipn natom (Geometry.cart_coords expanded).
Proof.
  intros H expanded natom ndimen. revert H. unfold Geometry.get_scel.
  fold expanded natom ndimen.
  destruct (Geometry.shift_origin natom ndimen _ _) as [coords| |e] eqn:Hshift;
    try discriminate.
  destruct (Geometry.inv (Geometry.lattice expanded)) as [li| |e] eqn:Hinv;
    try discriminate.
  intros [= <-]. cbn [Geometry.lattice Geometry.pbc Geometry.sites].
  pose proof (shift_origin_length _ _ _ _ _ Hshift) as Hlen.
  assert (Hl : List.length (map fst (Geometry.sites expanded))
               = List.length (map (fun c => Geometry.vecmat c li) coords)).
  { rewrite !length_map, Hlen. unfold Geometry.cart_coords.
    now rewrite length_map. }
  split; [reflexivity|]. split; [reflexivity|].
  split; [now apply combine_fst|].
  unfold Geometry.cart_coords at 1. cbn [Geometry.sites Geometry.lattice].
  rewrite <- (map_map snd (fun f => Geometry.vecmat f (Geometry.lattice expanded))).
  rewrite (combine_snd _ _ Hl), map_map.
  rewrite <- (shift_origin_spec _ _ _ _ _ Hshift).
  destruct (inv_spec _ _ Hinv) as (_ & _ & HiL).
  rewrite <- (map_id coords) at 2. apply map_ext. intros c.
  now rewrite vecmat_matmul, HiL, vecmat_identity.
Qed.

Lemma get_scel_shifts_first_sites_witness :
  exists scel,
    Geometry.get_scel Geometry.same_cell Geometry.xz_cell Geometry.identity
    = Ret scel
    /\ Geometry.lattice scel = Geometry.lattice Geometry.xz_cell
    /\ Geometry.pbc scel = Geometry.pbc Geometry.xz_cell.
Proof.
  assert (H : exists scel,
             Geometry.get_scel Geometry.same_cell Geometry.xz_cell
               Geometry.identity = Ret scel).
  { unfold Geometry.get_scel, Geometry.same_cell, Geometry.xz_cell.
    cbn [Geometry.pbc Geometry.sites Geometry.lattice Geometry.count_true
         List.length Nat.add].
    change 1%nat with (List.length
      (Geometry.cart_coords
         (Geometry.mk Geometry.identity (true, false, true)
            [(1%Z, (0.5, 0, 0.25))]))).
    rewrite shift_origin_all, inv_identity. eexists. reflexivity. }
  destruct H as (scel & H). exists scel. split; [exact H|].
  destruct (get_scel_shifts_first_sites Geometry.same_cell Geometry.xz_cell
              scel Geometry.identity H) as (Hl & Hp & _).
  split; assumption.
Defined.

(** ** [rotate_lattice], [get_sg_symmops], [refine_geometry] *)

(** X28.  [rotate_lattice] keeps the periodicity, the atomic numbers and
    the fractional coordinates and turns every cartesian position [c] into
    [c rot].  Two rotations in a row are the rotation by the product of
    the two matrices, and the identity matrix gives the structure back. *)
Theorem rotate_lattice_composes (struc : Geometry.Structure)
    (rot rot' : Geometry.mat3) :
  Geometry.pbc (Geometry.rotate_lattice struc rot) = Geometry.pbc struc
  /\ Geometry.sites (Geometry.rotate_lattice struc rot) = Geometry.sites struc
  /\ Geometry.cart_coords (Geometry.rotate_lattice struc rot)
     = map (fun c => Geometry.vecmat c rot) (Geometry.cart_coords struc)
  /\ Geometry.rotate_lattice (Geometry.rotate_lattice struc rot) rot'
     = Geometry.rotate_lattice struc (Geometry.matmul rot rot')
  /\ Geometry.rotate_lattice struc Geometry.identity = struc.
Proof.
  split; [reflexivity|]. split; [reflexivity|]. split; [|split].
  - unfold Geometry.cart_coords, Geometry.rotate_lattice.
    cbn [Geometry.sites Geometry.lattice]. rewrite map_map.
    apply map_ext. intros site. now rewrite vecmat_matmul.
  - unfold Geometry.rotate_lattice. cbn [Geometry.sites Geometry.lattice Geometry.pbc].
    now rewrite matmul_assoc.
  - unfold Geometry.rotate_lattice. rewrite matmul_identity_r.
    now destruct struc.
Qed.

Lemma collect_symmops_spec all :
  forall n acc,
    Geometry.collect_symmops all n acc
    = ((n + List.length (filter (fun op => Geometry.all_zero (snd op)) all))%nat,
       acc ++ filter (fun op => Geometry.all_zero (snd op)) all).
Proof.
  induction all as [|op all IH]; intros n acc; simpl.
  - now rewrite Nat.add_0_r, app_nil_r.
  - destruct (Geometry.all_zero (snd op)).
    + rewrite IH, <- app_assoc. simpl. f_equal. lia.
    + apply IH.
Qed.

Lemma all_zero_spec v : Geometry.all_zero v = true <-> v = (0, 0, 0).
Proof.
  destruct v as [[x y] z]. unfold Geometry.all_zero.
  destruct (Req_dec_T x 0), (Req_dec_T y 0), (Req_dec_T z 0); simpl;
    split; intros H; try discriminate; try congruence.
Qed.

(** X29.  [get_sg_symmops] returns the space group number of the refined
    structure and, in the order the analyzer gives them, exactly its
    symmetry operations whose translation is zero; the number it returns
    is the number of operations it returns. *)
Theorem get_sg_symmops_translation_free
    (get_refined_structure : Geometry.Structure -> Geometry.Structure)
    (get_space_group_number : Geometry.Structure -> Z)
    (get_symmetry_operations : Geometry.Structure -> list Geometry.symmop)
    (struc : Geometry.Structure) :
  exists symmops,
    Geometry.get_sg_symmops get_refined_structure get_space_group_number
      get_symmetry_operations struc
    = (get_space_group_number (get_refined_structure struc),
       List.length symmops, symmops)
    /\ symmops
       = filter (fun op => Geometry.all_zero (snd op))
           (get_symmetry_operations (get_refined_structure struc))
    /\ Forall (fun op => snd op = (0, 0, 0)) symmops
    /\ (forall op,
          In op (get_symmetry_operations (get_refined_structure struc)) ->
          snd op = (0, 0, 0) -> In op symmops).
Proof.
  eexists. unfold Geometry.get_sg_symmops. rewrite collect_symmops_spec.
  cbn [Nat.add app]. split; [reflexivity|]. split; [reflexivity|]. split.
  - apply Forall_forall. intros op Hop. apply filter_In in Hop.
    now apply all_zero_spec.
  - intros op Hop H0. apply filter_In. split; [exact Hop|].
    now apply all_zero_spec.
Qed.

(** X30.  [refine_geometry] raises its exception, on 3D systems only,
    exactly when the structure has a non-periodic axis; otherwise it
    returns the space group number of the refined structure. *)
Theorem refine_geometry_3d_only
    (get_refined_structure get_primitive_standard_structure
       get_conventional_standard_structure get_symmetrized_structure :
       Geometry.Structure -> Geometry.Structure)
    (get_space_group_number : Geometry.Structure -> Z)
    (struc : Geometry.Structure) :
  let result :=
    Geometry.refine_geometry get_refined_structure
      get_primitive_standard_structure get_conventional_standard_structure
      get_symmetrized_structure get_space_group_number struc in
  (result = inl "This method is for 3D systems only."%string
   <-> Geometry.pbc struc <> (true, true, true))
  /\ (Geometry.pbc struc = (true, true, true) ->
      exists pstruc,
        result
        = inr (get_space_group_number (get_refined_structure struc), pstruc)).
Proof.
  unfold Geometry.refine_geometry.
  destruct (Geometry.pbc struc) as [[[|] [|]] [|]]; simpl;
    try (split; [split; [intros _; discriminate | intros _; reflexivity]
                | intros H; discriminate H]).
  destruct (_ && _)%bool; (split; [split; [discriminate | congruence]|]);
    intros _; eexists; reflexivity.
Qed.
